(* ===== verification/_CoqProject ===== *)
-Q . S2P
Prelude.v
Memory.v
Hoare.v
CSpec.v
MystringArs.v
MystringPtrs.v
Faults.v
Steps.v
Composition.v
Invariants.v
Copies.v
Roundtrips.v
Scenarios.v
Driver.v
Interface.v
