(* ===== verification/Prelude.v ===== *)
(** * A verified model of the c-string library (tasxatzial/c-string)

    ** The program

    The library reimplements eight functions of [<string.h>] under the
    names of [src/mystring.h]: [ms_length] (strlen), [ms_copy] (strcpy),
    [ms_ncopy] (strncpy), [ms_concat] (strcat), [ms_nconcat] (strncat),
    [ms_compare] (strcmp), [ms_ncompare] (strncmp) and [ms_search] (strstr).
    It has two implementations of the same header: [src/src/mystring_ars.c]
    walks the arrays with [size_t] indices, [src/src/mystring_ptrs.c] with
    moving pointers.  [ms_concat], [ms_nconcat] and [ms_search] call
    [ms_length]; the pointer [ms_search] calls [ms_ncompare].  Every function
    starts with [assert]s on its pointer arguments.  [src/main.c] is a test
    driver that calls each function next to its [<string.h>] counterpart on
    small arrays.  The repository carries each implementation twice: the
    top-level [src/mystring_ars.c] and [src/mystring_ptrs.c] have the same
    code as the [src/src/] files, with shorter comments.

    ** The files

    - [Prelude] (this file): the state-and-fault monad [M Σ A] in which the
      C functions are written, its notations (scope [cs_scope]), C [while]
      loops as fuel-bounded [while]/[while_ret], and the generic lemmas on
      them: counted loops ([loop_count], [while_ret_index]), invariants
      ([while_invariant], [loop_fuel_readonly]), termination by a variant
      ([loop_fuel_terminates]), simulation of one loop by another
      ([while_sim], [while_ret_sim]), and two [while] loops with the same
      body whose conditions agree under an invariant ([while_cond_sim],
      [while_exit_inv]).  Two computations are equivalent, [m1 ≡ m2], when
      they give the same outcome from every state; [bind], [andM] and the
      loops are [Proper] for it, so equivalent parts are replaced by
      [setoid_rewrite] anywhere in a function ([monad_simpl] in [Memory]).
    - [Memory]: bytes, the signedness of plain [char] as the class
      [CharSign] (instances [x86_64_sysv], signed, and [aarch64_aapcs],
      unsigned), the memory as a map from blocks (one per C array) to byte
      lists, pointers as [option addr] (NULL is [None]), [load]/[store]
      faulting [OutOfBounds] outside their block, [assert_nonnull] faulting
      [AssertFail], and the predicate [cstring m a s] ("[a] points to the
      terminated string [s]") with its frame lemmas, and its converse
      [cstring_of_scan] (non-null bytes then a null byte are a string).
    - [Hoare]: triples [{{ P }} m {{ Q }}] over the monad (partial
      correctness: a fault satisfies every triple), their rules for [bind],
      [if], [&&], the loops ([hoare_while], [hoare_while_ret]) and the
      memory accesses ([hoare_load], [hoare_nonnul_at]).
    - [CSpec]: what the C library functions do on string contents
      ([strcpy_spec] ... [strstr_spec], [strcmp_iso] for ISO C's unsigned
      comparison), modelled from the spec and the C standard since that code
      is not in the repository, with their algebra (common prefix [cpl],
      search lemmas).
    - [MystringArs], Module [Ars]: [src/src/mystring_ars.c] translated
      statement by statement, one definition per function plus the loop
      conditions and bodies it names ([compare_cond], [compare_body],
      [search_inner], [search_step]).  Theorems C1-C7 are the refinements:
      each function computes its [CSpec] counterpart on terminated, disjoint,
      large enough arguments, together with the spec's section 8 properties
      (copy then length and compare, padding, the concatenation string,
      compare 0 iff equal; C7 spells out the first occurrence).  The
      refinements themselves are the lemmas [ms_copy_refines] ...
      [ms_search_refines], which [Interface] reuses.  C20-C21: antisymmetry of
      [ms_compare] and [ms_ncompare] = [ms_compare] past the strings.
      C22, C23 and C25 are findings (below).
    - [MystringPtrs], Module [Ptrs]: [src/src/mystring_ptrs.c] the same way.
      C10-C15 prove by loop simulation that the pointer copy, ncopy, concat,
      nconcat, compare and ncompare equal the array versions on every memory
      and every argument, faults included (the simulations [copy_sim] ...
      [ncompare_sim]); C16 is [ms_length]; C8-C9 are the pointer
      [ms_search], which returns the first occurrence except on an empty
      haystack with an empty needle.  C19: a NULL argument is the
      precondition fault [AssertFail] in all sixteen functions.
    - [Faults]: C17-C18, on non-NULL arguments every function returns or
      faults [OutOfBounds] only, on every memory: no loop ends on its fuel.
      Each loop [scans] a position that moves one byte per round inside one
      block; the rounds of the [ms_search] loops are [search_round] and
      [psearch_round].
    - [Steps]: a loop as a transition system with no bound: [round] (a
      round that continues) and [stops] (a round that leaves or faults),
      both deterministic.  C34: on a string of [n] characters the loop of
      [ms_length] takes exactly [n] rounds that continue and one that
      leaves ([ars_length_round], [ptrs_length_round]).
    - [Composition]: how the functions relate to one another on every
      memory.  C30: [ms_concat] is [ms_length] followed by [ms_copy] at the
      end of [dest] ([copy_at_end]); C31: [ms_nconcat] with a bound at least
      the source length is [ms_concat]; C32: [ms_ncopy] with bound
      [strlen(src) + 1] is [ms_copy] (C31-C32 for a source string outside
      [dest]'s object, by [while_cond_sim] on the invariant [src_at]);
      C33: with a bound of 0 the bounded functions still read one or two
      bytes.
    - [Invariants]: what a call that returns has found, on any memory.
      C26: [ms_length] returns [n] only after finding a string of [n]
      characters whose terminator is inside its array ([strlen_at], by the
      loop rule of [Hoare]); C27: [ms_search] returns only when both
      arguments are strings, and then with the [strstr] result.
    - [Copies], Modules [ArsTop] and [PtrsTop]: the top-level copies
      [src/mystring_ars.c] and [src/mystring_ptrs.c], translated from their
      own lines; [top_level_copies_agree] checks each of their sixteen
      functions equal to the [src/src/] model, so every theorem about [Ars]
      and [Ptrs] holds of them.
    - [Roundtrips]: C28, [ms_copy(dest, src); ms_copy(src, dest);]
      ([copy_there_and_back]) returns both pointers and leaves the memory
      [strcpy] leaves: copying back rewrites each byte with itself.
    - [Scenarios]: the arrays of [src/main.c] in one memory [test_mem] and
      the witnesses, which apply each claim at the driver's calls by
      computation.
    - [Driver]: [src/mystring.h] as the record [mystring] of the eight
      operations, with the instances [mystring_ars] and [mystring_ptrs], and
      [src/main.c] as a client of it: each [test_ms_*] declares its arrays,
      calls the library and the [<string.h>] function (modelled from the C
      standard) and records what [printf] would print.
    - [Interface]: the documented behaviour of [src/mystring.h] as the class
      [MystringSpec L] over an implementation [L : mystring], with
      comparisons that promise only a sign, as the header does; both files
      meet it ([mystring_ars_spec], [mystring_ptrs_spec]).  [main] is run
      against the class alone (the tactic [drive] replaces each library call
      by its contract and branches on the comparison tests).  C29: any
      conforming implementation makes [main] print at most pairs of
      integers of the same sign, and one that returns [-1/0/1] makes it
      print [1 8] twice; C24: both files pass [main], and so does an
      [ms_copy] without its terminator, which breaks the contract.

    ** Bounds and fuel

    A loop runs at most [fuel_of m = mem_size m + 1] rounds, [mem_size] being
    the total size of the memory at loop entry.  Every loop of both files
    touches, in each round that continues, a byte one position further in
    one block, and stores never resize blocks, so it runs at most the size
    of that block.  [Faults] proves that no call ever ends on this bound
    ([OutOfFuel]), so the bounded loops compute what the C loops compute.
    [size_t] values are integers [Z]; indices stay between 0 and a block's
    size, so they never wrap, except [haystack_length - needle_length] in
    [ms_search], written [size_sub] (mod 2^64) and guarded by the code's
    [haystack_length < needle_length] test; C7 assumes a haystack shorter
    than 2^64 bytes.  The [int] results of the comparisons are differences
    of two [char]s, within [-255, 255], so they do not overflow.  The
    triples of [Hoare] are partial: where a claim says a call returns, the
    total lemmas of [Faults] and the refinements give that it does.

    ** Findings

    - The pointer [ms_search("", "")] returns NULL where [strstr] and the
      array version return the haystack (C9).
    - With a signed [char], [ms_compare] and [ms_ncompare] order bytes
      [0x80..0xff] below ASCII, against [strcmp] and the spec (C22).
    - [ms_ncopy], [ms_nconcat] and [ms_ncompare] read [src[num]] before
      testing [i != num]: an unterminated array of exactly [num] bytes is
      read out of bounds, which [strncpy] never does (C23).
    - With [num = 0], [ms_ncopy] and [ms_nconcat] read [src[0]] and
      [ms_ncompare] reads [str1[0]]: [strncpy] and [strncmp] with a count of
      0 read nothing (C33).
    - [ms_concat(s, s)] on a non-empty string never meets a terminator and
      writes past the array (C25; the pointer version too, by C12).
    - The header says [ms_concat] and [ms_nconcat] overwrite the terminator
      of [src]; they overwrite the terminator of [dest] (C3).
    - [main.c] tests [ms_compare(a, b) != strcmp(a, b)] on exact values
      where the header promises only a sign (C29), and its [ms_copy] test
      uses strings of equal length, so it cannot see a missing terminator
      (C24).
    - The padding loop of the pointer [ms_ncopy] moves [src_ptr] past the
      end of [src]'s array when [num > strlen(src) + 1]: undefined in ISO C
      (6.5.6) though never dereferenced; the model's pointers are flat, so
      C11 reads the code as the compiler's flat arithmetic does.

    ** Not modelled

    Every function of the repository is translated: the lines of the
    sources the map leaves out are comments.  Not modelled are the freeing
    of [main.c]'s local arrays at the end of each test (no test observes
    it) and the text [printf] prints: the driver records the values it
    prints, since the spec places the driver's I/O outside the library's
    contract and only asks that a divergence be printed.  The library is
    single-threaded (spec section 5), so no interleaving is modelled.
    Overlapping arguments other than [ms_concat(s, s)] (C25) are not
    studied; C31-C32 assume a source outside [dest]'s object. *)

From stdpp Require Import base list.
From Stdlib Require Import ZArith Lia.

(** * Prelude: outcomes, the state-and-fault monad, loops

    The C functions of the library are modelled as computations in a small
    state-and-fault monad [M Σ A := Σ -> outcome (A * Σ)]: the state is the
    memory, and a computation either returns a value and the new memory or
    stops with a [fault].  C [while] loops are modelled by [loop], which
    iterates a body returning [inl] (continue with a new loop state) or
    [inr] (leave the loop); the iteration count is bounded by a fuel drawn
    from the state at loop entry ([FuelBound]); with the termination lemma
    below, [Faults] shows that the bound is never the reason a loop stops. *)

Declare Scope cs_scope.
Delimit Scope cs_scope with cs.
Open Scope cs_scope.

(** ** Outcomes *)

(** The three ways a modelled call can stop without returning. *)
Inductive fault :=
  | AssertFail   (** [assert(p)] on a NULL argument: the precondition fault *)
  | OutOfBounds  (** a read or write outside its object: undefined behaviour *)
  | OutOfFuel.   (** the loop bound of the model ran out *)

#[export] Instance fault_eq_dec : EqDecision fault.
Proof. solve_decision. Defined.

Inductive outcome (A : Type) :=
  | Ok (v : A)
  | Fault (f : fault).
Arguments Ok {A} v.
Arguments Fault {A} f.

(** ** The state-and-fault monad *)

Definition M (Σ A : Type) : Type := Σ -> outcome (A * Σ).

Definition ret {Σ A} (x : A) : M Σ A := fun σ => Ok (x, σ).

Definition bind {Σ A B} (m : M Σ A) (k : A -> M Σ B) : M Σ B :=
  fun σ => match m σ with
           | Ok (x, σ') => k x σ'
           | Fault f => Fault f
           end.

Definition fail {Σ A} (f : fault) : M Σ A := fun _ => Fault f.

Notation "x <- m ;; k" := (bind m (fun x => k))
  (at level 100, m at next level, right associativity) : cs_scope.
Notation "m ;; k" := (bind m (fun _ => k))
  (at level 100, right associativity) : cs_scope.

(** C's short-circuit [&&] on conditions that read memory. *)
Definition andM {Σ} (m1 m2 : M Σ bool) : M Σ bool :=
  b <- m1 ;; if b then m2 else ret false.
Infix "&&&" := andM (at level 40, left associativity) : cs_scope.

(** ** Loops *)

(** [loop_fuel f body s] runs [body] from loop state [s] at most [f] times. *)
Fixpoint loop_fuel {Σ St R} (fuel : nat) (body : St -> M Σ (St + R))
    (s : St) : M Σ R :=
  match fuel with
  | O => fail OutOfFuel
  | S f =>
      r <- body s ;;
      match r with
      | inl s' => loop_fuel f body s'
      | inr x => ret x
      end
  end.

(** The state a loop draws its iteration bound from. *)
Class FuelBound (Σ : Type) := fuel_of : Σ -> nat.

Definition loop `{FuelBound Σ} {St R} (body : St -> M Σ (St + R))
    (s : St) : M Σ R :=
  fun σ => loop_fuel (fuel_of σ) body s σ.

(** One iteration of [while (cond) { body }] where [body] may [return]
    early: the loop ends with [inl s] when [cond] is false in state [s], and
    with [inr v] after [return v]. *)
Definition while_ret_step {Σ St R} (cond : St -> M Σ bool)
    (body : St -> M Σ (St + R)) (s : St) : M Σ (St + (St + R)) :=
  b <- cond s ;;
  if b then
    r <- body s ;;
    ret (match r with inl s' => inl s' | inr v => inr (inr v) end)
  else ret (inr (inl s)).

Definition while_ret `{FuelBound Σ} {St R} (cond : St -> M Σ bool)
    (body : St -> M Σ (St + R)) : St -> M Σ (St + R) :=
  loop (while_ret_step cond body).

(** One iteration of a plain [while (cond) { body }]. *)
Definition while_step {Σ St} (cond : St -> M Σ bool) (body : St -> M Σ St)
    (s : St) : M Σ (St + St) :=
  b <- cond s ;;
  if b then (s' <- body s ;; ret (inl s')) else ret (inr s).

Definition while `{FuelBound Σ} {St} (cond : St -> M Σ bool)
    (body : St -> M Σ St) : St -> M Σ St :=
  loop (while_step cond body).

(** ** Lemmas on the monad *)

Create HintDb cs discriminated.
Create Rewrite HintDb cs_rw.

Section MonadLemmas.
Context {Σ A B : Type}.

Lemma bind_Ok (m : M Σ A) (k : A -> M Σ B) σ x σ' :
    m σ = Ok (x, σ') -> bind m k σ = k x σ'.
  Proof. intros H. unfold bind. by rewrite H. Qed.

Lemma bind_Fault (m : M Σ A) (k : A -> M Σ B) σ f :
    m σ = Fault f -> bind m k σ = Fault f.
  Proof. intros H. unfold bind. by rewrite H. Qed.

Lemma bind_Ok_then (m : M Σ A) (k : A -> M Σ B) σ x σ' r :
    m σ = Ok (x, σ') -> k x σ' = r -> bind m k σ = r.
  Proof. intros H <-. unfold bind. by rewrite H. Qed.

Lemma bind_ret_l (x : A) (k : A -> M Σ B) σ : bind (ret x) k σ = k x σ.
  Proof. reflexivity. Qed.

Lemma bind_ret_r (m : M Σ A) σ : bind m ret σ = m σ.
  Proof. unfold bind, ret. by destruct (m σ) as [[]|]. Qed.

Lemma bind_assoc {C} (m : M Σ A) (k : A -> M Σ B) (h : B -> M Σ C) σ :
    bind (bind m k) h σ = bind m (fun x => bind (k x) h) σ.
  Proof. unfold bind. by destruct (m σ) as [[]|]. Qed.

Lemma bind_congr (m1 m2 : M Σ A) (k1 k2 : A -> M Σ B) σ :
    m1 σ = m2 σ -> (forall x σ', k1 x σ' = k2 x σ') -> bind m1 k1 σ = bind m2 k2 σ.
  Proof. intros Hm Hk. unfold bind. rewrite Hm. destruct (m2 σ) as [[]|]; auto. Qed.

Lemma bind_congr_Ok (m : M Σ A) (k1 k2 : A -> M Σ B) σ :
    (forall x σ', m σ = Ok (x, σ') -> k1 x σ' = k2 x σ') -> bind m k1 σ = bind m k2 σ.
  Proof. intros Hk. unfold bind. destruct (m σ) as [[]|]; auto. Qed.
End MonadLemmas.

Lemma andM_true {Σ} (m1 m2 : M Σ bool) σ σ' :
  m1 σ = Ok (true, σ') -> (m1 &&& m2) σ = m2 σ'.
Proof. intros H. unfold andM, bind. by rewrite H. Qed.

Lemma andM_false {Σ} (m1 m2 : M Σ bool) σ σ' :
  m1 σ = Ok (false, σ') -> (m1 &&& m2) σ = Ok (false, σ').
Proof. intros H. unfold andM, bind. by rewrite H. Qed.

Lemma andM_fault {Σ} (m1 m2 : M Σ bool) σ e :
  m1 σ = Fault e -> (m1 &&& m2) σ = Fault e.
Proof. intros H. unfold andM, bind. by rewrite H. Qed.

(** The faults an outcome may stop with. *)
Definition faults_in {A} (P : fault -> Prop) (o : outcome A) : Prop :=
  forall e, o = Fault e -> P e.

Lemma bind_faults_in {Σ A B} (P : fault -> Prop) (m : M Σ A) (k : A -> M Σ B) σ :
  faults_in P (m σ) ->
  (forall x σ', m σ = Ok (x, σ') -> faults_in P (k x σ')) ->
  faults_in P (bind m k σ).
Proof.
  intros Hm Hk e. unfold bind. cbv beta.
  destruct (m σ) as [[x σ']|e'] eqn:E; [by apply Hk|]. intros [= <-]. by apply Hm.
Qed.

#[export] Hint Rewrite @bind_ret_l @bind_assoc : cs_rw.

(** ** Lemmas on loops *)

Section LoopLemmas.
Context {Σ St R : Type} (body : St -> M Σ (St + R)).

Lemma loop_fuel_cont f s σ s' σ' :
    body s σ = Ok (inl s', σ') ->
    loop_fuel (S f) body s σ = loop_fuel f body s' σ'.
  Proof. intros H. cbn [loop_fuel]. unfold bind at 1. by rewrite H. Qed.

Lemma loop_fuel_exit f s σ r σ' :
    body s σ = Ok (inr r, σ') -> loop_fuel (S f) body s σ = Ok (r, σ').
  Proof. intros H. cbn [loop_fuel]. unfold bind at 1. by rewrite H. Qed.

Lemma loop_fuel_fault f s σ e :
    body s σ = Fault e -> loop_fuel (S f) body s σ = Fault e.
  Proof. intros H. cbn [loop_fuel]. unfold bind at 1. by rewrite H. Qed.

(** A loop stops with a fault of its body or runs out of fuel. *)
Lemma loop_fuel_fault_inv f s σ e :
    loop_fuel f body s σ = Fault e ->
    e = OutOfFuel \/ exists s' σ', body s' σ' = Fault e.
  Proof.
    revert s σ. induction f as [|f IH]; intros s σ H; [by injection H; left|].
    destruct (body s σ) as [[[s'|r] σ']|e'] eqn:Hb.
    - rewrite (loop_fuel_cont f _ _ _ _ Hb) in H. by apply IH in H.
    - by rewrite (loop_fuel_exit _ _ _ _ _ Hb) in H.
    - rewrite (loop_fuel_fault _ _ _ _ Hb) in H. injection H as ->. eauto.
  Qed.

(** More fuel never changes an outcome other than [OutOfFuel]. *)
Lemma loop_fuel_mono f f' s σ :
    loop_fuel f body s σ <> Fault OutOfFuel -> f <= f' ->
    loop_fuel f' body s σ = loop_fuel f body s σ.
  Proof.
    revert f' s σ. induction f as [|f IH]; intros f' s σ Hnf Hle; [done|].
    destruct f' as [|f']; [lia|].
    destruct (body s σ) as [[[s'|r] σ']|e] eqn:Hb.
    - rewrite (loop_fuel_cont f _ _ _ _ Hb) in Hnf.
      rewrite !(loop_fuel_cont _ _ _ _ _ Hb). apply IH; [done|lia].
    - by rewrite !(loop_fuel_exit _ _ _ _ _ Hb).
    - by rewrite !(loop_fuel_fault _ _ _ _ Hb).
  Qed.

(** A variant [μ] that decreases at every continuing iteration bounds the
    number of iterations: with more fuel than [μ], the loop never runs out,
    provided the body itself never does. *)
Lemma loop_fuel_terminates (μ : St -> Σ -> nat) :
    (forall s σ, body s σ <> Fault OutOfFuel) ->
    (forall s σ s' σ', body s σ = Ok (inl s', σ') -> μ s' σ' < μ s σ) ->
    forall f s σ, μ s σ < f -> loop_fuel f body s σ <> Fault OutOfFuel.
  Proof.
    intros Hb Hdec f. induction f as [|f IH]; intros s σ Hlt; [lia|].
    destruct (body s σ) as [[[s'|r] σ']|e] eqn:Hs.
    - rewrite (loop_fuel_cont _ _ _ _ _ Hs). apply IH.
      specialize (Hdec _ _ _ _ Hs). lia.
    - by rewrite (loop_fuel_exit _ _ _ _ _ Hs).
    - rewrite (loop_fuel_fault _ _ _ _ Hs). intros [= ->]. by apply (Hb s σ).
  Qed.
End LoopLemmas.

(** ** Relating two computations

    [out_rel Q o1 o2]: both outcomes fault in the same way, or both return,
    with the same state and results related by [Q].  This is the simulation
    used to relate the array-index and the pointer traversals of the same C
    function: their loop states differ ([i] against [s + i]) while their
    effects on memory are the same. *)
Inductive out_rel {Σ A B} (Q : A -> B -> Prop) :
    outcome (A * Σ) -> outcome (B * Σ) -> Prop :=
  | out_rel_ok a b σ : Q a b -> out_rel Q (Ok (a, σ)) (Ok (b, σ))
  | out_rel_fault e : out_rel Q (Fault e) (Fault e).

Inductive sum_rel {A1 A2 B1 B2} (P : A1 -> A2 -> Prop) (Q : B1 -> B2 -> Prop) :
    A1 + B1 -> A2 + B2 -> Prop :=
  | sum_rel_l a1 a2 : P a1 a2 -> sum_rel P Q (inl a1) (inl a2)
  | sum_rel_r b1 b2 : Q b1 b2 -> sum_rel P Q (inr b1) (inr b2).

Section OutRel.
Context {Σ A B C D : Type}.

Lemma out_rel_eq (o1 o2 : outcome (A * Σ)) : out_rel eq o1 o2 -> o1 = o2.
  Proof. by intros [a b σ <-|e]. Qed.

Lemma out_rel_refl (Q : A -> A -> Prop) (o : outcome (A * Σ)) :
    (forall a, Q a a) -> out_rel Q o o.
  Proof. intros HQ. destruct o as [[a σ]|e]; constructor. apply HQ. Qed.

Lemma out_rel_ret (Q : A -> B -> Prop) a b (σ : Σ) :
    Q a b -> out_rel Q (ret a σ) (ret b σ).
  Proof. intros. by constructor. Qed.

Lemma out_rel_bind (Q : A -> B -> Prop) (Q' : C -> D -> Prop)
      (m1 : M Σ A) (m2 : M Σ B) k1 k2 σ :
    out_rel Q (m1 σ) (m2 σ) ->
    (forall a b σ', Q a b -> out_rel Q' (k1 a σ') (k2 b σ')) ->
    out_rel Q' (bind m1 k1 σ) (bind m2 k2 σ).
  Proof.
    intros H Hk. unfold bind.
    inversion H as [a b σ' HQ E1 E2|e E1 E2]; [by apply Hk|constructor].
  Qed.
End OutRel.

Lemma out_rel_bind_r {Σ A B D : Type} (Q : A -> B -> Prop) (Q' : A -> D -> Prop)
    (m1 : M Σ A) (m2 : M Σ B) (k2 : B -> M Σ D) σ :
  out_rel Q (m1 σ) (m2 σ) ->
  (forall a b σ', Q a b -> out_rel Q' (ret a σ') (k2 b σ')) ->
  out_rel Q' (m1 σ) (bind m2 k2 σ).
Proof.
  intros H Hk. rewrite <- (bind_ret_r m1 σ). by apply (out_rel_bind Q).
Qed.


(** Step through two computations that start with the same action. *)
Ltac sim_same :=
  repeat match goal with
  | |- out_rel _ (bind ?m _ ?σ) (bind ?m _ ?σ) =>
      apply (out_rel_bind eq); [apply out_rel_refl; done|];
      let a := fresh "a" in let b := fresh "b" in let σ' := fresh "σ" in
      intros a b σ' <-; cbv beta
  end.

(** Two loop bodies related step by step run related loops. *)
Section LoopSimulation.
Context {Σ St1 St2 R1 R2 : Type} (Rel : St1 -> St2 -> Prop) (RelR : R1 -> R2 -> Prop).
Context (body1 : St1 -> M Σ (St1 + R1)) (body2 : St2 -> M Σ (St2 + R2)).
Hypothesis body_sim :
    forall s1 s2 σ, Rel s1 s2 -> out_rel (sum_rel Rel RelR) (body1 s1 σ) (body2 s2 σ).

Lemma loop_fuel_sim f s1 s2 σ :
    Rel s1 s2 -> out_rel RelR (loop_fuel f body1 s1 σ) (loop_fuel f body2 s2 σ).
  Proof.
    revert s1 s2 σ. induction f as [|f IH]; intros s1 s2 σ HR; [constructor|].
    simpl. apply (out_rel_bind (sum_rel Rel RelR)); [by apply body_sim|].
    intros a b σ' [t1 t2 Ht|r1 r2 Hr]; [by apply IH|by constructor].
  Qed.

Lemma loop_sim `{FuelBound Σ} s1 s2 σ :
    Rel s1 s2 -> out_rel RelR (loop body1 s1 σ) (loop body2 s2 σ).
  Proof. apply loop_fuel_sim. Qed.
End LoopSimulation.

(** A loop whose iterations are known: from state [st k] and memory [σs k]
    the body continues to [st (S k)], [σs (S k)] for [k < N] and leaves with
    [r] at [N].  With more fuel than [N], the loop returns [r]. *)
Section CountedLoop.
Context {Σ St R : Type} (body : St -> M Σ (St + R)).
Context (st : nat -> St) (σs : nat -> Σ) (N : nat) (r : R) (σ' : Σ).
Hypothesis Hstep : forall k, k < N ->
    body (st k) (σs k) = Ok (inl (st (S k)), σs (S k)).
Hypothesis Hlast : body (st N) (σs N) = Ok (inr r, σ').

Lemma loop_fuel_count f k :
    k <= N -> N - k < f -> loop_fuel f body (st k) (σs k) = Ok (r, σ').
  Proof.
    revert k. induction f as [|f IH]; intros k Hk Hf; [lia|].
    destruct (decide (k = N)) as [->|Hne].
    - by apply loop_fuel_exit.
    - rewrite (loop_fuel_cont _ _ _ _ _ _ (Hstep k ltac:(lia))). apply IH; lia.
  Qed.

Lemma loop_count `{FuelBound Σ} :
    N < fuel_of (σs 0) -> loop body (st 0) (σs 0) = Ok (r, σ').
  Proof. intros Hf. apply loop_fuel_count; lia. Qed.

Lemma loop_count_at `{FuelBound Σ} s0 σ0 :
    st 0 = s0 -> σs 0 = σ0 -> N < fuel_of σ0 -> loop body s0 σ0 = Ok (r, σ').
  Proof. intros <- <-. apply loop_count. Qed.
End CountedLoop.

(** The same loop when round [N] faults: the loop faults. *)
Section CountedLoopFault.
Context {Σ St R : Type} (body : St -> M Σ (St + R)).
Context (st : nat -> St) (σs : nat -> Σ) (N : nat) (e : fault).
Hypothesis Hstep : forall k, k < N ->
    body (st k) (σs k) = Ok (inl (st (S k)), σs (S k)).
Hypothesis Hlast : body (st N) (σs N) = Fault e.

Lemma loop_fuel_count_fault f k :
    k <= N -> N - k < f -> loop_fuel f body (st k) (σs k) = Fault e.
  Proof.
    revert k. induction f as [|f IH]; intros k Hk Hf; [lia|].
    destruct (decide (k = N)) as [->|Hne].
    - by apply loop_fuel_fault.
    - rewrite (loop_fuel_cont _ _ _ _ _ _ (Hstep k ltac:(lia))). apply IH; lia.
  Qed.

Lemma loop_count_fault `{FuelBound Σ} :
    N < fuel_of (σs 0) -> loop body (st 0) (σs 0) = Fault e.
  Proof. intros Hf. apply loop_fuel_count_fault; lia. Qed.
End CountedLoopFault.

(** Invariants of loops, by induction on the rounds. *)
Section LoopInvariants.
Context {Σ St R : Type} (body : St -> M Σ (St + R)).

(** A loop whose rounds never change the state leaves it unchanged. *)
Lemma loop_fuel_readonly :
    (forall s σ x σ', body s σ = Ok (x, σ') -> σ' = σ) ->
    forall f s σ r σ', loop_fuel f body s σ = Ok (r, σ') -> σ' = σ.
  Proof.
    intros Hb f. induction f as [|f IH]; intros s σ r σ' H; [done|].
    destruct (body s σ) as [[[s1|x] σ1]|e] eqn:E.
    - rewrite (loop_fuel_cont _ _ _ _ _ _ E) in H. rewrite (IH _ _ _ _ H). eauto.
    - rewrite (loop_fuel_exit _ _ _ _ _ _ E) in H. injection H as -> ->. eauto.
    - by rewrite (loop_fuel_fault _ _ _ _ _ E) in H.
  Qed.

(** A property of the loop state kept by every round holds at the exit. *)
Lemma loop_fuel_invariant (P : St -> Prop) (Q : R -> Prop) :
    (forall s σ s' σ', P s -> body s σ = Ok (inl s', σ') -> P s') ->
    (forall s σ r σ', P s -> body s σ = Ok (inr r, σ') -> Q r) ->
    forall f s σ r σ', P s -> loop_fuel f body s σ = Ok (r, σ') -> Q r.
  Proof.
    intros Hc He f. induction f as [|f IH]; intros s σ r σ' HP H; [done|].
    destruct (body s σ) as [[[s1|x] σ1]|e] eqn:E.
    - rewrite (loop_fuel_cont _ _ _ _ _ _ E) in H. eauto.
    - rewrite (loop_fuel_exit _ _ _ _ _ _ E) in H. injection H as -> ->. eauto.
    - by rewrite (loop_fuel_fault _ _ _ _ _ E) in H.
  Qed.
End LoopInvariants.

(** A [while] loop keeps a property of its state that its body keeps. *)
Lemma while_invariant `{FuelBound Σ} {St} (P : St -> Prop) cond
    (body : St -> M Σ St) s σ s' σ' :
  (forall s σ s' σ', P s -> body s σ = Ok (s', σ') -> P s') ->
  P s -> while cond body s σ = Ok (s', σ') -> P s'.
Proof.
  intros Hb. apply (loop_fuel_invariant _ P P).
  - intros s0 σ0 s1 σ1 HP. unfold while_step, bind, ret. cbv beta.
    destruct (cond s0 σ0) as [[[] σ2]|]; [|done|done].
    destruct (body s0 σ2) as [[s3 σ3]|] eqn:E; [|done]. intros [= <- _]. eauto.
  - intros s0 σ0 r σ1 HP. unfold while_step, bind, ret. cbv beta.
    destruct (cond s0 σ0) as [[[] σ2]|]; [|by intros [= <- _]|done].
    by destruct (body s0 σ2) as [[s3 σ3]|].
Qed.

(** The iterations of [while] and [while_ret] loops. *)
Section WhileSteps.
Context {Σ St R : Type} (cond : St -> M Σ bool).

Lemma while_step_true (body : St -> M Σ St) s σ σ1 s' σ2 :
    cond s σ = Ok (true, σ1) -> body s σ1 = Ok (s', σ2) ->
    while_step cond body s σ = Ok (inl s', σ2).
  Proof. intros Hc Hb. unfold while_step, bind, ret. by rewrite Hc, Hb. Qed.

Lemma while_step_fault (body : St -> M Σ St) s σ e :
    cond s σ = Fault e -> while_step cond body s σ = Fault e.
  Proof. intros Hc. unfold while_step, bind. by rewrite Hc. Qed.

Lemma while_step_body_fault (body : St -> M Σ St) s σ σ1 e :
    cond s σ = Ok (true, σ1) -> body s σ1 = Fault e -> while_step cond body s σ = Fault e.
  Proof. intros Hc Hb. unfold while_step, bind. by rewrite Hc, Hb. Qed.

Lemma while_step_false (body : St -> M Σ St) s σ σ1 :
    cond s σ = Ok (false, σ1) -> while_step cond body s σ = Ok (inr s, σ1).
  Proof. intros Hc. unfold while_step, bind, ret. by rewrite Hc. Qed.

Lemma while_ret_step_cont (body : St -> M Σ (St + R)) s σ σ1 s' σ2 :
    cond s σ = Ok (true, σ1) -> body s σ1 = Ok (inl s', σ2) ->
    while_ret_step cond body s σ = Ok (inl s', σ2).
  Proof. intros Hc Hb. unfold while_ret_step, bind, ret. by rewrite Hc, Hb. Qed.

Lemma while_ret_step_return (body : St -> M Σ (St + R)) s σ σ1 v σ2 :
    cond s σ = Ok (true, σ1) -> body s σ1 = Ok (inr v, σ2) ->
    while_ret_step cond body s σ = Ok (inr (inr v), σ2).
  Proof. intros Hc Hb. unfold while_ret_step, bind, ret. by rewrite Hc, Hb. Qed.

Lemma while_ret_step_false (body : St -> M Σ (St + R)) s σ σ1 :
    cond s σ = Ok (false, σ1) ->
    while_ret_step cond body s σ = Ok (inr (inl s), σ1).
  Proof. intros Hc. unfold while_ret_step, bind, ret. by rewrite Hc. Qed.
End WhileSteps.

(** A read-only [while_ret] loop over an index [i = 0, 1, ..., N]: the
    first [N] rounds test true and continue with [i + 1], round [N] ends the
    loop; within the fuel this is the loop's result. *)
Lemma while_ret_index `{FuelBound Σ} {R} (cond : Z -> M Σ bool)
    (body : Z -> M Σ (Z + R)) σ N x :
  (forall k, k < N -> cond (Z.of_nat k) σ = Ok (true, σ) /\
                      body (Z.of_nat k) σ = Ok (inl (Z.of_nat (S k)), σ)) ->
  while_ret_step cond body (Z.of_nat N) σ = Ok (inr x, σ) ->
  N < fuel_of σ ->
  while_ret cond body 0%Z σ = Ok (x, σ).
Proof.
  intros Hs Hl Hf. apply (loop_count_at _ (fun k => Z.of_nat k) (fun _ => σ) N);
    [|done..]. intros k Hk. destruct (Hs k Hk). by eapply while_ret_step_cont.
Qed.

Lemma ret_true {Σ} (b : bool) (σ : Σ) : b = true -> ret b σ = Ok (true, σ).
Proof. by intros ->. Qed.

Lemma ret_false {Σ} (b : bool) (σ : Σ) : b = false -> ret b σ = Ok (false, σ).
Proof. by intros ->. Qed.

(** ** Generic list lemmas *)

Lemma sum_list_fmap_elem {A} (f : A -> nat) (l : list A) x :
  x ∈ l -> f x <= sum_list (f <$> l).
Proof.
  induction l as [|y l IH]; [by intros ?%elem_of_nil|].
  change (sum_list (f <$> y :: l)) with (f y + sum_list (f <$> l)).
  intros [->|Hx]%elem_of_cons; [lia|]. specialize (IH Hx). lia.
Qed.

(** ** Simulations of [while] loops *)

Section WhileSimulation.
Context `{FuelBound Σ} {St1 St2 : Type} (Rel : St1 -> St2 -> Prop).
Context (cond1 : St1 -> M Σ bool) (cond2 : St2 -> M Σ bool).
Hypothesis cond_sim :
    forall s1 s2 σ, Rel s1 s2 -> out_rel eq (cond1 s1 σ) (cond2 s2 σ).

Lemma while_sim (body1 : St1 -> M Σ St1) (body2 : St2 -> M Σ St2) s1 s2 σ :
    (forall s1 s2 σ, Rel s1 s2 -> out_rel Rel (body1 s1 σ) (body2 s2 σ)) ->
    Rel s1 s2 -> out_rel Rel (while cond1 body1 s1 σ) (while cond2 body2 s2 σ).
  Proof.
    intros Hb HR. apply (loop_sim Rel Rel); [|done].
    intros t1 t2 σ' Ht. unfold while_step.
    apply (out_rel_bind eq); [by apply cond_sim|]. intros b ? σ'' <-.
    destruct b; [|by constructor; constructor].
    apply (out_rel_bind Rel); [by apply Hb|]. intros. by constructor; constructor.
  Qed.

Lemma while_ret_sim {R1 R2} (RelR : R1 -> R2 -> Prop)
      (body1 : St1 -> M Σ (St1 + R1)) (body2 : St2 -> M Σ (St2 + R2)) s1 s2 σ :
    (forall s1 s2 σ, Rel s1 s2 ->
       out_rel (sum_rel Rel RelR) (body1 s1 σ) (body2 s2 σ)) ->
    Rel s1 s2 ->
    out_rel (sum_rel Rel RelR) (while_ret cond1 body1 s1 σ) (while_ret cond2 body2 s2 σ).
  Proof.
    intros Hb HR. apply (loop_sim Rel (sum_rel Rel RelR)); [|done].
    intros t1 t2 σ' Ht. unfold while_ret_step.
    apply (out_rel_bind eq); [by apply cond_sim|]. intros b ? σ'' <-.
    destruct b; [|by constructor; constructor; constructor].
    apply (out_rel_bind (sum_rel Rel RelR)); [by apply Hb|].
    intros r1 r2 σ3 [a1 a2 Ha|v1 v2 Hv]; by repeat constructor.
  Qed.
End WhileSimulation.

(** Two [while] loops with the same body whose conditions agree on the
    states that an invariant [Inv] of the loop describes: the loops agree.
    The invariant also tells where the loop exits. *)
Section WhileCondSim.
Context `{FuelBound Σ} {St : Type} (Inv : St -> Σ -> Prop).
Context (c1 c2 : St -> M Σ bool) (body : St -> M Σ St).
Hypothesis cond_eq : forall s σ, Inv s σ -> c2 s σ = c1 s σ.
Hypothesis body_inv : forall s σ σ1 s' σ',
    Inv s σ -> c1 s σ = Ok (true, σ1) -> body s σ1 = Ok (s', σ') -> Inv s' σ'.

Lemma while_cond_sim s σ : Inv s σ -> while c2 body s σ = while c1 body s σ.
  Proof.
    unfold while, loop. generalize (fuel_of σ) as f. intros f. revert s σ.
    induction f as [|f IH]; intros s σ HI; [done|]. simpl. unfold while_step, bind.
    rewrite (cond_eq s σ HI). destruct (c1 s σ) as [[[] σ1]|e] eqn:E; [|done|done].
    destruct (body s σ1) as [[s' σ']|e] eqn:Eb; [|done]. apply IH. eauto.
  Qed.

Lemma while_exit_inv s σ r σ' :
    Inv s σ -> while c1 body s σ = Ok (r, σ') ->
    exists σ0, Inv r σ0 /\ c1 r σ0 = Ok (false, σ').
  Proof.
    unfold while, loop. generalize (fuel_of σ) as f. intros f. revert s σ.
    induction f as [|f IH]; intros s σ HI; [done|]. simpl. unfold while_step, bind.
    destruct (c1 s σ) as [[[] σ1]|e] eqn:E; [|intros [= <- <-]; eauto|done].
    destruct (body s σ1) as [[s' σ2]|e] eqn:Eb; [|done]. apply IH. eauto.
  Qed.
End WhileCondSim.

(** ** Equivalence of computations

    Two computations are equivalent when they give the same outcome from
    every state: a relation coarser than equality of their functions.  It is
    an equivalence, and [bind], [andM] and the loops respect it, so
    [rewrite] and [setoid_rewrite] replace a computation by an equivalent
    one anywhere in a program, under binders included. *)

#[export] Instance M_equiv {Σ A} : Equiv (M Σ A) := fun m1 m2 => forall σ, m1 σ = m2 σ.

Section MEquiv.
Context {Σ : Type}.

#[export] Instance M_equivalence {A} : Equivalence (≡@{M Σ A}).
  Proof. split; intros m1; [done|intros m2 H σ; by rewrite H|intros m2 m3 H1 H2 σ; by rewrite H1, H2]. Qed.

#[export] Instance bind_proper {A B} :
    Proper ((≡) ==> pointwise_relation A (≡) ==> (≡)) (@bind Σ A B).
  Proof. intros m1 m2 Hm k1 k2 Hk σ. by apply bind_congr. Qed.

#[export] Instance andM_proper : Proper ((≡) ==> (≡) ==> (≡)) (@andM Σ).
  Proof. intros m1 m2 Hm k1 k2 Hk. unfold andM. apply bind_proper; [done|]. by intros []. Qed.

#[export] Instance loop_fuel_proper {St R} f :
    Proper (pointwise_relation St (≡) ==> eq ==> (≡)) (@loop_fuel Σ St R f).
  Proof.
    intros b1 b2 Hb s ? <-. revert s. induction f as [|f IH]; intros s σ; [done|].
    simpl. apply bind_proper; [apply Hb|]. intros [s'|r]; [apply IH|done].
  Qed.

#[export] Instance loop_proper `{FuelBound Σ} {St R} :
    Proper (pointwise_relation St (≡) ==> eq ==> (≡)) (@loop Σ _ St R).
  Proof. intros b1 b2 Hb s ? <- σ. by apply loop_fuel_proper. Qed.

#[export] Instance while_proper `{FuelBound Σ} {St} :
    Proper (pointwise_relation St (≡) ==> pointwise_relation St (≡) ==> eq ==> (≡))
      (@while Σ _ St).
  Proof.
    intros c1 c2 Hc b1 b2 Hb s ? <-. apply loop_proper; [|done]. intros t.
    unfold while_step. apply bind_proper; [apply Hc|]. intros []; [|done].
    apply bind_proper; [apply Hb|done].
  Qed.

#[export] Instance while_ret_proper `{FuelBound Σ} {St R} :
    Proper (pointwise_relation St (≡) ==> pointwise_relation St (≡) ==> eq ==> (≡))
      (@while_ret Σ _ St R).
  Proof.
    intros c1 c2 Hc b1 b2 Hb s ? <-. apply loop_proper; [|done]. intros t.
    unfold while_ret_step. apply bind_proper; [apply Hc|]. intros []; [|done].
    apply bind_proper; [apply Hb|done].
  Qed.
End MEquiv.

(** The monad laws, as equivalences. *)
Lemma bind_ret_l_equiv {Σ A B} (x : A) (k : A -> M Σ B) : bind (ret x) k ≡ k x.
Proof. intros σ. apply bind_ret_l. Qed.

Lemma bind_assoc_equiv {Σ A B C} (m : M Σ A) (k : A -> M Σ B) (h : B -> M Σ C) :
  bind (bind m k) h ≡ bind m (fun x => bind (k x) h).
Proof. intros σ. apply bind_assoc. Qed.
