(* ===== verification/Memory.v ===== *)
(** * Memory: bytes, C [char] values, byte arrays and pointers

    The library's functions read and write caller-owned [char] arrays.  The
    memory is a finite map from block identifiers to byte arrays (one block
    per C array object); a pointer is NULL or an address (block, offset).
    A read or write outside its block is undefined behaviour in C and is
    modelled as the fault [OutOfBounds]; a NULL argument reaching
    [assert(p)] is the fault [AssertFail].  Whether plain [char] is signed
    is implementation-defined: the class [CharSign] carries that choice and
    [char_val] gives the [int] value a [char] promotes to. *)

From stdpp Require Import base list gmap.
From Stdlib Require Import ZArith Lia Strings.Byte.
From Stdlib Require Strings.String.
From S2P Require Import Prelude.

Open Scope cs_scope.

(** ** Bytes and C [char] values *)

Abbreviation byte := Byte.byte.

#[export] Instance byte_eq_dec : EqDecision byte := Byte.byte_eq_dec.

Definition byte_unsigned (b : byte) : Z := Z.of_N (Byte.to_N b).

(** Two's complement reading of a byte, as [(signed char) b]. *)
Definition byte_signed (b : byte) : Z :=
  let u := byte_unsigned b in if (u <? 128)%Z then u else (u - 256)%Z.

(** Whether the platform's plain [char] is signed. *)
Class CharSign := char_is_signed : bool.

(** x86-64 System V: [char] is signed.  AArch64 AAPCS: [char] is unsigned. *)
Definition x86_64_sysv : CharSign := true.
Definition aarch64_aapcs : CharSign := false.

(** The [int] value a [char] holding [b] promotes to. *)
Definition char_val `{CharSign} (b : byte) : Z :=
  if char_is_signed then byte_signed b else byte_unsigned b.

(** The C test [str[i]] (true unless the null character). *)
Definition is_nul (b : byte) : bool := bool_decide (b = x00).

(** ** Addresses, pointers and the memory *)

Record addr := Addr { ablock : positive; aofs : Z }.

#[export] Instance addr_eq_dec : EqDecision addr.
Proof. solve_decision. Defined.

(** A C pointer: [None] is NULL. *)
Abbreviation ptr := (option addr).

(** A memory: one byte array per allocated object. *)
Abbreviation mem := (gmap positive (list byte)).

(** Pointer arithmetic [p + i] inside an object. *)
Definition addr_add (a : addr) (i : Z) : addr := Addr (ablock a) (aofs a + i).
Infix ".+" := addr_add (at level 50, left associativity) : cs_scope.

(** Pointer difference [p - q] of two pointers into the same object. *)
Definition ptr_diff (p q : addr) : Z := (aofs p - aofs q)%Z.

(** Size of the object a pointer points into (0 if it is not allocated). *)
Definition blen (m : mem) (b : positive) : Z :=
  match m !! b with Some bs => Z.of_nat (length bs) | None => 0%Z end.

Definition mload (m : mem) (a : addr) : option byte :=
  bs ← m !! ablock a;
  if decide (0 <= aofs a)%Z then bs !! Z.to_nat (aofs a) else None.

Definition mstore (m : mem) (a : addr) (v : byte) : option mem :=
  bs ← m !! ablock a;
  if decide (0 <= aofs a < Z.of_nat (length bs))%Z
  then Some (<[ablock a := <[Z.to_nat (aofs a) := v]> bs]> m)
  else None.

(** The bytes [a[0..n-1]]. *)
Fixpoint read_bytes (m : mem) (a : addr) (n : nat) : option (list byte) :=
  match n with
  | O => Some []
  | S n => b ← mload m a; bs ← read_bytes m (a .+ 1) n; Some (b :: bs)
  end.

(** Storing [bs] at [a[0..]], one byte after the other. *)
Fixpoint write_bytes (m : mem) (a : addr) (bs : list byte) : option mem :=
  match bs with
  | [] => Some m
  | b :: bs => m' ← mstore m a b; write_bytes m' (a .+ 1) bs
  end.

(** [a] points to a null-terminated string whose content is [s]. *)
Definition cstring (m : mem) (a : addr) (s : list byte) : Prop :=
  read_bytes m a (length s + 1) = Some (s ++ [x00]) /\ x00 ∉ s.

(** The ranges [p[0..n-1]] and [q[0..k-1]] do not overlap. *)
Definition disjoint (p : addr) (n : Z) (q : addr) (k : Z) : Prop :=
  ablock p <> ablock q \/ (aofs p + n <= aofs q)%Z \/ (aofs q + k <= aofs p)%Z.

(** ** Memory accesses as computations *)

Definition load (a : addr) : M mem byte := fun m =>
  match mload m a with Some b => Ok (b, m) | None => Fault OutOfBounds end.

Definition store (a : addr) (v : byte) : M mem unit := fun m =>
  match mstore m a v with Some m' => Ok (tt, m') | None => Fault OutOfBounds end.

(** [assert(p)]. *)
Definition assert_nonnull (p : ptr) : M mem addr := fun m =>
  match p with Some a => Ok (a, m) | None => Fault AssertFail end.

Lemma assert_nonnull_Some {A} a (k : addr -> M mem A) m :
  bind (assert_nonnull (Some a)) k m = k a m.
Proof. reflexivity. Qed.

(** Pass the [assert]s of a call on non-NULL arguments. *)
Ltac run_asserts := repeat (rewrite assert_nonnull_Some; cbv beta).

Lemma assert_Some_equiv {A} a (k : addr -> M mem A) : bind (assert_nonnull (Some a)) k ≡ k a.
Proof. intros σ. apply assert_nonnull_Some. Qed.

(** Pass the [assert]s on non-NULL pointers and normalise the binds, under
    binders too. *)
Ltac monad_simpl :=
  repeat first [ setoid_rewrite assert_Some_equiv | setoid_rewrite bind_assoc_equiv
               | setoid_rewrite bind_ret_l_equiv ].

Lemma assert_nonnull_None {A} (k : addr -> M mem A) m :
  bind (assert_nonnull None) k m = Fault AssertFail.
Proof. reflexivity. Qed.

(** The C condition [*p] (or [str[i]]): the byte at [p] is not null. *)
Definition nonnul_at (a : addr) : M mem bool :=
  c <- load a ;; ret (negb (is_nul c)).

(** Loops draw their bound from the total size of the memory: every loop of
    the library touches one in-bounds byte per iteration. *)
Definition mem_size (m : mem) : nat :=
  sum_list ((fun kv : positive * list byte => length kv.2) <$> map_to_list m).

#[export] Instance mem_fuel : FuelBound mem := fun m => S (mem_size m).

(** ** Lemmas on bytes and [char] values *)

Lemma byte_unsigned_range b : (0 <= byte_unsigned b <= 255)%Z.
Proof.
  unfold byte_unsigned. pose proof (Byte.to_N_bounded b). lia.
Qed.

Lemma byte_unsigned_inj a b : byte_unsigned a = byte_unsigned b -> a = b.
Proof.
  unfold byte_unsigned. intros H%N2Z.inj.
  pose proof (Byte.of_to_N a) as Ea. pose proof (Byte.of_to_N b) as Eb.
  rewrite H in Ea. congruence.
Qed.

Lemma byte_unsigned_nul b : byte_unsigned b = 0%Z <-> b = x00.
Proof.
  split; [|by intros ->].
  intros H. apply byte_unsigned_inj. by rewrite H.
Qed.

Lemma is_nul_spec b : is_nul b = true <-> b = x00.
Proof. unfold is_nul. by rewrite bool_decide_eq_true. Qed.

Lemma is_nul_false b : is_nul b = false <-> b <> x00.
Proof. unfold is_nul. by rewrite bool_decide_eq_false. Qed.

Section CharVal.
Context `{CharSign}.

Lemma char_val_inj a b : char_val a = char_val b -> a = b.
  Proof.
    unfold char_val, byte_signed. pose proof (byte_unsigned_range a).
    pose proof (byte_unsigned_range b). intros E. apply byte_unsigned_inj.
    destruct char_is_signed; [|done].
    destruct (Z.ltb_spec (byte_unsigned a) 128), (Z.ltb_spec (byte_unsigned b) 128); lia.
  Qed.

Lemma char_val_nul b : char_val b = 0%Z <-> b = x00.
  Proof.
    rewrite <- byte_unsigned_nul. unfold char_val, byte_signed.
    pose proof (byte_unsigned_range b).
    destruct char_is_signed; [|done].
    destruct (Z.ltb_spec (byte_unsigned b) 128); lia.
  Qed.

Lemma char_val_range b : (-128 <= char_val b <= 255)%Z.
  Proof.
    unfold char_val, byte_signed. pose proof (byte_unsigned_range b).
    destruct char_is_signed; [|lia].
    destruct (Z.ltb_spec (byte_unsigned b) 128); lia.
  Qed.

(** A [char] is between [CHAR_MIN] and [CHAR_MAX]. *)
Lemma char_val_width b :
    if char_is_signed then (-128 <= char_val b <= 127)%Z
    else (0 <= char_val b <= 255)%Z.
  Proof.
    unfold char_val, byte_signed. pose proof (byte_unsigned_range b).
    destruct char_is_signed; [|lia].
    destruct (Z.ltb_spec (byte_unsigned b) 128); lia.
  Qed.

(** The [int] difference of two [char]s never overflows. *)
Lemma char_diff_range a b : (-255 <= char_val a - char_val b <= 255)%Z.
  Proof.
    pose proof (char_val_width a). pose proof (char_val_width b).
    destruct char_is_signed; lia.
  Qed.
End CharVal.

(** ** Lemmas on addresses *)

Lemma addr_add_0 a : a .+ 0 = a.
Proof. destruct a. unfold addr_add. simpl. by rewrite Z.add_0_r. Qed.

Lemma addr_add_add a i j : a .+ i .+ j = a .+ (i + j).
Proof. unfold addr_add. simpl. by rewrite Z.add_assoc. Qed.

Lemma addr_add_inj a i j : a .+ i = a .+ j -> i = j.
Proof. unfold addr_add. intros [= E]. lia. Qed.

Lemma ptr_diff_add a i : ptr_diff (a .+ i) a = i.
Proof. unfold ptr_diff, addr_add. simpl. lia. Qed.

#[export] Hint Rewrite addr_add_0 addr_add_add ptr_diff_add : cs_rw.

(** ** Lemmas on loads and stores *)

Lemma mload_Some m a v :
  mload m a = Some v ->
  exists bs, m !! ablock a = Some bs /\ (0 <= aofs a)%Z /\
             bs !! Z.to_nat (aofs a) = Some v.
Proof.
  unfold mload. destruct (m !! ablock a) as [bs|]; [simpl|done].
  case_decide; [eauto|done].
Qed.

Lemma mload_in_bounds m a v :
  mload m a = Some v -> (0 <= aofs a < blen m (ablock a))%Z.
Proof.
  intros (bs & Hb & Ho & Hl)%mload_Some. unfold blen. rewrite Hb.
  apply lookup_lt_Some in Hl. lia.
Qed.

Lemma mstore_Some m a v m' :
  mstore m a v = Some m' ->
  exists bs, m !! ablock a = Some bs /\ (0 <= aofs a < Z.of_nat (length bs))%Z /\
             m' = <[ablock a := <[Z.to_nat (aofs a) := v]> bs]> m.
Proof.
  unfold mstore. destruct (m !! ablock a) as [bs|]; [simpl|done].
  case_decide; [|done]. intros [= <-]. eauto.
Qed.

(** A store succeeds exactly where a load does. *)
Lemma mstore_is_Some m a v :
  is_Some (mload m a) -> is_Some (mstore m a v).
Proof.
  intros [w (bs & Hb & Ho & Hl)%mload_Some]. unfold mstore. rewrite Hb. simpl.
  apply lookup_lt_Some in Hl. case_decide; [done|lia].
Qed.

Lemma mload_mstore m a v m' q :
  mstore m a v = Some m' ->
  mload m' q = if decide (q = a) then Some v else mload m q.
Proof.
  intros (bs & Hb & Ho & ->)%mstore_Some.
  destruct (decide (q = a)) as [->|Hq]; unfold mload.
  - rewrite lookup_insert_eq. simpl. case_decide; [|lia].
    apply list_lookup_insert_eq. lia.
  - destruct (decide (ablock a = ablock q)) as [Hbl|Hbl];
      [|by rewrite lookup_insert_ne].
    rewrite <- Hbl, lookup_insert_eq, Hb. simpl. case_decide; [|done].
    rewrite list_lookup_insert_ne; [done|].
    destruct q, a; simpl in *; subst. intros E. apply Hq. f_equal. lia.
Qed.

Lemma blen_mstore m a v m' b :
  mstore m a v = Some m' -> blen m' b = blen m b.
Proof.
  intros (bs & Hb & Ho & ->)%mstore_Some. unfold blen.
  destruct (decide (ablock a = b)) as [<-|Hbl]; [|by rewrite lookup_insert_ne].
  by rewrite lookup_insert_eq, Hb, length_insert.
Qed.

(** Every block is no longer than the whole memory: the loop bound. *)
Lemma blen_le_mem_size m b : (blen m b <= Z.of_nat (mem_size m))%Z.
Proof.
  unfold blen, mem_size. destruct (m !! b) as [bs|] eqn:Hb; [|lia].
  apply elem_of_map_to_list in Hb. apply inj_le.
  exact (sum_list_fmap_elem (fun kv : positive * list byte => length kv.2) _ _ Hb).
Qed.

Lemma mload_is_Some m a :
  is_Some (mload m a) <-> (0 <= aofs a < blen m (ablock a))%Z.
Proof.
  split; [intros [v Hv]; by eapply mload_in_bounds|].
  unfold mload, blen. destruct (m !! ablock a) as [bs|]; [simpl|lia].
  intros Ho. case_decide; [|lia]. apply lookup_lt_is_Some. lia.
Qed.

Lemma mstore_in_bounds m a v m' : mstore m a v = Some m' -> is_Some (mload m a).
Proof.
  intros (bs & Hb & Ho & _)%mstore_Some. apply mload_is_Some. unfold blen. by rewrite Hb.
Qed.

#[export] Hint Resolve mstore_in_bounds : cs.

Lemma mstore_None_out m a v :
  ~ (0 <= aofs a < blen m (ablock a))%Z -> mstore m a v = None.
Proof.
  intros Hout. destruct (mstore m a v) as [m'|] eqn:E; [|done].
  exfalso. apply Hout, mload_is_Some. by eapply mstore_in_bounds.
Qed.

Lemma addr_add_S a (k : nat) : a .+ 1 .+ Z.of_nat k = a .+ Z.of_nat (S k).
Proof. rewrite addr_add_add. f_equal. lia. Qed.

(** ** Reading and writing byte sequences *)

Lemma read_bytes_spec m a n bs :
  read_bytes m a n = Some bs <->
  length bs = n /\ forall k, k < n -> mload m (a .+ Z.of_nat k) = bs !! k.
Proof.
  revert a bs. induction n as [|n IH]; intros a bs; simpl.
  - split; [intros [= <-]; split; [done|lia]|].
    intros [Hl _]. destruct bs; [done|discriminate].
  - split.
    + destruct (mload m a) as [b|] eqn:Hb; simpl; [|done].
      destruct (read_bytes m (a .+ 1) n) as [bs'|] eqn:Hr; simpl; [|done].
      intros [= <-]. apply IH in Hr as [Hl Hk]. split; [simpl; lia|].
      intros [|k] ?; [by rewrite addr_add_0|].
      rewrite <- addr_add_S. apply Hk. lia.
    + intros [Hl Hk]. destruct bs as [|b bs']; [done|].
      assert (mload m a = Some b) as ->.
      { rewrite <- (addr_add_0 a). apply (Hk 0). lia. }
      simpl. assert (read_bytes m (a .+ 1) n = Some bs') as ->; [|done].
      apply IH. split; [simpl in Hl; lia|].
      intros k ?. rewrite addr_add_S. apply (Hk (S k)). lia.
Qed.

Lemma write_bytes_app m a l1 l2 :
  write_bytes m a (l1 ++ l2) =
  m1 ← write_bytes m a l1; write_bytes m1 (a .+ Z.of_nat (length l1)) l2.
Proof.
  revert m a. induction l1 as [|b l1 IH]; intros m a; simpl.
  - by rewrite addr_add_0.
  - destruct (mstore m a b) as [m1|]; simpl; [|done].
    rewrite IH. destruct (write_bytes m1 (a .+ 1) l1); simpl; [|done].
    by rewrite addr_add_S.
Qed.

Lemma blen_write_bytes m a bs m' b :
  write_bytes m a bs = Some m' -> blen m' b = blen m b.
Proof.
  revert m a. induction bs as [|v bs IH]; intros m a; simpl; [by intros [= ->]|].
  destruct (mstore m a v) as [m1|] eqn:Hs; simpl; [|done].
  intros Hw. rewrite (IH _ _ Hw). by eapply blen_mstore.
Qed.

(** Writes leave every byte outside the written range unchanged. *)
Lemma mload_write_bytes_out m a bs m' q :
  write_bytes m a bs = Some m' ->
  (ablock q <> ablock a \/ (aofs q < aofs a)%Z \/
   (aofs a + Z.of_nat (length bs) <= aofs q)%Z) ->
  mload m' q = mload m q.
Proof.
  revert m a. induction bs as [|v bs IH]; intros m a; simpl; [by intros [= ->]|].
  destruct (mstore m a v) as [m1|] eqn:Hs; simpl; [|done].
  intros Hw Hq. rewrite (IH _ _ Hw); [|simpl; lia].
  rewrite (mload_mstore _ _ _ _ _ Hs). case_decide; [subst q; lia|done].
Qed.

(** After the write, the range holds the written bytes. *)
Lemma mload_write_bytes_in m a bs m' (k : nat) :
  write_bytes m a bs = Some m' -> k < length bs ->
  mload m' (a .+ Z.of_nat k) = bs !! k.
Proof.
  revert m a k. induction bs as [|v bs IH]; intros m a k; simpl; [lia|].
  destruct (mstore m a v) as [m1|] eqn:Hs; simpl; [|done].
  intros Hw Hk. destruct k as [|k].
  - rewrite (mload_write_bytes_out _ _ _ _ _ Hw); [|simpl; lia].
    rewrite (mload_mstore _ _ _ _ _ Hs), addr_add_0. by case_decide.
  - rewrite <- addr_add_S. apply (IH _ _ _ Hw). lia.
Qed.

(** Storing the byte that is already there changes nothing. *)
Lemma mstore_same m a v : mload m a = Some v -> mstore m a v = Some m.
Proof.
  intros (bs & Hb & Ho & Hl)%mload_Some. unfold mstore. rewrite Hb. simpl.
  pose proof (lookup_lt_Some _ _ _ Hl). case_decide; [|lia].
  by rewrite list_insert_id, insert_id.
Qed.

(** Writing the bytes that are already there changes nothing. *)
Lemma write_bytes_same m a bs : read_bytes m a (length bs) = Some bs -> write_bytes m a bs = Some m.
Proof.
  revert a. induction bs as [|b bs IH]; intros a; [done|]. simpl.
  destruct (mload m a) eqn:E; [simpl|done].
  destruct (read_bytes m (a .+ 1) (length bs)) eqn:E2; [simpl|done].
  intros [= -> ->]. rewrite (mstore_same _ _ _ E). simpl. by apply IH.
Qed.

(** A write succeeds exactly when every written byte is in bounds. *)
Lemma write_bytes_is_Some m a bs :
  is_Some (write_bytes m a bs) <->
  forall k, k < length bs -> is_Some (mload m (a .+ Z.of_nat k)).
Proof.
  revert m a. induction bs as [|v bs IH]; intros m a; simpl; [split; [lia|done]|].
  split.
  - destruct (mstore m a v) as [m1|] eqn:Hs; simpl; [|by intros []].
    intros Hw [|k] Hk.
    + rewrite addr_add_0. apply mload_is_Some.
      destruct (mstore_Some _ _ _ _ Hs) as (bs' & Hb & Ho & _).
      unfold blen. rewrite Hb. lia.
    + apply IH with (k := k) in Hw; [|lia]. rewrite <- addr_add_S.
      apply mload_is_Some in Hw. apply mload_is_Some.
      by rewrite <- (blen_mstore _ _ _ _ _ Hs).
  - intros Hk. destruct (mstore_is_Some m a v) as [m1 Hs].
    { rewrite <- (addr_add_0 a). apply (Hk 0). lia. }
    rewrite Hs. simpl. apply IH. intros k ?. rewrite addr_add_S.
    apply mload_is_Some. rewrite (blen_mstore _ _ _ _ _ Hs).
    apply mload_is_Some, Hk. lia.
Qed.

(** ** Null-terminated strings in memory *)

Section CString.
Context (m : mem) (a : addr) (s : list byte).

Lemma cstring_spec :
    cstring m a s <->
    (x00 ∉ s) /\ (forall k, k <= length s ->
                 mload m (a .+ Z.of_nat k) = (s ++ [x00]) !! k).
  Proof.
    unfold cstring. rewrite read_bytes_spec. split.
    - intros [[_ Hk] Hs]. split; [done|]. intros k ?. apply Hk. lia.
    - intros [Hs Hk]. split; [|done]. split; [rewrite length_app; simpl; lia|].
      intros k ?. apply Hk. lia.
  Qed.

Lemma cstring_load_lt k c :
    cstring m a s -> s !! k = Some c ->
    mload m (a .+ Z.of_nat k) = Some c /\ c <> x00.
  Proof.
    intros [Hs Hk]%cstring_spec Hc. pose proof (lookup_lt_Some _ _ _ Hc).
    rewrite Hk, lookup_app_l by lia. split; [done|].
    intros ->. apply Hs. by eapply list_elem_of_lookup_2.
  Qed.

Lemma cstring_load_end :
    cstring m a s -> mload m (a .+ Z.of_nat (length s)) = Some x00.
  Proof.
    intros [Hs Hk]%cstring_spec. rewrite Hk by lia.
    by rewrite lookup_app_r, Nat.sub_diag by lia.
  Qed.

Lemma cstring_bounds :
    cstring m a s ->
    (0 <= aofs a)%Z /\ (aofs a + Z.of_nat (length s) < blen m (ablock a))%Z.
  Proof.
    intros [Hs Hk]%cstring_spec.
    assert (forall k, k <= length s -> is_Some (mload m (a .+ Z.of_nat k))) as Hin.
    { intros k ?. rewrite Hk by lia. apply lookup_lt_is_Some.
      rewrite length_app. simpl. lia. }
    pose proof (Hin 0 ltac:(lia)) as H0%mload_is_Some.
    pose proof (Hin (length s) ltac:(lia)) as H1%mload_is_Some.
    simpl in *. lia.
  Qed.
End CString.

(** Conversely, [n] non-null bytes followed by a null byte are a string of
    length [n]: what a scan for the terminator has found. *)
Lemma nonnul_prefix m a n :
    (forall k, k < n -> exists c, mload m (a .+ Z.of_nat k) = Some c /\ c <> x00) ->
    exists s, length s = n /\ (x00 ∉ s) /\
              forall k, k < n -> mload m (a .+ Z.of_nat k) = s !! k.
  Proof.
    induction n as [|n IH]; intros Hk.
    - exists []. split_and!; [done|set_solver|lia].
    - destruct IH as (s & Hl & Hs & Hsk); [intros; apply Hk; lia|].
      destruct (Hk n) as (c & Hc & Hc0); [lia|].
      exists (s ++ [c]). rewrite length_app. simpl. split_and!; [lia| |].
      + rewrite elem_of_app, list_elem_of_singleton. by intros [|<-].
      + intros k ?. destruct (decide (k = n)) as [->|].
        * rewrite lookup_app_r, Hl, Nat.sub_diag by lia. done.
        * rewrite lookup_app_l by lia. apply Hsk. lia.
  Qed.

Lemma cstring_of_scan m a n :
    (forall k, k < n -> exists c, mload m (a .+ Z.of_nat k) = Some c /\ c <> x00) ->
    mload m (a .+ Z.of_nat n) = Some x00 -> exists s, cstring m a s /\ length s = n.
  Proof.
    intros Hk Hn. destruct (nonnul_prefix m a n Hk) as (s & Hl & Hs & Hsk).
    exists s. split; [|done]. apply cstring_spec. split; [done|]. intros k ?.
    destruct (decide (k = n)) as [->|].
    - rewrite lookup_app_r, Hl, Nat.sub_diag by lia. done.
    - rewrite lookup_app_l by lia. apply Hsk. lia.
  Qed.

(** A pointer designates at most one string. *)
Lemma cstring_unique m a s t : cstring m a s -> cstring m a t -> s = t.
Proof.
  intros Hs Ht.
  assert (forall s t, cstring m a s -> cstring m a t -> ~ length s < length t) as Hlt.
  { intros s' t' Hs' Ht' Hl. destruct (lookup_lt_is_Some_2 t' (length s')) as [c Hc]; [done|].
    destruct (cstring_load_lt _ _ _ _ _ Ht' Hc) as [Hc' Hnz].
    rewrite (cstring_load_end _ _ _ Hs') in Hc'. congruence. }
  assert (length s = length t) as Hl.
  { pose proof (Hlt _ _ Hs Ht). pose proof (Hlt _ _ Ht Hs). lia. }
  destruct Hs as [Hs _], Ht as [Ht _]. rewrite Hl, Ht in Hs.
  injection Hs as Hs. by apply app_inj_tail in Hs as [-> _].
Qed.

(** Writing a string and its terminator makes a string. *)
Lemma cstring_write_bytes m d s m' :
  write_bytes m d (s ++ [x00]) = Some m' -> x00 ∉ s -> cstring m' d s.
Proof.
  intros Hw Hs. apply cstring_spec. split; [done|]. intros k Hk.
  apply (mload_write_bytes_in _ _ _ _ _ Hw). rewrite length_app. simpl. lia.
Qed.

(** Writes outside a string keep it (the frame property). *)
Lemma cstring_frame m a s d bs m' :
  cstring m a s -> write_bytes m d bs = Some m' ->
  disjoint d (Z.of_nat (length bs)) a (Z.of_nat (length s + 1)) ->
  cstring m' a s.
Proof.
  intros [Hs Hk]%cstring_spec Hw Hd. apply cstring_spec. split; [done|].
  intros k ?. rewrite (mload_write_bytes_out _ _ _ _ _ Hw); [by apply Hk|].
  unfold disjoint in Hd. simpl. lia.
Qed.

(** A store into another object keeps a string. *)
Lemma cstring_mstore_other m a s q v m' :
  cstring m a s -> mstore m q v = Some m' -> ablock q <> ablock a -> cstring m' a s.
Proof.
  intros [Hs Hk]%cstring_spec Hst Hb. apply cstring_spec. split; [done|].
  intros k ?. rewrite (mload_mstore _ _ _ _ _ Hst). case_decide; [|by apply Hk].
  subst q. by destruct a.
Qed.

(** Writing a terminated string over the terminator of [ds] extends [ds]:
    its bytes are kept and the new terminator ends the concatenation. *)
Lemma cstring_append m d ds s m' :
  cstring m d ds -> write_bytes m (d .+ Z.of_nat (length ds)) (s ++ [x00]) = Some m' ->
  x00 ∉ s -> cstring m' d (ds ++ s).
Proof.
  intros [Hds Hk]%cstring_spec Hw Hs. apply cstring_spec.
  split; [rewrite elem_of_app; tauto|]. intros k Hk'. rewrite length_app in Hk'.
  rewrite <- app_assoc. destruct (decide (k < length ds)).
  - rewrite (mload_write_bytes_out _ _ _ _ _ Hw); [|simpl; lia].
    rewrite Hk, !lookup_app_l by (rewrite ?length_app; simpl; lia). done.
  - replace (d .+ Z.of_nat k)
      with (d .+ Z.of_nat (length ds) .+ Z.of_nat (k - length ds))
      by (rewrite addr_add_add; f_equal; lia).
    rewrite (mload_write_bytes_in _ _ _ _ _ Hw) by (rewrite length_app; simpl; lia).
    by rewrite (lookup_app_r ds) by lia.
Qed.

(** ** Accesses in the monad *)

Lemma load_Ok m a c : mload m a = Some c -> load a m = Ok (c, m).
Proof. intros H. unfold load. by rewrite H. Qed.

Lemma load_Fault m a : mload m a = None -> load a m = Fault OutOfBounds.
Proof. intros H. unfold load. by rewrite H. Qed.

Lemma store_Ok m a v m' : mstore m a v = Some m' -> store a v m = Ok (tt, m').
Proof. intros H. unfold store. by rewrite H. Qed.

Lemma store_Fault m a v : mstore m a v = None -> store a v m = Fault OutOfBounds.
Proof. intros H. unfold store. by rewrite H. Qed.

Lemma nonnul_at_Ok m a c :
  mload m a = Some c -> nonnul_at a m = Ok (negb (is_nul c), m).
Proof. intros H. unfold nonnul_at, bind. by rewrite (load_Ok _ _ _ H). Qed.

Lemma nonnul_at_true m a c :
  mload m a = Some c -> c <> x00 -> nonnul_at a m = Ok (true, m).
Proof. intros H Hc%is_nul_false. by rewrite (nonnul_at_Ok _ _ _ H), Hc. Qed.

Section CStringAccess.
Context (m : mem) (a : addr) (s : list byte) (Hs : cstring m a s).

Lemma cstring_nonnul_lt k :
    k < length s -> nonnul_at (a .+ Z.of_nat k) m = Ok (true, m).
  Proof.
    intros Hk. destruct (lookup_lt_is_Some_2 s k Hk) as [c Hc].
    destruct (cstring_load_lt _ _ _ _ _ Hs Hc) as [Hl Hnz].
    rewrite (nonnul_at_Ok _ _ _ Hl). by rewrite (proj2 (is_nul_false c) Hnz).
  Qed.

Lemma cstring_nonnul_end :
    nonnul_at (a .+ Z.of_nat (length s)) m = Ok (false, m).
  Proof. by rewrite (nonnul_at_Ok _ _ _ (cstring_load_end _ _ _ Hs)). Qed.

(** A string is shorter than the loop bound of the memory it lives in. *)
Lemma cstring_fuel : length s < fuel_of m.
  Proof.
    destruct (cstring_bounds _ _ _ Hs).
    pose proof (blen_le_mem_size m (ablock a)). unfold fuel_of, mem_fuel. lia.
  Qed.
End CStringAccess.

(** ** The memory after the first [k] bytes of a write *)

Definition written (m : mem) (d : addr) (bs : list byte) (k : nat) : mem :=
  default m (write_bytes m d (take k bs)).

Section Written.
Context (m : mem) (d : addr) (bs : list byte) (m' : mem).
Hypothesis Hw : write_bytes m d bs = Some m'.

Lemma write_bytes_take k : write_bytes m d (take k bs) = Some (written m d bs k).
  Proof.
    unfold written. rewrite <- (take_drop k bs), write_bytes_app in Hw.
    destruct (write_bytes m d (take k bs)); [done|discriminate].
  Qed.

Lemma written_0 : written m d bs 0 = m.
  Proof. done. Qed.

Lemma written_full : written m d bs (length bs) = m'.
  Proof.
    pose proof (write_bytes_take (length bs)) as E.
    rewrite take_ge in E by lia. congruence.
  Qed.

Lemma written_step k c :
    bs !! k = Some c ->
    mstore (written m d bs k) (d .+ Z.of_nat k) c = Some (written m d bs (S k)).
  Proof.
    intros Hc. pose proof (write_bytes_take (S k)) as E.
    rewrite (take_S_r _ _ _ Hc), write_bytes_app, write_bytes_take in E.
    simpl in E. rewrite length_take_le in E by (apply lookup_lt_Some in Hc; lia).
    by destruct (mstore _ _ _).
  Qed.

(** What is left to write after the first [k] bytes. *)
Lemma written_rest k :
    k <= length bs ->
    write_bytes (written m d bs k) (d .+ Z.of_nat k) (drop k bs) = Some m'.
  Proof.
    intros Hk. pose proof Hw as E.
    rewrite <- (take_drop k bs), write_bytes_app, write_bytes_take in E.
    simpl in E. by rewrite length_take_le in E by lia.
  Qed.

Lemma mload_written_out k q :
    (ablock q <> ablock d \/ (aofs q < aofs d)%Z \/
     (aofs d + Z.of_nat (length bs) <= aofs q)%Z) ->
    mload (written m d bs k) q = mload m q.
  Proof.
    intros Hq. apply (mload_write_bytes_out _ _ _ _ _ (write_bytes_take k)).
    pose proof (length_take_le bs k). rewrite length_take. lia.
  Qed.

(** A string away from the written range survives every prefix write. *)
Lemma cstring_written k a s :
    cstring m a s -> disjoint d (Z.of_nat (length bs)) a (Z.of_nat (length s + 1)) ->
    cstring (written m d bs k) a s.
  Proof.
    intros Hs Hd. eapply (cstring_frame _ _ _ _ _ _ Hs (write_bytes_take k)).
    rewrite length_take. unfold disjoint in *. lia.
  Qed.
End Written.

(** A write is shorter than the loop bound of the memory it changes. *)
Lemma write_bytes_fuel m d bs m' :
  write_bytes m d bs = Some m' -> length bs < fuel_of m.
Proof.
  intros Hw. unfold fuel_of, mem_fuel.
  destruct (length bs) as [|n] eqn:Hl; [lia|].
  assert (is_Some (write_bytes m d bs)) as Hs by eauto.
  rewrite write_bytes_is_Some in Hs.
  pose proof (Hs 0 ltac:(lia)) as H0%mload_is_Some.
  pose proof (Hs n ltac:(lia)) as H1%mload_is_Some.
  pose proof (blen_le_mem_size m (ablock d)). simpl in *. lia.
Qed.

(** The [size_t] subtraction [a - b], wrapping modulo [2^64]. *)
Definition size_sub (a b : Z) : Z := ((a - b) mod 2 ^ 64)%Z.

(** The bytes of a string, terminator included, as loads. *)
Lemma cstring_load_le m a s k :
  cstring m a s -> k <= length s ->
  mload m (a .+ Z.of_nat k) = Some (nth k (s ++ [x00]) x00).
Proof.
  intros [_ Hk]%cstring_spec ?. rewrite Hk by done.
  destruct (nth_lookup_or_length (s ++ [x00]) k x00) as [E|E]; [done|].
  rewrite length_app in E. simpl in E. lia.
Qed.

Lemma size_sub_small a b : (0 <= b <= a)%Z -> (a < 2 ^ 64)%Z -> size_sub a b = (a - b)%Z.
Proof. intros. unfold size_sub. apply Z.mod_small. lia. Qed.

Lemma size_sub_le a b : (0 <= b <= a)%Z -> (0 <= size_sub a b <= a - b)%Z.
Proof.
  intros. unfold size_sub. pose proof (Z.mod_le (a - b) (2 ^ 64)).
  pose proof (Z.mod_pos_bound (a - b) (2 ^ 64)). lia.
Qed.

(** ** Array initialisers and witness tactics *)

(** The bytes of [char a[n] = "lit";]: the literal, then zeros up to [n]. *)
Definition c_array (n : nat) (lit : String.string) : list byte :=
  let bs := String.list_byte_of_string lit in bs ++ replicate (n - length bs) x00.

(** [char a[] = "lit";]: the literal and its terminator. *)
Definition c_literal (lit : String.string) : list byte :=
  c_array (String.length lit + 1) lit.

(** Decide [cstring] and [disjoint] on concrete memories. *)
Ltac solve_cstring :=
  split; [vm_compute; reflexivity | apply (bool_decide_unpack _); vm_compute; exact I].
Ltac solve_disjoint :=
  unfold disjoint; simpl; first [left; discriminate | right; lia].

(** A suffix of a string is a string. *)
Lemma cstring_drop m a s k :
  cstring m a s -> k <= length s -> cstring m (a .+ Z.of_nat k) (drop k s).
Proof.
  intros [Hs Hk]%cstring_spec Hkl. apply cstring_spec. split.
  - intros Hin. apply Hs. rewrite <- (take_drop k s). apply elem_of_app. by right.
  - intros j Hj. rewrite length_drop in Hj.
    rewrite addr_add_add, <- Nat2Z.inj_add, Hk by lia.
    by rewrite <- drop_app_le, lookup_drop by lia.
Qed.
