(* ===== verification/Hoare.v ===== *)
(** * Hoare: triples for the computations of the model

    A partial-correctness triple [{{ P }} m {{ Q }}] on the state-and-fault
    monad: from a state satisfying [P], if [m] returns [x] in state [σ'],
    then [Q x σ'].  Faults are not constrained here; [Faults] treats them.
    The rules follow the shape of Hoare logic (sequence, conditional,
    loop with an invariant, consequence), with rules for the memory
    accesses; [Invariants] proves with them what a scan of [ms_length] has
    found. *)

From stdpp Require Import base list gmap.
From Stdlib Require Import ZArith Lia Strings.Byte.
From S2P Require Import Prelude Memory.

Open Scope cs_scope.

Definition hoare {Σ A} (P : Σ -> Prop) (m : M Σ A) (Q : A -> Σ -> Prop) : Prop :=
  forall σ x σ', P σ -> m σ = Ok (x, σ') -> Q x σ'.

Notation "{{ P }} m {{ Q }}" := (hoare P m Q)
  (at level 70, m at next level, format "{{  P  }}  m  {{  Q  }}") : cs_scope.

(** ** The rules *)

Section HoareRules.
Context {Σ : Type}.

Lemma hoare_ret {A} (P : Σ -> Prop) (Q : A -> Σ -> Prop) x :
    (forall σ, P σ -> Q x σ) -> {{ P }} ret x {{ Q }}.
  Proof. intros H σ y σ' HP [= <- <-]. auto. Qed.

Lemma hoare_fail {A} (P : Σ -> Prop) (Q : A -> Σ -> Prop) e : {{ P }} fail e {{ Q }}.
  Proof. by intros σ y σ' _ ?. Qed.

Lemma hoare_bind {A B} P (R : A -> Σ -> Prop) (Q : B -> Σ -> Prop) m (k : A -> M Σ B) :
    {{ P }} m {{ R }} -> (forall x, {{ R x }} k x {{ Q }}) -> {{ P }} bind m k {{ Q }}.
  Proof.
    intros Hm Hk σ y σ' HP. unfold bind. destruct (m σ) as [[x σ1]|] eqn:E; [|done].
    apply (Hk x σ1 y σ'). by apply (Hm σ x σ1).
  Qed.

Lemma hoare_consequence {A} (P P' : Σ -> Prop) (Q Q' : A -> Σ -> Prop) m :
    {{ P }} m {{ Q }} -> (forall σ, P' σ -> P σ) -> (forall x σ, Q x σ -> Q' x σ) ->
    {{ P' }} m {{ Q' }}.
  Proof. intros H HP HQ σ x σ' ? ?. eauto. Qed.

Lemma hoare_if {A} P (Q : A -> Σ -> Prop) (b : bool) m1 m2 :
    (b = true -> {{ P }} m1 {{ Q }}) -> (b = false -> {{ P }} m2 {{ Q }}) ->
    {{ P }} if b then m1 else m2 {{ Q }}.
  Proof. destruct b; auto. Qed.

(** A loop with an invariant [I] on its state: every round started in [I]
    continues in [I] or leaves with [Q]. *)
Lemma hoare_loop `{FuelBound Σ} {St R} (I : St -> Σ -> Prop) (Q : R -> Σ -> Prop)
    (body : St -> M Σ (St + R)) :
    (forall s, {{ I s }} body s {{ fun r σ => match r with inl s' => I s' σ | inr x => Q x σ end }}) ->
    forall s, {{ I s }} loop body s {{ Q }}.
  Proof.
    intros Hb s σ x σ' HI. unfold loop. generalize (fuel_of σ) as f.
    intros f. revert s σ HI. induction f as [|f IH]; intros s σ HI; [done|].
    cbn [loop_fuel]. unfold bind at 1.
    destruct (body s σ) as [[[s1|r] σ1]|] eqn:E; [|unfold ret; intros [= <- <-]|done].
    - apply IH. exact (Hb s σ _ _ HI E).
    - exact (Hb s σ _ _ HI E).
  Qed.

(** [while (cond) body]: the condition leads from [I] to [J] (continue) or
    to [Q] (leave); the body leads from [J] back to [I]. *)
Lemma hoare_while `{FuelBound Σ} {St} (I J Q : St -> Σ -> Prop) cond (body : St -> M Σ St) :
    (forall s, {{ I s }} cond s {{ fun (b : bool) σ => if b then J s σ else Q s σ }}) ->
    (forall s, {{ J s }} body s {{ I }}) ->
    forall s, {{ I s }} while cond body s {{ Q }}.
  Proof.
    intros Hc Hb. apply hoare_loop. intros s. unfold while_step.
    apply (hoare_bind _ (fun (b : bool) σ => if b then J s σ else Q s σ)); [apply Hc|].
    intros [|].
    - apply (hoare_bind _ I); [apply Hb|]. intros s'. by apply hoare_ret.
    - by apply hoare_ret.
  Qed.

(** [while (cond) body] where [body] may [return v]. *)
Lemma hoare_while_ret `{FuelBound Σ} {St R} (I J : St -> Σ -> Prop) (Q : St + R -> Σ -> Prop)
    cond (body : St -> M Σ (St + R)) :
    (forall s, {{ I s }} cond s {{ fun (b : bool) σ => if b then J s σ else Q (inl s) σ }}) ->
    (forall s, {{ J s }} body s
               {{ fun r σ => match r with inl s' => I s' σ | inr v => Q (inr v) σ end }}) ->
    forall s, {{ I s }} while_ret cond body s {{ Q }}.
  Proof.
    intros Hc Hb. apply hoare_loop. intros s. unfold while_ret_step.
    apply (hoare_bind _ (fun (b : bool) σ => if b then J s σ else Q (inl s) σ)); [apply Hc|].
    intros [|].
    - eapply hoare_bind; [apply Hb|]. intros [s'|v]; by apply hoare_ret.
    - by apply hoare_ret.
  Qed.

Lemma hoare_andM P (Q : bool -> Σ -> Prop) R (m1 m2 : M Σ bool) :
    {{ P }} m1 {{ fun b σ => if b then R σ else Q false σ }} -> {{ R }} m2 {{ Q }} ->
    {{ P }} m1 &&& m2 {{ Q }}.
  Proof.
    intros H1 H2. unfold andM. eapply hoare_bind; [exact H1|].
    intros [|]; [done|]. by apply hoare_ret.
  Qed.
End HoareRules.

Section MemoryRules.

Lemma hoare_assert_Some {A} P (Q : A -> mem -> Prop) a (k : addr -> M mem A) :
    {{ P }} k a {{ Q }} -> {{ P }} bind (assert_nonnull (Some a)) k {{ Q }}.
  Proof. intros H σ x σ' HP. rewrite assert_nonnull_Some. by apply H. Qed.

Lemma hoare_load P a : {{ P }} load a {{ fun c σ => P σ /\ mload σ a = Some c }}.
  Proof. intros σ x σ' HP. unfold load. by destruct (mload σ a) eqn:E; [intros [= <- <-]|]. Qed.

Lemma hoare_nonnul_at P a :
    {{ P }} nonnul_at a {{ fun b σ => P σ /\ exists c, mload σ a = Some c /\ is_nul c = negb b }}.
  Proof.
    unfold nonnul_at. eapply hoare_bind; [apply hoare_load|].
    intros c. apply hoare_ret. intros σ [? ->]. split; [done|]. exists c. by destruct is_nul.
  Qed.

End MemoryRules.

