(* ===== verification/CSpec.v ===== *)
(** * CSpec: the contract of the eight primitives on string contents

    The functions of [mystring.h] shadow [strlen], [strcpy], [strncpy],
    [strcat], [strncat], [strcmp], [strncmp] and [strstr].  This file states
    what each one promises, on the contents of the strings (the bytes before
    the terminator) and, for the writing functions, as the bytes written into
    the destination.  These are the abstract specifications the models of
    [src/mystring_ars.c] and [src/mystring_ptrs.c] are proved to refine. *)

From stdpp Require Import base list sets.
From Stdlib Require Import ZArith Lia Strings.Byte.
From S2P Require Import Prelude Memory.

Open Scope cs_scope.

Section Contract.
Context `{CharSign}.

(** [strcmp]: the difference of the first pair of differing [char]s of
    [s1] and [s2] with their terminators, 0 if there is none. *)
Fixpoint strcmp_spec (s1 s2 : list byte) : Z :=
    match s1, s2 with
    | c1 :: t1, c2 :: t2 =>
        if decide (c1 = c2) then strcmp_spec t1 t2
        else (char_val c1 - char_val c2)%Z
    | [], [] => 0%Z
    | [], c2 :: _ => (char_val x00 - char_val c2)%Z
    | c1 :: _, [] => (char_val c1 - char_val x00)%Z
    end.

(** [strncmp]: the same, looking at the first [n] positions only. *)
Fixpoint strncmp_spec (n : nat) (s1 s2 : list byte) : Z :=
    match n with
    | O => 0%Z
    | S n =>
        match s1, s2 with
        | c1 :: t1, c2 :: t2 =>
            if decide (c1 = c2) then strncmp_spec n t1 t2
            else (char_val c1 - char_val c2)%Z
        | [], [] => 0%Z
        | [], c2 :: _ => (char_val x00 - char_val c2)%Z
        | c1 :: _, [] => (char_val c1 - char_val x00)%Z
        end
    end.
End Contract.

(** ISO C 7.24.4: [strcmp] compares the bytes as [unsigned char] whatever
    the signedness of plain [char]; the spec's code units are 0..255. *)
Definition strcmp_iso (s1 s2 : list byte) : Z := @strcmp_spec false s1 s2.

(** [strstr]: the lowest position of [h] where [nd] starts, if any. *)
Fixpoint strstr_spec (h nd : list byte) : option nat :=
  if decide (nd `prefix_of` h) then Some 0
  else match h with
       | [] => None
       | _ :: h' => S <$> strstr_spec h' nd
       end.

(** [strcpy (d, s)]: the bytes of [s] and a terminator at [d]. *)
Definition strcpy_spec (m : mem) (d : addr) (s : list byte) : option mem :=
  write_bytes m d (s ++ [x00]).

(** [strncpy (d, s, n)]: [n] bytes, the first [n] of [s] padded with nulls. *)
Definition strncpy_spec (m : mem) (d : addr) (s : list byte) (n : nat) : option mem :=
  write_bytes m d (take n s ++ replicate (n - length s) x00).

(** [strcat (d, s)] where [d] holds [ds]: [s] and a terminator after [ds]. *)
Definition strcat_spec (m : mem) (d : addr) (ds s : list byte) : option mem :=
  write_bytes m (d .+ Z.of_nat (length ds)) (s ++ [x00]).

(** [strncat (d, s, n)]: at most [n] bytes of [s], always terminated. *)
Definition strncat_spec (m : mem) (d : addr) (ds s : list byte) (n : nat) : option mem :=
  write_bytes m (d .+ Z.of_nat (length ds)) (take n s ++ [x00]).

(** ** Properties of the contract *)

Section ContractLemmas.
Context `{CharSign}.

Lemma strcmp_spec_refl s : strcmp_spec s s = 0%Z.
  Proof. induction s as [|c s IH]; simpl; [done|]. by rewrite decide_True. Qed.

Lemma strcmp_spec_antisym s t : strcmp_spec s t = (- strcmp_spec t s)%Z.
  Proof.
    revert t. induction s as [|c s IH]; intros [|d t]; simpl; try lia.
    case_decide; subst; [rewrite decide_True; auto|].
    rewrite decide_False by done. lia.
  Qed.

(** On null-free contents, [strcmp] is 0 exactly on equal strings. *)
Lemma strcmp_spec_eq_0 s t :
    x00 ∉ s -> x00 ∉ t -> strcmp_spec s t = 0%Z <-> s = t.
  Proof.
    split; [|intros ->; apply strcmp_spec_refl].
    revert t H0 H1. induction s as [|c s IH]; intros [|d t] Hs Ht; simpl.
    - done.
    - intros E%Z.sub_move_0_r%char_val_inj. set_solver.
    - intros E%Z.sub_move_0_r%char_val_inj. set_solver.
    - case_decide; [subst; intros; f_equal; apply IH; set_solver|].
      by intros E%Z.sub_move_0_r%char_val_inj.
  Qed.

(** [strncmp n] is [strcmp] of the [n]-prefixes. *)
Lemma strncmp_spec_take n s t :
    strncmp_spec n s t = strcmp_spec (take n s) (take n t).
  Proof.
    revert s t. induction n as [|n IH]; intros [|c s] [|d t]; simpl; try done.
    by case_decide.
  Qed.

(** With a bound beyond the shorter string, [strncmp] is [strcmp]. *)
Lemma strncmp_spec_strcmp n s t :
    min (length s) (length t) < n -> strncmp_spec n s t = strcmp_spec s t.
  Proof.
    revert s t. induction n as [|n IH]; intros [|c s] [|d t]; simpl; try lia; try done.
    intros Hn. case_decide; [apply IH; lia|done].
  Qed.

(** The result of [strcmp] fits in [int]: the difference of two [char]s. *)
Lemma strcmp_spec_range s t : (-255 <= strcmp_spec s t <= 255)%Z.
  Proof.
    revert t. induction s as [|c s IH]; intros [|d t]; simpl;
      try case_decide; auto using char_diff_range with lia.
  Qed.
End ContractLemmas.

Lemma strstr_spec_Some h nd i :
  strstr_spec h nd = Some i ->
  nd `prefix_of` drop i h /\ forall j, j < i -> ~ nd `prefix_of` drop j h.
Proof.
  revert i. induction h as [|c h IH]; intros i; simpl.
  - case_decide; [intros [= <-]; split; [done|lia]|done].
  - case_decide as Hp; [intros [= <-]; split; [done|lia]|].
    destruct (strstr_spec h nd) as [k|] eqn:Hk; simpl; [|done].
    intros [= <-]. destruct (IH k eq_refl) as [Hpre Hmin]. split; [done|].
    intros [|j] Hj; [done|]. apply Hmin. lia.
Qed.

Lemma strstr_spec_None h nd :
  strstr_spec h nd = None <-> forall j, j <= length h -> ~ nd `prefix_of` drop j h.
Proof.
  induction h as [|c h IH]; simpl; case_decide as Hp.
  - split; [done|]. intros Hn. exfalso. by apply (Hn 0).
  - split; [|done]. intros _ [|j] ?; [done|]. lia.
  - split; [done|]. intros Hn. exfalso. apply (Hn 0); [lia|done].
  - destruct (strstr_spec h nd) eqn:Hk; simpl.
    + split; [done|]. intros Hn.
      assert (Some n = None) as E; [|done].
      apply IH. intros j ?. apply (Hn (S j)). simpl. lia.
    + split; [|done]. intros _ [|j] ?; [done|]. apply IH; [done|simpl in *; lia].
Qed.

(** ** Where a comparison stops *)

(** The length of the longest common prefix: the index at which the
    comparison loops of [ms_compare] and [ms_ncompare] stop. *)
Fixpoint cpl (s t : list byte) : nat :=
  match s, t with
  | c :: s', d :: t' => if decide (c = d) then S (cpl s' t') else 0
  | _, _ => 0
  end.

Lemma cpl_le s t : cpl s t <= min (length s) (length t).
Proof.
  revert t. induction s as [|c s IH]; intros [|d t]; simpl; try lia.
  case_decide; [specialize (IH t)|]; lia.
Qed.

Lemma cpl_lookup s t k : k < cpl s t -> s !! k = t !! k.
Proof.
  revert t k. induction s as [|c s IH]; intros [|d t] k; simpl; try lia.
  case_decide; [subst|lia]. destruct k; simpl; [done|]. intros. apply IH. lia.
Qed.

Lemma cpl_diff s t :
  cpl s t < length s -> cpl s t < length t -> s !! cpl s t <> t !! cpl s t.
Proof.
  revert t. induction s as [|c s IH]; intros [|d t]; simpl; try lia.
  case_decide; simpl; [intros; apply IH; lia|congruence].
Qed.

Section CplSpec.
Context `{CharSign}.

(** [strcmp] is the difference of the [char]s where the common prefix of
    the two terminated strings ends. *)
Lemma strcmp_spec_cpl s t :
    strcmp_spec s t =
    (char_val (nth (cpl s t) (s ++ [x00]) x00) -
     char_val (nth (cpl s t) (t ++ [x00]) x00))%Z.
  Proof.
    revert t. induction s as [|c s IH]; intros [|d t]; simpl; try lia.
    case_decide; simpl; [apply IH|done].
  Qed.

(** [strncmp] is 0 when the bound is inside the common prefix and
    [strcmp] otherwise. *)
Lemma strncmp_spec_cpl n s t :
    strncmp_spec n s t = if decide (n <= cpl s t) then 0%Z else strcmp_spec s t.
  Proof.
    revert s t. induction n as [|n IH]; intros [|c s] [|d t]; simpl; try done.
    rewrite IH. repeat case_decide; done || lia.
  Qed.
End CplSpec.

(** ** Where a search stops *)

Lemma cpl_prefix s t : t `prefix_of` s <-> cpl s t = length t.
Proof.
  revert t. induction s as [|c s IH]; intros [|d t]; simpl.
  - split; [done|intros; apply prefix_nil].
  - split; [intros Hp; by apply prefix_nil_not in Hp|lia].
  - split; [done|intros; apply prefix_nil].
  - case_decide as E; [subst d|].
    + split.
      * intros Hp%prefix_cons_inv_2. apply IH in Hp. lia.
      * intros E. apply prefix_cons, IH. lia.
    + split; [|lia]. by intros ?%prefix_cons_inv_1.
Qed.

Lemma strstr_spec_le h nd p : strstr_spec h nd = Some p -> p <= length h.
Proof.
  revert p. induction h as [|c h IH]; intros p; simpl.
  - case_decide; [intros [= <-]; lia|done].
  - case_decide; [intros [= <-]; lia|].
    destruct (strstr_spec h nd) as [k|]; simpl; [|done].
    intros [= <-]. specialize (IH k eq_refl). lia.
Qed.

(** A match lies inside the haystack. *)
Lemma strstr_spec_bound h nd p :
  strstr_spec h nd = Some p -> p + length nd <= length h.
Proof.
  intros Hs. pose proof (strstr_spec_le _ _ _ Hs).
  apply strstr_spec_Some in Hs as [Hp _]. apply prefix_length in Hp.
  rewrite length_drop in Hp. lia.
Qed.

(** A match starts inside the haystack, except for the empty needle in the
    empty haystack. *)
Lemma strstr_spec_lt h nd p :
  strstr_spec h nd = Some p -> h <> [] \/ nd <> [] -> p < length h.
Proof.
  intros Hs Hne. pose proof (strstr_spec_bound _ _ _ Hs) as Hb.
  destruct nd as [|c nd]; simpl in Hb; [|lia].
  destruct h as [|c h]; [by destruct Hne|]. destruct p; [simpl; lia|].
  apply strstr_spec_Some in Hs as [_ Hmin].
  exfalso. apply (Hmin 0); [lia|apply prefix_nil].
Qed.

(** A needle longer than the haystack is not found. *)
Lemma strstr_spec_long h nd : length h < length nd -> strstr_spec h nd = None.
Proof.
  intros Hl. destruct (strstr_spec h nd) as [p|] eqn:E; [|done].
  apply strstr_spec_bound in E. lia.
Qed.

(** On null-free contents, [strncmp] over the needle's length is 0 exactly
    when the needle is a prefix. *)
Lemma strncmp_spec_prefix `{CharSign} s t :
  x00 ∉ s -> x00 ∉ t ->
  strncmp_spec (length t) s t = 0%Z <-> t `prefix_of` s.
Proof.
  intros Hs Ht. rewrite strncmp_spec_cpl, cpl_prefix. pose proof (cpl_le s t).
  case_decide as Hc; [split; [lia|done]|].
  rewrite strcmp_spec_eq_0 by done. split; [|lia].
  intros ->. exfalso. apply Hc. by rewrite (proj1 (cpl_prefix t t) (reflexivity t)).
Qed.
