(* ===== verification/MystringArs.v ===== *)
(** * MystringArs: the array-index implementation [src/src/mystring_ars.c]

    Each function of the file is translated statement by statement: the
    [assert]s become [assert_nonnull], [str[i]] becomes [load (s .+ i)],
    [dest[i] = c] becomes [store (d .+ i) c], and every [while]/[for] loop
    becomes a [while] or [while_ret] of the prelude.  The indices [i], [j]
    and the lengths are [size_t] values kept as [Z]; the one subtraction that
    can wrap, [haystack_length - needle_length] in [ms_search], is written
    with [size_sub].  The refinement theorems prove that each function
    computes the contract of [CSpec] on well-formed inputs. *)

From stdpp Require Import base list.
From Stdlib Require Import ZArith Lia Strings.Byte.
From S2P Require Import Prelude Memory CSpec.

Open Scope cs_scope.

Module Ars.

(** [size_t ms_length(char const str[])] *)
Definition ms_length (str : ptr) : M mem Z :=
  s <- assert_nonnull str ;;
  while (fun i => nonnul_at (s .+ i)) (fun i => ret (i + 1)%Z) 0%Z.

(** [char *ms_copy(char dest[], char const src[])] *)
Definition ms_copy (dest src : ptr) : M mem ptr :=
  d <- assert_nonnull dest ;;
  s <- assert_nonnull src ;;
  i <- while (fun i => nonnul_at (s .+ i))
             (fun i => c <- load (s .+ i) ;; store (d .+ i) c ;; ret (i + 1)%Z)
             0%Z ;;
  store (d .+ i) x00 ;;
  ret dest.

(** [char *ms_ncopy(char dest[], char const src[], size_t num)] *)
Definition ms_ncopy (dest src : ptr) (num : Z) : M mem ptr :=
  d <- assert_nonnull dest ;;
  s <- assert_nonnull src ;;
  i <- while (fun i => nonnul_at (s .+ i) &&& ret (negb (i =? num)%Z))
             (fun i => c <- load (s .+ i) ;; store (d .+ i) c ;; ret (i + 1)%Z)
             0%Z ;;
  _ <- while (fun i => ret (negb (i =? num)%Z))
             (fun i => store (d .+ i) x00 ;; ret (i + 1)%Z) i ;;
  ret dest.

(** [char *ms_concat(char dest[], char const src[])] *)
Definition ms_concat (dest src : ptr) : M mem ptr :=
  d <- assert_nonnull dest ;;
  s <- assert_nonnull src ;;
  dest_length <- ms_length dest ;;
  i <- while (fun i => nonnul_at (s .+ i))
             (fun i => c <- load (s .+ i) ;;
                       store (d .+ (dest_length + i)) c ;; ret (i + 1)%Z)
             0%Z ;;
  store (d .+ (dest_length + i)) x00 ;;
  ret dest.

(** [char *ms_nconcat(char dest[], char const src[], size_t num)] *)
Definition ms_nconcat (dest src : ptr) (num : Z) : M mem ptr :=
  d <- assert_nonnull dest ;;
  s <- assert_nonnull src ;;
  dest_length <- ms_length dest ;;
  i <- while (fun i => nonnul_at (s .+ i) &&& ret (negb (i =? num)%Z))
             (fun i => c <- load (s .+ i) ;;
                       store (d .+ (dest_length + i)) c ;; ret (i + 1)%Z)
             0%Z ;;
  store (d .+ (dest_length + i)) x00 ;;
  ret dest.

(** The loop body shared by [ms_compare] and [ms_ncompare]:
    [if (str1[i] != str2[i]) return str1[i] - str2[i]; i++;] *)
Definition compare_body `{CharSign} (s1 s2 : addr) (i : Z) : M mem (Z + Z) :=
  c1 <- load (s1 .+ i) ;;
  c2 <- load (s2 .+ i) ;;
  if decide (c1 = c2) then ret (inl (i + 1)%Z)
  else ret (inr (char_val c1 - char_val c2)%Z).

(** [return str1[i] - str2[i];] *)
Definition char_diff_at `{CharSign} (s1 s2 : addr) (i : Z) : M mem Z :=
  c1 <- load (s1 .+ i) ;;
  c2 <- load (s2 .+ i) ;;
  ret (char_val c1 - char_val c2)%Z.

(** The condition [str1[i] && str2[i]] of the [ms_compare] loop. *)
Definition compare_cond (s1 s2 : addr) (i : Z) : M mem bool :=
  nonnul_at (s1 .+ i) &&& nonnul_at (s2 .+ i).

(** The condition [str1[i] && str2[i] && i != num] of [ms_ncompare]. *)
Definition ncompare_cond (s1 s2 : addr) (num i : Z) : M mem bool :=
  compare_cond s1 s2 i &&& ret (negb (i =? num)%Z).

(** [int ms_compare(char const str1[], char const str2[])] *)
Definition ms_compare `{CharSign} (str1 str2 : ptr) : M mem Z :=
  s1 <- assert_nonnull str1 ;;
  s2 <- assert_nonnull str2 ;;
  r <- while_ret (compare_cond s1 s2) (compare_body s1 s2) 0%Z ;;
  match r with
  | inr v => ret v
  | inl i => char_diff_at s1 s2 i
  end.

(** [int ms_ncompare(char const str1[], char const str2[], size_t num)] *)
Definition ms_ncompare `{CharSign} (str1 str2 : ptr) (num : Z) : M mem Z :=
  s1 <- assert_nonnull str1 ;;
  s2 <- assert_nonnull str2 ;;
  r <- while_ret (ncompare_cond s1 s2 num) (compare_body s1 s2) 0%Z ;;
  match r with
  | inr v => ret v
  | inl i => if (i =? num)%Z then ret 0%Z else char_diff_at s1 s2 i
  end.

(** The inner loop of [ms_search]:
    [for (j = 0U; j < needle_length; j++) if (haystack[j+i] != needle[j]) break;]
    returning the final [j]. *)
Definition search_inner (h n : addr) (needle_length i : Z) : M mem Z :=
  rj <- while_ret (fun j => ret (j <? needle_length)%Z)
                  (fun j => c1 <- load (h .+ (j + i)) ;;
                            c2 <- load (n .+ j) ;;
                            if decide (c1 = c2) then ret (inl (j + 1)%Z)
                            else ret (inr j))
                  0%Z ;;
  ret (match rj with inl j => j | inr j => j end).

(** One round of the outer loop of [ms_search]:
    [for (j ...) ...; if (j == needle_length) return (char * ) &haystack[i];]
    and [i++] otherwise. *)
Definition search_step (h n : addr) (needle_length i : Z) : M mem (Z + ptr) :=
  j <- search_inner h n needle_length i ;;
  if (j =? needle_length)%Z then ret (inr (Some (h .+ i)))
  else ret (inl (i + 1)%Z).

(** [char *ms_search(char const haystack[], char const needle[])] *)
Definition ms_search (haystack needle : ptr) : M mem ptr :=
  h <- assert_nonnull haystack ;;
  n <- assert_nonnull needle ;;
  haystack_length <- ms_length haystack ;;
  needle_length <- ms_length needle ;;
  if (haystack_length <? needle_length)%Z then ret None else
  r <- while_ret (fun i => ret (i <=? size_sub haystack_length needle_length)%Z)
                 (search_step h n needle_length) 0%Z ;;
  match r with
  | inr p => ret p
  | inl _ => ret None
  end.

End Ars.

(** * Refinement of the contract *)

(** The copying loop [while (cond) { dest[..i] = src[i]; i++; }] shared by
    [ms_copy], [ms_ncopy], [ms_concat] and [ms_nconcat]: after [N] rounds
    the destination holds the first [N] bytes of the write [bs]. *)
(** One round of a copying loop: [dest[..k] = src[k]] once the first [k]
    bytes of the write [bs] are done, the source byte being [bs[k]]. *)
Lemma copy_body_step m a d bs m' (dst : Z -> addr) k c :
  write_bytes m d bs = Some m' -> dst (Z.of_nat k) = d .+ Z.of_nat k ->
  mload (written m d bs k) (a .+ Z.of_nat k) = Some c -> bs !! k = Some c ->
  (c <- load (a .+ Z.of_nat k) ;; store (dst (Z.of_nat k)) c ;; ret (Z.of_nat k + 1)%Z)
    (written m d bs k) = Ok (Z.of_nat (S k), written m d bs (S k)).
Proof.
  intros Hw Hdst Hl Hc. eapply bind_Ok_then; [by apply load_Ok|]. cbv beta.
  rewrite Hdst. eapply bind_Ok_then; [by apply store_Ok, (written_step _ _ _ _ Hw)|].
  unfold ret. do 3 f_equal. lia.
Qed.

Section CopyLoop.
Context (m : mem) (a : addr) (s : list byte) (d : addr) (bs : list byte) (m' : mem).
Hypothesis Hs : cstring m a s.
Hypothesis Hw : write_bytes m d bs = Some m'.
Hypothesis Hd : disjoint d (Z.of_nat (length bs)) a (Z.of_nat (length s + 1)).

Lemma copy_loop (cond : Z -> M mem bool) (dst : Z -> addr) N :
    N <= length s -> (forall k, k < N -> bs !! k = s !! k) ->
    (forall k, dst (Z.of_nat k) = d .+ Z.of_nat k) ->
    (forall k, k < N ->
       cond (Z.of_nat k) (written m d bs k) = Ok (true, written m d bs k)) ->
    cond (Z.of_nat N) (written m d bs N) = Ok (false, written m d bs N) ->
    while cond (fun i => c <- load (a .+ i) ;; store (dst i) c ;; ret (i + 1)%Z)
      0%Z m
    = Ok (Z.of_nat N, written m d bs N).
  Proof.
    intros HN Hbs Hdst Htrue Hfalse. unfold while.
    apply (loop_count _ (fun k => Z.of_nat k) (fun k => written m d bs k) N);
      [| |cbv beta; change (written m d bs 0) with m;
          pose proof (cstring_fuel _ _ _ Hs); lia].
    - intros k Hk. apply (while_step_true _ _ _ _ _ _ _ (Htrue k Hk)).
      destruct (lookup_lt_is_Some_2 s k) as [c Hc]; [lia|].
      pose proof (cstring_written _ _ _ _ Hw k _ _ Hs Hd) as Hs'.
      destruct (cstring_load_lt _ _ _ _ _ Hs' Hc) as [Hl _].
      rewrite <- (Hbs k Hk) in Hc. by apply (copy_body_step _ _ _ _ m' _ _ c).
    - by apply while_step_false.
  Qed.
End CopyLoop.

(** The scanning loop [while (str[i]) i++;] of [ms_length]. *)
Lemma length_loop m a s :
  cstring m a s ->
  while (fun i => nonnul_at (a .+ i)) (fun i => ret (i + 1)%Z) 0%Z m
  = Ok (Z.of_nat (length s), m).
Proof.
  intros Hs. unfold while.
  apply (loop_count _ (fun k => Z.of_nat k) (fun _ => m) (length s));
    [| |pose proof (cstring_fuel _ _ _ Hs); lia].
  - intros k Hk. eapply while_step_true; [by apply (cstring_nonnul_lt _ _ _ Hs)|].
    unfold ret. do 3 f_equal. lia.
  - apply while_step_false. by apply (cstring_nonnul_end _ _ _ Hs).
Qed.

(** ms_length returns the length of the string, without changing memory. *)
Theorem ms_length_correct m a s :
  cstring m a s -> Ars.ms_length (Some a) m = Ok (Z.of_nat (length s), m).
Proof. intros Hs. unfold Ars.ms_length. run_asserts. by apply length_loop. Qed.

(** Storing the last byte of a write completes it. *)
Lemma store_last m d bs m' k c :
  write_bytes m d bs = Some m' -> bs !! k = Some c -> S k = length bs ->
  store (d .+ Z.of_nat k) c (written m d bs k) = Ok (tt, m').
Proof.
  intros Hw Hc Hk. apply store_Ok. rewrite (written_step _ _ _ _ Hw _ _ Hc), Hk.
  by rewrite (written_full _ _ _ _ Hw).
Qed.

(** The padding loop [while (i != num) { dest[i] = '\0'; i++; }] of
    [ms_ncopy], from [i = N] up to [num = n]. *)
Lemma fill_loop m d bs m' num N :
  write_bytes m d bs = Some m' -> Z.of_nat (length bs) = num -> N <= length bs ->
  (forall k, N <= k < length bs -> bs !! k = Some x00) ->
  while (fun i => ret (negb (i =? num)%Z))
        (fun i => store (d .+ i) x00 ;; ret (i + 1)%Z)
        (Z.of_nat N) (written m d bs N)
  = Ok (num, m').
Proof.
  intros Hw Hn HN Hz. unfold while.
  rewrite <- (written_full _ _ _ _ Hw), <- Hn.
  apply (loop_count _ (fun k => Z.of_nat (k + N)) (fun k => written m d bs (k + N))
           (length bs - N)).
  - intros k Hk. eapply while_step_true.
    { unfold ret. do 3 f_equal. apply negb_true_iff, Z.eqb_neq. lia. }
    eapply bind_Ok_then.
    { apply store_Ok, (written_step _ _ _ _ Hw), Hz. lia. }
    unfold ret. do 3 f_equal. lia.
  - replace (length bs - N + N) with (length bs) by lia. apply while_step_false.
    unfold ret. by rewrite Z.eqb_refl.
  - cbv beta. pose proof (write_bytes_fuel _ _ _ _ (written_rest _ _ _ _ Hw N HN)).
    rewrite length_drop in *. done.
Qed.

(** The condition [src[i] && i != num] of the bounded loops, inside the
    string and before the bound. *)
Lemma ncond_true m a s num k :
  cstring m a s -> k < length s -> (Z.of_nat k < num)%Z ->
  (nonnul_at (a .+ Z.of_nat k) &&& ret (negb (Z.of_nat k =? num)%Z)) m
  = Ok (true, m).
Proof.
  intros Hs Hk Hn. rewrite (andM_true _ _ _ _ (cstring_nonnul_lt _ _ _ Hs k Hk)).
  unfold ret. do 3 f_equal. apply negb_true_iff, Z.eqb_neq. lia.
Qed.

(** ... and its value at [i = min (strlen src) num], where the loop stops. *)
Lemma ncond_false m a s num :
  cstring m a s -> (0 <= num)%Z ->
  (nonnul_at (a .+ Z.of_nat (min (length s) (Z.to_nat num)))
   &&& ret (negb (Z.of_nat (min (length s) (Z.to_nat num)) =? num)%Z)) m
  = Ok (false, m).
Proof.
  intros Hs Hn. destruct (decide (length s <= Z.to_nat num)).
  - rewrite Nat.min_l by done. apply andM_false, (cstring_nonnul_end _ _ _ Hs).
  - rewrite Nat.min_r by lia.
    rewrite (andM_true _ _ _ _ (cstring_nonnul_lt _ _ _ Hs (Z.to_nat num) ltac:(lia))).
    unfold ret. rewrite Z2Nat.id, Z.eqb_refl by done. done.
Qed.

(** The loop [while (src[i]) { dst[i] = src[i]; i++; }]. *)
Lemma cpy_loop m a s d m' (dst : Z -> addr) :
  cstring m a s -> write_bytes m d (s ++ [x00]) = Some m' ->
  disjoint d (Z.of_nat (length s + 1)) a (Z.of_nat (length s + 1)) ->
  (forall k, dst (Z.of_nat k) = d .+ Z.of_nat k) ->
  while (fun i => nonnul_at (a .+ i))
        (fun i => c <- load (a .+ i) ;; store (dst i) c ;; ret (i + 1)%Z) 0%Z m
  = Ok (Z.of_nat (length s), written m d (s ++ [x00]) (length s)).
Proof.
  intros Hs Hw Hd Hdst.
  assert (length (s ++ [x00]) = length s + 1) as Hl by (rewrite length_app; done).
  assert (Hd' : disjoint d (Z.of_nat (length (s ++ [x00]))) a
                         (Z.of_nat (length s + 1))) by (by rewrite Hl).
  apply (copy_loop m a s d (s ++ [x00]) m' Hs Hw Hd');
    [lia|intros k Hk; by rewrite lookup_app_l|done| |].
  - intros k Hk. apply (cstring_nonnul_lt _ _ s); [|done].
    by apply (cstring_written _ _ _ _ Hw).
  - apply (cstring_nonnul_end _ _ s). by apply (cstring_written _ _ _ _ Hw).
Qed.

(** ... and the terminator written after it. *)
Lemma cpy_last m d s m' :
  write_bytes m d (s ++ [x00]) = Some m' ->
  store (d .+ Z.of_nat (length s)) x00 (written m d (s ++ [x00]) (length s))
  = Ok (tt, m').
Proof.
  intros Hw. apply (store_last _ _ _ _ _ _ Hw).
  - by rewrite lookup_app_r, Nat.sub_diag by lia.
  - rewrite length_app. simpl. lia.
Qed.

(** The loop [while (src[i] && i != num) { dst[i] = src[i]; i++; }] stops
    at [min (strlen src) num]. *)
Lemma ncpy_loop m a s d bs m' num (dst : Z -> addr) :
  cstring m a s -> (0 <= num)%Z -> write_bytes m d bs = Some m' ->
  disjoint d (Z.of_nat (length bs)) a (Z.of_nat (length s + 1)) ->
  (forall k, k < min (length s) (Z.to_nat num) -> bs !! k = s !! k) ->
  (forall k, dst (Z.of_nat k) = d .+ Z.of_nat k) ->
  while (fun i => nonnul_at (a .+ i) &&& ret (negb (i =? num)%Z))
        (fun i => c <- load (a .+ i) ;; store (dst i) c ;; ret (i + 1)%Z) 0%Z m
  = Ok (Z.of_nat (min (length s) (Z.to_nat num)),
        written m d bs (min (length s) (Z.to_nat num))).
Proof.
  intros Hs Hn Hw Hd Hbs Hdst.
  apply (copy_loop m a s d bs m' Hs Hw Hd); [lia|done|done| |].
  - intros k Hk. apply (ncond_true _ _ s); [|lia|lia].
    by apply (cstring_written _ _ _ _ Hw).
  - apply (ncond_false _ _ s); [|done]. by apply (cstring_written _ _ _ _ Hw).
Qed.

(** The comparison loops of [ms_compare] and [ms_ncompare] walk the common
    prefix of the two strings. *)
Section CompareLoop.
Context `{CharSign} (m : mem) (a1 a2 : addr) (s t : list byte).
Hypothesis Hs : cstring m a1 s.
Hypothesis Ht : cstring m a2 t.

Lemma compare_cond_true k :
    k < min (length s) (length t) ->
    Ars.compare_cond a1 a2 (Z.of_nat k) m = Ok (true, m).
  Proof.
    intros Hk. unfold Ars.compare_cond.
    rewrite (andM_true _ _ _ _ (cstring_nonnul_lt _ _ _ Hs k ltac:(lia))).
    apply (cstring_nonnul_lt _ _ _ Ht). lia.
  Qed.

Lemma compare_cond_false k :
    k <= min (length s) (length t) -> ~ (k < length s /\ k < length t) ->
    Ars.compare_cond a1 a2 (Z.of_nat k) m = Ok (false, m).
  Proof.
    intros Hk Hn. unfold Ars.compare_cond. destruct (decide (k = length s)) as [->|E].
    - apply andM_false, (cstring_nonnul_end _ _ _ Hs).
    - rewrite (andM_true _ _ _ _ (cstring_nonnul_lt _ _ _ Hs k ltac:(lia))).
      replace k with (length t) by lia. apply (cstring_nonnul_end _ _ _ Ht).
  Qed.

Lemma ncompare_cond_true num k :
    k < min (length s) (length t) -> (Z.of_nat k < num)%Z ->
    Ars.ncompare_cond a1 a2 num (Z.of_nat k) m = Ok (true, m).
  Proof.
    intros Hk Hn. unfold Ars.ncompare_cond. rewrite (andM_true _ _ _ _ (compare_cond_true k Hk)).
    apply ret_true, negb_true_iff, Z.eqb_neq. lia.
  Qed.

Lemma ncompare_cond_false num k :
    k <= min (length s) (length t) ->
    ~ (k < length s /\ k < length t) \/ Z.of_nat k = num ->
    Ars.ncompare_cond a1 a2 num (Z.of_nat k) m = Ok (false, m).
  Proof.
    intros Hk Hn. unfold Ars.ncompare_cond.
    destruct (decide (k < length s /\ k < length t)).
    - rewrite (andM_true _ _ _ _ (compare_cond_true k ltac:(lia))).
      apply ret_false. destruct Hn as [Hn|<-]; [done|]. by rewrite Z.eqb_refl.
    - apply andM_false, compare_cond_false; tauto.
  Qed.

Lemma compare_body_eq k :
    k < cpl s t -> Ars.compare_body a1 a2 (Z.of_nat k) m = Ok (inl (Z.of_nat (S k)), m).
  Proof.
    intros Hk. pose proof (cpl_le s t). pose proof (cpl_lookup s t k Hk) as E.
    destruct (lookup_lt_is_Some_2 s k) as [c Hc]; [lia|].
    unfold Ars.compare_body.
    eapply bind_Ok_then; [apply load_Ok, (cstring_load_lt _ _ _ _ _ Hs Hc)|]. cbv beta.
    rewrite Hc in E.
    eapply bind_Ok_then; [apply load_Ok, (cstring_load_lt _ _ _ _ _ Ht (eq_sym E))|].
    rewrite decide_True by done. unfold ret. do 4 f_equal. lia.
  Qed.

Lemma compare_body_neq :
    cpl s t < length s -> cpl s t < length t ->
    Ars.compare_body a1 a2 (Z.of_nat (cpl s t)) m = Ok (inr (strcmp_spec s t), m).
  Proof.
    intros H1 H2. pose proof (cpl_diff s t H1 H2) as Hne.
    destruct (lookup_lt_is_Some_2 s _ H1) as [c Hc].
    destruct (lookup_lt_is_Some_2 t _ H2) as [d Hd].
    unfold Ars.compare_body.
    eapply bind_Ok_then; [apply load_Ok, (cstring_load_lt _ _ _ _ _ Hs Hc)|]. cbv beta.
    eapply bind_Ok_then; [apply load_Ok, (cstring_load_lt _ _ _ _ _ Ht Hd)|].
    rewrite decide_False by congruence. rewrite strcmp_spec_cpl.
    rewrite !app_nth1 by lia. by rewrite (nth_lookup_Some _ _ _ _ Hc),
      (nth_lookup_Some _ _ _ _ Hd).
  Qed.

Lemma char_diff_at_cpl :
    Ars.char_diff_at a1 a2 (Z.of_nat (cpl s t)) m = Ok (strcmp_spec s t, m).
  Proof.
    pose proof (cpl_le s t). unfold Ars.char_diff_at.
    eapply bind_Ok_then; [apply load_Ok, (cstring_load_le _ _ _ _ Hs); lia|]. cbv beta.
    eapply bind_Ok_then; [apply load_Ok, (cstring_load_le _ _ _ _ Ht); lia|].
    by rewrite strcmp_spec_cpl.
  Qed.

(** A comparison loop whose condition holds for the first [N <= cpl s t]
    indices runs [N] rounds of [compare_body] and ends as round [N] does. *)
Lemma compare_loop cond N x :
    N <= cpl s t -> (forall k, k < N -> cond (Z.of_nat k) m = Ok (true, m)) ->
    while_ret_step cond (Ars.compare_body a1 a2) (Z.of_nat N) m = Ok (inr x, m) ->
    while_ret cond (Ars.compare_body a1 a2) 0%Z m = Ok (x, m).
  Proof.
    intros HN Hc Hl. pose proof (cpl_le s t). pose proof (cstring_fuel _ _ _ Hs).
    apply (while_ret_index _ _ _ N); [|done|lia].
    intros k Hk. split; [auto|]. apply compare_body_eq. lia.
  Qed.

(** ms_compare returns the [strcmp] difference, without changing memory. *)
Lemma ms_compare_refines :
    Ars.ms_compare (Some a1) (Some a2) m = Ok (strcmp_spec s t, m).
  Proof.
    unfold Ars.ms_compare. run_asserts. pose proof (cpl_le s t).
    destruct (decide (cpl s t < length s /\ cpl s t < length t)) as [[Hl1 Hl2]|Hn].
    - eapply (bind_Ok_then _ _ _ (inr (strcmp_spec s t)) m); [|reflexivity].
      apply (compare_loop _ (cpl s t)); [lia|intros; apply compare_cond_true; lia|].
      eapply while_ret_step_return; [apply compare_cond_true; lia|by apply compare_body_neq].
    - eapply (bind_Ok_then _ _ _ (inl (Z.of_nat (cpl s t))) m); [|by apply char_diff_at_cpl].
      apply (compare_loop _ (cpl s t)); [lia|intros; apply compare_cond_true; lia|].
      apply while_ret_step_false, compare_cond_false; lia.
  Qed.

(** C5: ms_compare returns [strcmp]'s difference of the strings [s] and [t]
    at [a1] and [a2], which is 0 exactly when the strings are equal. *)
Theorem ms_compare_correct :
    Ars.ms_compare (Some a1) (Some a2) m = Ok (strcmp_spec s t, m) /\
    (strcmp_spec s t = 0%Z <-> s = t).
  Proof.
    split; [by apply ms_compare_refines|].
    apply strcmp_spec_eq_0; [apply Hs|apply Ht].
  Qed.

(** ms_ncompare returns the [strncmp] difference over [num] positions. *)
Lemma ms_ncompare_correct num :
    (0 <= num)%Z ->
    Ars.ms_ncompare (Some a1) (Some a2) num m
    = Ok (strncmp_spec (Z.to_nat num) s t, m).
  Proof.
    intros Hnum. unfold Ars.ms_ncompare. run_asserts.
    pose proof (cpl_le s t). rewrite strncmp_spec_cpl.
    destruct (decide (Z.to_nat num <= cpl s t)) as [Hle|Hgt].
    - (* the loop reaches the bound: the strings agree on [num] chars *)
      eapply (bind_Ok_then _ _ _ (inl (Z.of_nat (Z.to_nat num))) m).
      + apply (compare_loop _ (Z.to_nat num)); [lia|intros; apply ncompare_cond_true; lia|].
        apply while_ret_step_false, ncompare_cond_false; lia.
      + cbv beta iota. by rewrite Z2Nat.id, Z.eqb_refl by lia.
    - (* the loop stops inside the strings, as in [ms_compare] *)
      destruct (decide (cpl s t < length s /\ cpl s t < length t)) as [[Hl1 Hl2]|Hn].
      + eapply (bind_Ok_then _ _ _ (inr (strcmp_spec s t)) m); [|reflexivity].
        apply (compare_loop _ (cpl s t)); [lia|intros; apply ncompare_cond_true; lia|].
        eapply while_ret_step_return; [apply ncompare_cond_true; lia|by apply compare_body_neq].
      + eapply (bind_Ok_then _ _ _ (inl (Z.of_nat (cpl s t))) m).
        * apply (compare_loop _ (cpl s t)); [lia|intros; apply ncompare_cond_true; lia|].
          apply while_ret_step_false, ncompare_cond_false; lia.
        * cbv beta iota. rewrite (proj2 (Z.eqb_neq _ _)) by lia. apply char_diff_at_cpl.
  Qed.

(** C6: ms_ncompare on the strings [s] and [t] at [a1] and [a2] is [strcmp]
    of their [num]-byte prefixes. *)
Theorem ms_ncompare_prefixes num :
    (0 <= num)%Z ->
    Ars.ms_ncompare (Some a1) (Some a2) num m
    = Ok (strcmp_spec (take (Z.to_nat num) s) (take (Z.to_nat num) t), m).
  Proof. intros Hn. rewrite <- strncmp_spec_take. by apply ms_ncompare_correct. Qed.
End CompareLoop.

(** The inner loop of [ms_search] at position [i] stops after the common
    prefix of [haystack + i] and [needle]. *)
Lemma search_inner_correct m h hs n ns i :
  cstring m h hs -> cstring m n ns -> i + length ns <= length hs ->
  Ars.search_inner h n (Z.of_nat (length ns)) (Z.of_nat i) m
  = Ok (Z.of_nat (cpl (drop i hs) ns), m).
Proof.
  intros Hh Hn Hi. unfold Ars.search_inner.
  set (c := cpl (drop i hs) ns).
  pose proof (cpl_le (drop i hs) ns) as Hc. rewrite length_drop in Hc.
  (* the bytes compared at [j]: [haystack[j+i]] and [needle[j]] *)
  assert (Hload : forall j, j < length ns -> exists c1 c2,
    load (h .+ (Z.of_nat j + Z.of_nat i)) m = Ok (c1, m) /\
    load (n .+ Z.of_nat j) m = Ok (c2, m) /\
    drop i hs !! j = Some c1 /\ ns !! j = Some c2).
  { intros j Hj. destruct (lookup_lt_is_Some_2 ns j Hj) as [c2 Hc2].
    destruct (lookup_lt_is_Some_2 hs (i + j)) as [c1 Hc1]; [lia|].
    exists c1, c2. rewrite lookup_drop. split_and!; [|by apply load_Ok, (cstring_load_lt _ _ _ _ _ Hn Hc2)|done..].
    apply load_Ok. replace (Z.of_nat j + Z.of_nat i)%Z with (Z.of_nat (i + j)) by lia.
    apply (cstring_load_lt _ _ _ _ _ Hh Hc1). }
  eapply (bind_Ok_then _ _ _ (if decide (c = length ns) then inl (Z.of_nat c)
                              else inr (Z.of_nat c)) m);
    [|by case_decide]. unfold while_ret.
  apply (loop_count _ (fun k => Z.of_nat k) (fun _ => m) c);
    [| |pose proof (cstring_fuel _ _ _ Hn); lia].
  - intros k Hk. eapply while_ret_step_cont.
    { unfold ret. do 3 f_equal. apply Z.ltb_lt. lia. }
    destruct (Hload k ltac:(lia)) as (c1 & c2 & E1 & E2 & L1 & L2).
    eapply bind_Ok_then; [exact E1|]. cbv beta. eapply bind_Ok_then; [exact E2|].
    rewrite decide_True by (pose proof (cpl_lookup _ _ _ Hk); congruence).
    unfold ret. do 4 f_equal. lia.
  - destruct (decide (c = length ns)) as [E|E].
    + apply while_ret_step_false. unfold ret. rewrite E, Z.ltb_irrefl. done.
    + eapply while_ret_step_return.
      { unfold ret. do 3 f_equal. apply Z.ltb_lt. lia. }
      destruct (Hload c ltac:(lia)) as (c1 & c2 & E1 & E2 & L1 & L2).
      eapply bind_Ok_then; [exact E1|]. cbv beta. eapply bind_Ok_then; [exact E2|].
      pose proof (cpl_diff (drop i hs) ns) as Hd. rewrite length_drop in Hd.
      rewrite decide_False by (intros ->; apply Hd; [lia|lia|]; fold c; congruence). done.
Qed.

(** One round of the outer loop of [ms_search], at a position [i] that
    leaves room for the needle: it returns [&haystack[i]] exactly when the
    needle starts there. *)
Lemma search_step_correct m h hs n ns i :
  cstring m h hs -> cstring m n ns -> i + length ns <= length hs ->
  Ars.search_step h n (Z.of_nat (length ns)) (Z.of_nat i) m
  = Ok (if decide (ns `prefix_of` drop i hs) then inr (Some (h .+ Z.of_nat i))
        else inl (Z.of_nat (S i)), m).
Proof.
  intros Hh Hn Hi. unfold Ars.search_step.
  eapply bind_Ok_then; [by apply search_inner_correct|]. case_decide as Hp.
  - apply cpl_prefix in Hp. by rewrite Hp, Z.eqb_refl.
  - rewrite (proj2 (Z.eqb_neq _ _)); [unfold ret; do 4 f_equal; lia|].
    intros E%Nat2Z.inj. by apply Hp, cpl_prefix.
Qed.

(** The array [ms_search] computes [strstr]: the outer loop tries the
    positions [0 .. strlen(haystack) - strlen(needle)] in order, each with
    [search_step_correct]. *)
Lemma ms_search_refines m h hs n ns :
  cstring m h hs -> cstring m n ns -> (Z.of_nat (length hs) < 2 ^ 64)%Z ->
  Ars.ms_search (Some h) (Some n) m
  = Ok ((fun p => h .+ Z.of_nat p) <$> strstr_spec hs ns, m).
Proof.
  intros Hh Hn Hsz. unfold Ars.ms_search. run_asserts.
  eapply bind_Ok_then; [by apply ms_length_correct|]. cbv beta.
  eapply bind_Ok_then; [by apply ms_length_correct|]. cbv beta.
  destruct (Z.ltb_spec (Z.of_nat (length hs)) (Z.of_nat (length ns))) as [Hlt|Hge].
  { rewrite strstr_spec_long by lia. done. }
  rewrite size_sub_small by lia. pose proof (cstring_fuel _ _ _ Hh).
  destruct (strstr_spec hs ns) as [p|] eqn:Hs; simpl.
  - pose proof (strstr_spec_bound _ _ _ Hs) as Hb.
    apply strstr_spec_Some in Hs as [Hp Hmin].
    eapply (bind_Ok_then _ _ _ (inr (Some (h .+ Z.of_nat p))) m); [|reflexivity].
    apply (while_ret_index _ _ _ p); [intros k Hk| |lia].
    + split; [apply ret_true, Z.leb_le; lia|].
      rewrite (search_step_correct m h hs n ns) by (done || lia). rewrite decide_False; [done|].
      apply Hmin. lia.
    + eapply while_ret_step_return; [apply ret_true, Z.leb_le; lia|].
      rewrite (search_step_correct m h hs n ns) by (done || lia). by rewrite decide_True.
  - rewrite strstr_spec_None in Hs.
    assert (length ns <> 0) as Hne.
    { intros E. apply (Hs 0); [lia|]. destruct ns; [apply prefix_nil|done]. }
    eapply (bind_Ok_then _ _ _ (inl (Z.of_nat (length hs - length ns + 1))) m);
      [|reflexivity].
    apply (while_ret_index _ _ _ (length hs - length ns + 1)); [intros k Hk| |lia].
    + split; [apply ret_true, Z.leb_le; lia|].
      rewrite (search_step_correct m h hs n ns) by (done || lia). rewrite decide_False; [done|].
      apply Hs. lia.
    + apply while_ret_step_false, ret_false, Z.leb_gt. lia.
Qed.

(** C7: on a haystack and a needle string, ms_search returns without
    writing, and returns [&haystack[i]] for the first [i] where the needle
    starts, or NULL when it occurs nowhere. *)
Theorem ms_search_correct m h hs n ns :
  cstring m h hs -> cstring m n ns -> (Z.of_nat (length hs) < 2 ^ 64)%Z ->
  exists r, Ars.ms_search (Some h) (Some n) m = Ok (r, m) /\
  match r with
  | Some p => exists i, p = h .+ Z.of_nat i /\ ns `prefix_of` drop i hs /\
                        forall j, j < i -> ~ ns `prefix_of` drop j hs
  | None => forall j, j <= length hs -> ~ ns `prefix_of` drop j hs
  end.
Proof.
  intros Hh Hn Hsz. pose proof (ms_search_refines m h hs n ns Hh Hn Hsz) as Hrun.
  eexists. split; [exact Hrun|].
  destruct (strstr_spec hs ns) as [i|] eqn:E; simpl.
  - exists i. split; [done|]. by apply strstr_spec_Some.
  - by apply strstr_spec_None.
Qed.

(** * The contract of each function, with the properties the spec lists *)

(** The terminator of the source is not among its first [n] bytes. *)
Lemma cstring_take_nonul m a s n : cstring m a s -> x00 ∉ take n s.
Proof.
  intros Hs Hin. apply (proj2 Hs). rewrite <- (take_drop n s).
  apply elem_of_app. by left.
Qed.

(** The array [ms_copy] writes [strcpy]'s bytes: the copy loop, then the
    terminator. *)
Lemma ms_copy_refines m d a s m' :
  cstring m a s -> strcpy_spec m d s = Some m' ->
  disjoint d (Z.of_nat (length s + 1)) a (Z.of_nat (length s + 1)) ->
  Ars.ms_copy (Some d) (Some a) m = Ok (Some d, m').
Proof.
  unfold strcpy_spec. intros Hs Hw Hd. unfold Ars.ms_copy. run_asserts.
  eapply bind_Ok_then; [by apply (cpy_loop m a s d m')|]. cbv beta.
  eapply bind_Ok_then; [by apply cpy_last|]. done.
Qed.

(** C1: ms_copy writes [strcpy]'s bytes and returns [dest]; afterwards
    [ms_length(dest)] is the length of the source and
    [ms_compare(dest, src)] is 0. *)
Theorem ms_copy_correct `{CharSign} m d a s m' :
  cstring m a s -> strcpy_spec m d s = Some m' ->
  disjoint d (Z.of_nat (length s + 1)) a (Z.of_nat (length s + 1)) ->
  Ars.ms_copy (Some d) (Some a) m = Ok (Some d, m') /\
  Ars.ms_length (Some d) m' = Ok (Z.of_nat (length s), m') /\
  Ars.ms_compare (Some d) (Some a) m' = Ok (0%Z, m').
Proof.
  intros Hs Hw Hd. pose proof (ms_copy_refines m d a s m' Hs Hw Hd) as Hrun.
  unfold strcpy_spec in Hw.
  assert (cstring m' d s) as Hd' by (apply (cstring_write_bytes m); [done|apply Hs]).
  assert (cstring m' a s) as Ha'.
  { apply (cstring_frame m _ _ _ _ _ Hs Hw). by rewrite length_app. }
  split_and!.
  - done.
  - by apply ms_length_correct.
  - rewrite (ms_compare_refines m' d a s s) by done. by rewrite strcmp_spec_refl.
Qed.

(** The array [ms_ncopy] writes [strncpy]'s [num] bytes: the copy loop
    stops at [min (strlen src) num], the padding loop fills up to [num]. *)
Lemma ms_ncopy_refines m d a s num m' :
  cstring m a s -> (0 <= num)%Z ->
  strncpy_spec m d s (Z.to_nat num) = Some m' ->
  disjoint d num a (Z.of_nat (length s + 1)) ->
  Ars.ms_ncopy (Some d) (Some a) num m = Ok (Some d, m').
Proof.
  unfold strncpy_spec. intros Hs Hn Hw Hd.
  set (bs := take (Z.to_nat num) s ++ replicate (Z.to_nat num - length s) x00) in *.
  assert (length bs = Z.to_nat num) as Hl.
  { subst bs. rewrite length_app, length_take, length_replicate. lia. }
  assert (Hd' : disjoint d (Z.of_nat (length bs)) a (Z.of_nat (length s + 1))).
  { rewrite Hl, Z2Nat.id by done. done. }
  unfold Ars.ms_ncopy. run_asserts. eapply bind_Ok_then.
  { apply (ncpy_loop m a s d bs m' num); [done..| |done].
    intros k Hk. subst bs. rewrite lookup_app_l, lookup_take_lt
      by (rewrite ?length_take; lia). done. }
  cbv beta. eapply bind_Ok_then.
  { apply (fill_loop m d bs m'); [done|lia|lia|].
    intros k Hk. subst bs. rewrite lookup_app_r by (rewrite length_take; lia).
    rewrite lookup_replicate. split; [done|]. rewrite length_take. lia. }
  done.
Qed.

(** C2: ms_ncopy writes [strncpy]'s [num] bytes (the source's first [num]
    bytes, padded with nulls) and returns [dest]; it writes nothing at
    [dest[num]], so a source of [num] bytes or more leaves [dest]
    unterminated. *)
Theorem ms_ncopy_correct m d a s num m' :
  cstring m a s -> (0 <= num)%Z ->
  strncpy_spec m d s (Z.to_nat num) = Some m' ->
  disjoint d num a (Z.of_nat (length s + 1)) ->
  Ars.ms_ncopy (Some d) (Some a) num m = Ok (Some d, m') /\
  mload m' (d .+ num) = mload m (d .+ num).
Proof.
  intros Hs Hn Hw Hd. pose proof (ms_ncopy_refines m d a s num m' Hs Hn Hw Hd) as Hrun.
  split; [done|]. unfold strncpy_spec in Hw.
  rewrite (mload_write_bytes_out _ _ _ _ _ Hw); [done|].
  rewrite length_app, length_take, length_replicate. simpl. lia.
Qed.

(** The array [ms_concat] writes [strcat]'s bytes after [ms_length(dest)]. *)
Lemma ms_concat_refines m d ds a s m' :
  cstring m d ds -> cstring m a s -> strcat_spec m d ds s = Some m' ->
  disjoint (d .+ Z.of_nat (length ds)) (Z.of_nat (length s + 1))
           a (Z.of_nat (length s + 1)) ->
  Ars.ms_concat (Some d) (Some a) m = Ok (Some d, m').
Proof.
  unfold strcat_spec. intros Hds Hs Hw Hd.
  unfold Ars.ms_concat. run_asserts.
  eapply bind_Ok_then; [by apply ms_length_correct|]. cbv beta.
  eapply bind_Ok_then.
  { apply (cpy_loop m a s _ m' _ Hs Hw Hd). intros k. by rewrite addr_add_add. }
  cbv beta. rewrite <- addr_add_add.
  eapply bind_Ok_then; [by apply cpy_last|]. done.
Qed.

(** C3: ms_concat appends the source after the destination's string, as
    [strcat], and returns [dest]: [dest] then holds the concatenation, its
    old content unchanged and the terminator at the sum of the lengths. *)
Theorem ms_concat_correct m d ds a s m' :
  cstring m d ds -> cstring m a s -> strcat_spec m d ds s = Some m' ->
  disjoint (d .+ Z.of_nat (length ds)) (Z.of_nat (length s + 1))
           a (Z.of_nat (length s + 1)) ->
  Ars.ms_concat (Some d) (Some a) m = Ok (Some d, m') /\ cstring m' d (ds ++ s).
Proof.
  intros Hds Hs Hw Hd. pose proof (ms_concat_refines m d ds a s m' Hds Hs Hw Hd) as Hrun.
  split; [done|]. unfold strcat_spec in Hw. by apply (cstring_append m _ _ _ _ Hds Hw), Hs.
Qed.

(** The array [ms_nconcat] writes [strncat]'s bytes after [ms_length(dest)]. *)
Lemma ms_nconcat_refines m d ds a s num m' :
  cstring m d ds -> cstring m a s -> (0 <= num)%Z ->
  strncat_spec m d ds s (Z.to_nat num) = Some m' ->
  disjoint (d .+ Z.of_nat (length ds)) (Z.of_nat (length s + 1))
           a (Z.of_nat (length s + 1)) ->
  Ars.ms_nconcat (Some d) (Some a) num m = Ok (Some d, m').
Proof.
  unfold strncat_spec. intros Hds Hs Hn Hw Hd.
  unfold Ars.ms_nconcat. run_asserts.
  eapply bind_Ok_then; [by apply ms_length_correct|]. cbv beta.
  set (bs := take (Z.to_nat num) s ++ [x00]) in *.
  assert (length bs = min (length s) (Z.to_nat num) + 1) as Hl.
  { subst bs. rewrite length_app, length_take. simpl. lia. }
  eapply bind_Ok_then.
  { apply (ncpy_loop m a s _ bs m' num _ Hs Hn Hw).
    - rewrite Hl. unfold disjoint in *. lia.
    - intros k Hk. subst bs. rewrite lookup_app_l, lookup_take_lt
        by (rewrite ?length_take; lia). done.
    - intros k. by rewrite addr_add_add. }
  cbv beta. rewrite <- addr_add_add.
  eapply bind_Ok_then; [|done]. apply (store_last _ _ _ _ _ _ Hw); [|lia].
  subst bs. rewrite lookup_app_r; rewrite length_take; [|lia].
  by rewrite Nat.min_comm, Nat.sub_diag.
Qed.

(** C4: ms_nconcat appends at most [num] bytes of the source, as [strncat],
    and always terminates: [dest] then holds its old content followed by
    the first [num] bytes of the source. *)
Theorem ms_nconcat_correct m d ds a s num m' :
  cstring m d ds -> cstring m a s -> (0 <= num)%Z ->
  strncat_spec m d ds s (Z.to_nat num) = Some m' ->
  disjoint (d .+ Z.of_nat (length ds)) (Z.of_nat (length s + 1))
           a (Z.of_nat (length s + 1)) ->
  Ars.ms_nconcat (Some d) (Some a) num m = Ok (Some d, m') /\
  cstring m' d (ds ++ take (Z.to_nat num) s).
Proof.
  intros Hds Hs Hn Hw Hd.
  pose proof (ms_nconcat_refines m d ds a s num m' Hds Hs Hn Hw Hd) as Hrun.
  split; [done|]. unfold strncat_spec in Hw.
  by apply (cstring_append m _ _ _ _ Hds Hw), (cstring_take_nonul m a).
Qed.

(** C20: ms_compare is antisymmetric and 0 on a string compared with itself. *)
Theorem ms_compare_antisym `{CharSign} m a1 a2 s t v :
  cstring m a1 s -> cstring m a2 t ->
  Ars.ms_compare (Some a1) (Some a2) m = Ok (v, m) ->
  Ars.ms_compare (Some a2) (Some a1) m = Ok ((- v)%Z, m) /\
  Ars.ms_compare (Some a1) (Some a1) m = Ok (0%Z, m).
Proof.
  intros Hs Ht E. rewrite (ms_compare_refines m a1 a2 s t) in E by done.
  injection E as <-. rewrite (ms_compare_refines m a2 a1 t s),
    (ms_compare_refines m a1 a1 s s) by done.
  by rewrite strcmp_spec_refl, (strcmp_spec_antisym t s).
Qed.

(** C21: With a bound beyond the end of the shorter string, ms_ncompare is
    ms_compare. *)
Theorem ms_ncompare_compare `{CharSign} m a1 a2 s t num :
  cstring m a1 s -> cstring m a2 t -> (min (length s) (length t) < Z.to_nat num) ->
  Ars.ms_ncompare (Some a1) (Some a2) num m = Ars.ms_compare (Some a1) (Some a2) m.
Proof.
  intros Hs Ht Hn. rewrite (ms_ncompare_correct m a1 a2 s t), (ms_compare_refines m a1 a2 s t)
    by (done || lia). by rewrite strncmp_spec_strcmp.
Qed.

(** C23: ms_ncopy tests [src[i]] before [i != num], so it reads [src[num]].
    Its comment asks for a terminator when the source is at most [num]
    long, but [strncpy], whose behaviour the spec says it mirrors, reads
    only [num] bytes: on a source of exactly [num] non-null bytes with
    nothing after them (an unterminated [char src[num]]), [strncpy]
    succeeds while ms_ncopy reads past the array. *)
Theorem ms_ncopy_reads_src_num m d a s m' :
  read_bytes m a (length s) = Some s -> x00 ∉ s ->
  mload m (a .+ Z.of_nat (length s)) = None ->
  write_bytes m d s = Some m' ->
  disjoint d (Z.of_nat (length s)) a (Z.of_nat (length s + 1)) ->
  strncpy_spec m d s (length s) = Some m' /\
  Ars.ms_ncopy (Some d) (Some a) (Z.of_nat (length s)) m = Fault OutOfBounds.
Proof.
  intros Hr Hs Hend Hw Hd. split.
  { unfold strncpy_spec. by rewrite firstn_all, Nat.sub_diag, app_nil_r. }
  apply read_bytes_spec in Hr as [_ Hr].
  (* the source's bytes and its end are not touched by the copy *)
  assert (Hsrc : forall k, k <= length s ->
    mload (written m d s k) (a .+ Z.of_nat k) = mload m (a .+ Z.of_nat k)).
  { intros k Hk. apply (mload_written_out _ _ _ _ Hw). unfold disjoint in Hd. simpl. lia. }
  unfold Ars.ms_ncopy. run_asserts. apply bind_Fault. unfold while.
  apply (loop_count_fault _ (fun k => Z.of_nat k) (fun k => written m d s k) (length s));
    [intros k Hk| |cbv beta; change (written m d s 0) with m; by apply (write_bytes_fuel _ _ _ _ Hw)].
  - destruct (lookup_lt_is_Some_2 s k Hk) as [c Hc].
    assert (c <> x00) by (intros ->; by apply Hs, list_elem_of_lookup_2 with k).
    assert (Hl : mload (written m d s k) (a .+ Z.of_nat k) = Some c).
    { rewrite Hsrc, Hr by lia. done. }
    eapply while_step_true; [|by apply (copy_body_step _ _ _ _ m' _ _ c)].
    rewrite (andM_true _ _ _ _ (nonnul_at_true _ _ c Hl H)). apply ret_true, negb_true_iff, Z.eqb_neq. lia.
  - apply while_step_fault, andM_fault. unfold nonnul_at. apply bind_Fault, load_Fault.
    by rewrite Hsrc.
Qed.

(** C22: where [char] is signed (x86-64 System V), ms_compare subtracts
    signed [char]s, so at the first difference a byte of [0x80..0xff]
    compares below an ASCII byte (or the terminator), while [strcmp] and
    the spec, which compare unsigned code units, put it above. *)
Theorem ms_compare_signed_char m a1 a2 s t c1 c2 :
  cstring m a1 s -> cstring m a2 t ->
  s !! cpl s t = Some c1 -> (t ++ [x00]) !! cpl s t = Some c2 ->
  (128 <= byte_unsigned c1)%Z -> (byte_unsigned c2 < 128)%Z ->
  (exists v, @Ars.ms_compare x86_64_sysv (Some a1) (Some a2) m = Ok (v, m) /\ (v < 0)%Z) /\
  (0 < strcmp_iso s t)%Z.
Proof.
  intros Hs Ht H1 H2 Hc1 Hc2. unfold strcmp_iso.
  assert (E1 : nth (cpl s t) (s ++ [x00]) x00 = c1)
    by (apply nth_lookup_Some; by apply lookup_app_l_Some).
  assert (E2 : nth (cpl s t) (t ++ [x00]) x00 = c2) by by apply nth_lookup_Some.
  pose proof (byte_unsigned_range c1). pose proof (byte_unsigned_range c2).
  split; [eexists; split; [by apply ms_compare_refines|]|];
    rewrite strcmp_spec_cpl, E1, E2; unfold char_val, byte_signed; cbn;
    destruct (Z.ltb_spec (byte_unsigned c1) 128), (Z.ltb_spec (byte_unsigned c2) 128); lia.
Qed.

(** * ms_concat with one string as both destination and source *)

(** The bytes the copy loop of [ms_concat(s, s)] reads: the periodic
    extension [s[0], ..., s[n-1], s[0], ...] of [s]. *)
Definition cyc (s : list byte) (i : nat) : byte := nth (i mod length s) s x00.

(** The room left in [a]'s array after the string [s]. *)
Definition room (m : mem) (a : addr) (s : list byte) : nat :=
  Z.to_nat (blen m (ablock a) - aofs a) - length s.

Section SelfConcat.
Context (m : mem) (a : addr) (s : list byte).
Hypothesis Hs : cstring m a s.
Hypothesis Hne : s <> [].

Lemma cyc_lookup i : i < length s -> s !! i = Some (cyc s i).
  Proof.
    intros Hi. unfold cyc. rewrite Nat.mod_small by done.
    destruct (lookup_lt_is_Some_2 s i Hi) as [c Hc]. by rewrite Hc, (nth_lookup_Some _ _ _ _ Hc).
  Qed.

Lemma cyc_shift i : cyc s (length s + i) = cyc s i.
  Proof.
    unfold cyc. f_equal. rewrite <- (Nat.Div0.mod_add i 1), Nat.mul_1_l.
    f_equal. lia.
  Qed.

Lemma cyc_nonnul i : cyc s i <> x00.
  Proof.
    assert (length s <> 0) by (destruct s; simpl; [done|lia]).
    intros E. apply (proj2 Hs). rewrite <- E. unfold cyc.
    destruct (lookup_lt_is_Some_2 s (i mod length s)) as [c Hc];
      [by apply Nat.mod_upper_bound|].
    rewrite (nth_lookup_Some _ _ _ _ Hc). by apply list_elem_of_lookup_2 with (i mod length s).
  Qed.

Lemma room_pos : 0 < room m a s /\ (aofs a + Z.of_nat (length s + room m a s) = blen m (ablock a))%Z.
  Proof. pose proof (cstring_bounds _ _ _ Hs). unfold room. lia. Qed.

(** The bytes the loop writes after the string, one per round. *)
Definition self_bytes : list byte := cyc s <$> seq 0 (room m a s).

Lemma self_bytes_lookup k : k < room m a s -> self_bytes !! k = Some (cyc s k).
  Proof. intros Hk. unfold self_bytes. by rewrite list_lookup_fmap, lookup_seq_lt. Qed.

Lemma self_bytes_write : is_Some (write_bytes m (a .+ Z.of_nat (length s)) self_bytes).
  Proof.
    apply write_bytes_is_Some. unfold self_bytes. rewrite length_fmap, length_seq.
    intros k Hk. pose proof room_pos. pose proof (cstring_bounds _ _ _ Hs).
    apply mload_is_Some. simpl. lia.
  Qed.

(** After [k] rounds, byte [i < n + k] of the array is [cyc s i]. *)
Lemma self_written m' k i :
    write_bytes m (a .+ Z.of_nat (length s)) self_bytes = Some m' ->
    k <= room m a s -> i < length s + k ->
    mload (written m (a .+ Z.of_nat (length s)) self_bytes k) (a .+ Z.of_nat i)
    = Some (cyc s i).
  Proof.
    intros Hw Hk Hi. destruct (decide (i < length s)).
    - rewrite (mload_written_out _ _ _ _ Hw); [|simpl; lia].
      apply (cstring_load_lt _ _ _ _ _ Hs), cyc_lookup; lia.
    - replace (a .+ Z.of_nat i) with (a .+ Z.of_nat (length s) .+ Z.of_nat (i - length s))
        by (rewrite addr_add_add; f_equal; lia).
      rewrite (mload_write_bytes_in _ _ _ _ _ (write_bytes_take _ _ _ _ Hw k))
        by (rewrite length_take; unfold self_bytes; rewrite length_fmap, length_seq; lia).
      rewrite lookup_take_lt by lia. rewrite self_bytes_lookup by lia.
      replace i with (length s + (i - length s)) at 2 by lia. by rewrite cyc_shift.
  Qed.
End SelfConcat.

(** C25: ms_concat(s, s) on a non-empty string (source and destination the
    same array, which the spec does not exclude and [strcat] leaves
    undefined): the copy loop overwrites the terminator with [s[0]] before
    reading it, so it never meets a null byte; it fills the rest of the
    array with copies of [s] and then writes past its end. *)
Theorem ms_concat_self m a s :
  cstring m a s -> s <> [] -> Ars.ms_concat (Some a) (Some a) m = Fault OutOfBounds.
Proof.
  intros Hs Hne. unfold Ars.ms_concat. run_asserts.
  eapply bind_Ok_then; [by apply ms_length_correct|]. cbv beta.
  apply bind_Fault. unfold while.
  destruct (self_bytes_write m a s Hs) as [m' Hw].
  destruct (room_pos m a s Hs) as [Hr Hend].
  pose proof (fun k i => self_written m a s Hs m' k i Hw) as Hwr.
  assert (length s <> 0) by (destruct s; simpl; [done|lia]).
  apply (loop_count_fault _ (fun k => Z.of_nat k)
           (fun k => written m (a .+ Z.of_nat (length s)) (self_bytes m a s) k) (room m a s));
    [intros k Hk| |].
  - eapply while_step_true; [apply (nonnul_at_true _ _ (cyc s k)); [apply Hwr; lia|]|].
    + by apply (cyc_nonnul m a).
    + apply (copy_body_step _ _ _ _ m' (fun i => a .+ (Z.of_nat (length s) + i)) _ (cyc s k) Hw);
        [by rewrite addr_add_add|apply Hwr; lia|by apply self_bytes_lookup].
  - eapply while_step_body_fault;
      [apply (nonnul_at_true _ _ (cyc s (room m a s))); [apply Hwr; lia|by apply (cyc_nonnul m a)]|].
    cbv beta. eapply bind_Ok_then; [apply load_Ok, Hwr; lia|]. cbv beta.
    apply bind_Fault, store_Fault, mstore_None_out.
    rewrite (blen_write_bytes _ _ _ _ _ (write_bytes_take _ _ _ _ Hw _)). simpl. lia.
  - cbv beta. change (written _ _ _ 0) with m. unfold fuel_of, mem_fuel.
    pose proof (blen_le_mem_size m (ablock a)). pose proof (cstring_bounds _ _ _ Hs). lia.
Qed.
