(* ===== verification/MystringPtrs.v ===== *)
(** * MystringPtrs: the pointer implementation [src/src/mystring_ptrs.c]

    The same eight functions, written with moving pointers: the loop state
    is a pointer ([str_ptr], the pair [src_ptr]/[dest_ptr], [ptr1]/[ptr2],
    [haystack_ptr]) instead of an index, bounds are tested on pointer
    differences ([src_ptr - src != num]), and [ms_search] scans every
    position of the haystack with [ms_ncompare].  The file proves that seven
    of the functions behave exactly as their array-index counterparts on
    every memory and every argument, faults included, and that [ms_search]
    agrees with the array version except on an empty haystack and an empty
    needle, where it returns NULL.  It ends with the precondition faults of
    both files: a NULL argument to any of the sixteen functions stops it
    with [AssertFail]. *)

From stdpp Require Import base list.
From Stdlib Require Import ZArith Lia Strings.Byte.
From S2P Require Import Prelude Memory CSpec MystringArs.

Open Scope cs_scope.

Module Ptrs.

(** [size_t ms_length(char const *str)] *)
Definition ms_length (str : ptr) : M mem Z :=
  s <- assert_nonnull str ;;
  str_ptr <- while (fun p => nonnul_at p) (fun p => ret (p .+ 1)) s ;;
  ret (ptr_diff str_ptr s).

(** [*dest_ptr++ = *src_ptr++;] *)
Definition copy_step (sd : addr * addr) : M mem (addr * addr) :=
  c <- load sd.1 ;; store sd.2 c ;; ret (sd.1 .+ 1, sd.2 .+ 1).

(** [char *ms_copy(char *dest, char const *src)] *)
Definition ms_copy (dest src : ptr) : M mem ptr :=
  d <- assert_nonnull dest ;;
  s <- assert_nonnull src ;;
  sd <- while (fun sd => nonnul_at sd.1) copy_step (s, d) ;;
  store sd.2 x00 ;;
  ret dest.

(** [char *ms_ncopy(char *dest, char const *src, size_t num)] *)
Definition ms_ncopy (dest src : ptr) (num : Z) : M mem ptr :=
  d <- assert_nonnull dest ;;
  s <- assert_nonnull src ;;
  sd <- while (fun sd => nonnul_at sd.1 &&& ret (negb (ptr_diff sd.1 s =? num)%Z))
              copy_step (s, d) ;;
  _ <- while (fun sd => ret (negb (ptr_diff sd.1 s =? num)%Z))
             (fun sd => store sd.2 x00 ;; ret (sd.1 .+ 1, sd.2 .+ 1)) sd ;;
  ret dest.

(** [char *ms_concat(char *dest, char const *src)] *)
Definition ms_concat (dest src : ptr) : M mem ptr :=
  d <- assert_nonnull dest ;;
  s <- assert_nonnull src ;;
  l <- ms_length dest ;;
  sd <- while (fun sd => nonnul_at sd.1) copy_step (s, d .+ l) ;;
  store sd.2 x00 ;;
  ret dest.

(** [char *ms_nconcat(char *dest, char const *src, size_t num)] *)
Definition ms_nconcat (dest src : ptr) (num : Z) : M mem ptr :=
  d <- assert_nonnull dest ;;
  s <- assert_nonnull src ;;
  l <- ms_length dest ;;
  sd <- while (fun sd => nonnul_at sd.1 &&& ret (negb (ptr_diff sd.1 s =? num)%Z))
              copy_step (s, d .+ l) ;;
  store sd.2 x00 ;;
  ret dest.

(** [if ( *ptr1 != *ptr2 ) return *ptr1 - *ptr2; ptr1++; ptr2++;] *)
Definition compare_body `{CharSign} (pp : addr * addr) : M mem (addr * addr + Z) :=
  c1 <- load pp.1 ;;
  c2 <- load pp.2 ;;
  if decide (c1 = c2) then ret (inl (pp.1 .+ 1, pp.2 .+ 1))
  else ret (inr (char_val c1 - char_val c2)%Z).

(** [return *ptr1 - *ptr2;] *)
Definition char_diff_at `{CharSign} (pp : addr * addr) : M mem Z :=
  c1 <- load pp.1 ;;
  c2 <- load pp.2 ;;
  ret (char_val c1 - char_val c2)%Z.

(** [int ms_compare(char const *str1, char const *str2)] *)
Definition ms_compare `{CharSign} (str1 str2 : ptr) : M mem Z :=
  s1 <- assert_nonnull str1 ;;
  s2 <- assert_nonnull str2 ;;
  r <- while_ret (fun pp => nonnul_at pp.1 &&& nonnul_at pp.2) compare_body (s1, s2) ;;
  match r with
  | inr v => ret v
  | inl pp => char_diff_at pp
  end.

(** [int ms_ncompare(char const *str1, char const *str2, size_t num)] *)
Definition ms_ncompare `{CharSign} (str1 str2 : ptr) (num : Z) : M mem Z :=
  s1 <- assert_nonnull str1 ;;
  s2 <- assert_nonnull str2 ;;
  r <- while_ret (fun pp => nonnul_at pp.1 &&& nonnul_at pp.2
                            &&& ret (negb (ptr_diff pp.1 s1 =? num)%Z))
                 compare_body (s1, s2) ;;
  match r with
  | inr v => ret v
  | inl pp => if (ptr_diff pp.1 s1 =? num)%Z then ret 0%Z else char_diff_at pp
  end.

(** The body of the [ms_search] loop:
    [if (!ms_ncompare(haystack_ptr, needle, needle_length)) return haystack_ptr;
     haystack_ptr++;] *)
Definition search_body `{CharSign} (needle : ptr) (needle_length : Z) (hp : addr)
    : M mem (addr + ptr) :=
  v <- ms_ncompare (Some hp) needle needle_length ;;
  if (v =? 0)%Z then ret (inr (Some hp)) else ret (inl (hp .+ 1)).

(** [char *ms_search(char const *haystack, char const *needle)] *)
Definition ms_search `{CharSign} (haystack needle : ptr) : M mem ptr :=
  h <- assert_nonnull haystack ;;
  _ <- assert_nonnull needle ;;
  needle_length <- ms_length needle ;;
  haystack_length <- ms_length haystack ;;
  if (haystack_length <? needle_length)%Z then ret None else
  r <- while_ret (fun hp => nonnul_at hp) (search_body needle needle_length) h ;;
  match r with
  | inr p => ret p
  | inl _ => ret None
  end.

End Ptrs.

(** * The pointer traversals simulate the index traversals *)

(** The loop states correspond: a pointer is its start plus the index. *)
Definition at_index (s : addr) (i : Z) (p : addr) : Prop := p = s .+ i.
Definition at_index2 (s d : addr) (i : Z) (sd : addr * addr) : Prop :=
  sd = (s .+ i, d .+ i).

Lemma at_index_step s i : at_index s (i + 1) (s .+ i .+ 1).
Proof. unfold at_index. by rewrite addr_add_add. Qed.

Lemma at_index2_step s d i : at_index2 s d (i + 1) (s .+ i .+ 1, d .+ i .+ 1).
Proof. unfold at_index2. by rewrite !addr_add_add. Qed.

(** ms_length: both versions stop at the first null byte. *)
Lemma ms_length_equiv str m : Ptrs.ms_length str m = Ars.ms_length str m.
Proof.
  destruct str as [s|]; [|done]. unfold Ptrs.ms_length, Ars.ms_length. run_asserts.
  symmetry. apply out_rel_eq.
  apply (out_rel_bind_r (at_index s)).
  - apply while_sim; [|intros i p σ ->; by constructor; apply at_index_step|].
    + intros i p σ ->. by apply out_rel_refl.
    + unfold at_index. by rewrite addr_add_0.
  - intros i p σ ->. constructor. by rewrite ptr_diff_add.
Qed.

(** C16: The pointer ms_length returns the length of the string: [str_ptr]
    stops on the terminator, [length (s)] bytes after [str]. *)
Theorem ptrs_ms_length_correct m a s :
  cstring m a s -> Ptrs.ms_length (Some a) m = Ok (Z.of_nat (length s), m).
Proof.
  intros Hs. unfold Ptrs.ms_length. run_asserts.
  eapply (bind_Ok_then _ _ _ (a .+ Z.of_nat (length s)) m); [|by rewrite ptr_diff_add].
  apply (loop_count_at _ (fun k => a .+ Z.of_nat k) (fun _ => m) (length s));
    [intros k Hk| |apply addr_add_0|done|by apply (cstring_fuel _ _ _ Hs)].
  - eapply while_step_true; [by apply (cstring_nonnul_lt _ _ _ Hs)|].
    unfold ret. rewrite addr_add_add. do 3 f_equal. lia.
  - apply while_step_false, (cstring_nonnul_end _ _ _ Hs).
Qed.

Lemma at_index2_0 s d : at_index2 s d 0 (s, d).
Proof. unfold at_index2. by rewrite !addr_add_0. Qed.

Lemma at_index2_shift s d l : at_index2 s (d .+ l) 0 (s, d .+ l).
Proof. apply at_index2_0. Qed.

(** [dest[i] = src[i]; i++;] against [*dest_ptr++ = *src_ptr++;]. *)
Lemma copy_body_sim s d (dst : Z -> addr) i sd σ :
  (forall i, dst i = d .+ i) -> at_index2 s d i sd ->
  out_rel (at_index2 s d)
    ((c <- load (s .+ i) ;; store (dst i) c ;; ret (i + 1)%Z) σ)
    (Ptrs.copy_step sd σ).
Proof.
  intros Hdst ->. unfold Ptrs.copy_step. cbn [fst snd]. rewrite Hdst.
  sim_same. constructor. apply at_index2_step.
Qed.

(** [src[i]] against [*src_ptr]. *)
Lemma cond_sim s d i sd σ :
  at_index2 s d i sd -> out_rel eq (nonnul_at (s .+ i) σ) (nonnul_at sd.1 σ).
Proof. intros ->. by apply out_rel_refl. Qed.

(** [src[i] && i != num] against [*src_ptr && (src_ptr - src) != num]. *)
Lemma ncond_sim s d num i sd σ :
  at_index2 s d i sd ->
  out_rel eq ((nonnul_at (s .+ i) &&& ret (negb (i =? num)%Z)) σ)
             ((nonnul_at sd.1 &&& ret (negb (ptr_diff sd.1 s =? num)%Z)) σ).
Proof. intros ->. cbn [fst]. rewrite ptr_diff_add. by apply out_rel_refl. Qed.

(** [*dest_ptr++ = *src_ptr++] against [dest[i] = src[i]; i++]: the two
    [ms_copy] loops stay in step. *)
Lemma copy_sim dest src m : Ptrs.ms_copy dest src m = Ars.ms_copy dest src m.
Proof.
  destruct dest as [d|]; [|done]. destruct src as [s|]; [|done].
  unfold Ptrs.ms_copy, Ars.ms_copy. run_asserts. symmetry. apply out_rel_eq.
  apply (out_rel_bind (at_index2 s d)).
  - apply while_sim; [apply cond_sim|intros; by apply copy_body_sim|apply at_index2_0].
  - intros i sd σ ->. cbn [fst snd]. sim_same. by apply out_rel_refl.
Qed.

(** C10: the pointer ms_copy computes exactly what the array ms_copy does,
    on every memory and every argument, faults included: the same writes in
    the same order and the same result. *)
Theorem ms_copy_equiv dest src m : Ptrs.ms_copy dest src m = Ars.ms_copy dest src m.
Proof. apply copy_sim. Qed.

(** [src_ptr - src != num] against [i != num]: the two [ms_ncopy] copy
    loops and padding loops stay in step. *)
Lemma ncopy_sim dest src num m :
  Ptrs.ms_ncopy dest src num m = Ars.ms_ncopy dest src num m.
Proof.
  destruct dest as [d|]; [|done]. destruct src as [s|]; [|done].
  unfold Ptrs.ms_ncopy, Ars.ms_ncopy. run_asserts. symmetry. apply out_rel_eq.
  apply (out_rel_bind (at_index2 s d)).
  - apply while_sim; [apply ncond_sim|intros; by apply copy_body_sim|apply at_index2_0].
  - intros i sd σ Hi. apply (out_rel_bind (at_index2 s d)); [|by constructor].
    apply while_sim; [| |done].
    + intros j sd' σ' ->. cbn [fst]. rewrite ptr_diff_add. by apply out_rel_refl.
    + intros j sd' σ' Hj. unfold at_index2 in Hj. subst sd'. cbn [fst snd].
      sim_same. constructor. apply at_index2_step.
Qed.

(** C11: the pointer ms_ncopy, with its bound [src_ptr - src != num],
    computes exactly what the array ms_ncopy does, on every memory and
    every argument, faults included. *)
Theorem ms_ncopy_equiv dest src num m :
  Ptrs.ms_ncopy dest src num m = Ars.ms_ncopy dest src num m.
Proof. apply ncopy_sim. Qed.

(** The two [ms_concat] loops stay in step from [dest + ms_length(dest)]. *)
Lemma concat_sim dest src m : Ptrs.ms_concat dest src m = Ars.ms_concat dest src m.
Proof.
  destruct dest as [d|]; [|done]. destruct src as [s|]; [|done].
  unfold Ptrs.ms_concat, Ars.ms_concat. run_asserts.
  symmetry. apply out_rel_eq.
  apply (out_rel_bind eq); [rewrite ms_length_equiv; by apply out_rel_refl|].
  intros l ? σ <-. cbv beta.
  apply (out_rel_bind (at_index2 s (d .+ l))).
  - apply while_sim; [apply cond_sim| |apply at_index2_0].
    intros. apply (copy_body_sim s (d .+ l) (fun i => d .+ (l + i))); [|done].
    intros. by rewrite addr_add_add.
  - intros i sd σ' ->. cbn [fst snd]. rewrite addr_add_add. sim_same.
    by apply out_rel_refl.
Qed.

(** C12: the pointer ms_concat computes exactly what the array ms_concat
    does, on every memory and every argument, faults included. *)
Theorem ms_concat_equiv dest src m : Ptrs.ms_concat dest src m = Ars.ms_concat dest src m.
Proof. apply concat_sim. Qed.

(** The two [ms_nconcat] loops stay in step from [dest + ms_length(dest)]. *)
Lemma nconcat_sim dest src num m :
  Ptrs.ms_nconcat dest src num m = Ars.ms_nconcat dest src num m.
Proof.
  destruct dest as [d|]; [|done]. destruct src as [s|]; [|done].
  unfold Ptrs.ms_nconcat, Ars.ms_nconcat. run_asserts.
  symmetry. apply out_rel_eq.
  apply (out_rel_bind eq); [rewrite ms_length_equiv; by apply out_rel_refl|].
  intros l ? σ <-. cbv beta.
  apply (out_rel_bind (at_index2 s (d .+ l))).
  - apply while_sim; [apply ncond_sim| |apply at_index2_0].
    intros. apply (copy_body_sim s (d .+ l) (fun i => d .+ (l + i))); [|done].
    intros. by rewrite addr_add_add.
  - intros i sd σ' ->. cbn [fst snd]. rewrite addr_add_add. sim_same.
    by apply out_rel_refl.
Qed.

(** C13: the pointer ms_nconcat computes exactly what the array ms_nconcat
    does, on every memory and every argument, faults included. *)
Theorem ms_nconcat_equiv dest src num m :
  Ptrs.ms_nconcat dest src num m = Ars.ms_nconcat dest src num m.
Proof. apply nconcat_sim. Qed.

Section CompareSim.
Context `{CharSign}.

(** One round of the comparison loops, indices against pointers. *)
Lemma compare_body_sim s1 s2 i pp σ :
    at_index2 s1 s2 i pp ->
    out_rel (sum_rel (at_index2 s1 s2) eq)
      (Ars.compare_body s1 s2 i σ) (Ptrs.compare_body pp σ).
  Proof.
    intros ->. unfold Ars.compare_body, Ptrs.compare_body. cbn [fst snd]. sim_same.
    case_decide; constructor; constructor; [apply at_index2_step|done].
  Qed.

(** What follows the loop: [return str1[i] - str2[i]] or the early result. *)
Lemma compare_exit_sim s1 s2 (k1 : Z -> M mem Z) (k2 : addr * addr -> M mem Z) r1 r2 σ :
    (forall i σ, k1 i σ = k2 (s1 .+ i, s2 .+ i) σ) ->
    sum_rel (at_index2 s1 s2) eq r1 r2 ->
    out_rel eq ((match r1 with inr v => ret v | inl i => k1 i end) σ)
               ((match r2 with inr v => ret v | inl pp => k2 pp end) σ).
  Proof.
    intros Hk [i pp Hi|v w <-]; [|by apply out_rel_refl].
    unfold at_index2 in Hi. subst pp. rewrite Hk. by apply out_rel_refl.
  Qed.
End CompareSim.

(** [ptr1]/[ptr2] against [str1[i]]/[str2[i]]: the two [ms_compare] loops
    stay in step, and so do their exits. *)
Lemma compare_sim `{CharSign} str1 str2 m :
  Ptrs.ms_compare str1 str2 m = Ars.ms_compare str1 str2 m.
Proof.
  destruct str1 as [s1|]; [|done]. destruct str2 as [s2|]; [|done].
  unfold Ptrs.ms_compare, Ars.ms_compare. run_asserts. symmetry. apply out_rel_eq.
  apply (out_rel_bind (sum_rel (at_index2 s1 s2) eq)).
  - apply while_ret_sim; [|apply compare_body_sim|apply at_index2_0].
    intros i pp σ ->. by apply out_rel_refl.
  - intros r1 r2 σ Hr. by apply (compare_exit_sim s1 s2).
Qed.

(** C14: the pointer ms_compare computes exactly what the array ms_compare
    does, on every memory and every argument, faults included. *)
Theorem ms_compare_equiv `{CharSign} str1 str2 m :
  Ptrs.ms_compare str1 str2 m = Ars.ms_compare str1 str2 m.
Proof. apply compare_sim. Qed.

(** [ptr1 - str1 != num] against [i != num]: the two [ms_ncompare] loops
    stay in step, and so do their exits. *)
Lemma ncompare_sim `{CharSign} str1 str2 num m :
  Ptrs.ms_ncompare str1 str2 num m = Ars.ms_ncompare str1 str2 num m.
Proof.
  destruct str1 as [s1|]; [|done]. destruct str2 as [s2|]; [|done].
  unfold Ptrs.ms_ncompare, Ars.ms_ncompare. run_asserts. symmetry. apply out_rel_eq.
  apply (out_rel_bind (sum_rel (at_index2 s1 s2) eq)).
  - apply while_ret_sim; [|apply compare_body_sim|apply at_index2_0].
    intros i pp σ ->. cbn [fst]. rewrite ptr_diff_add. by apply out_rel_refl.
  - intros r1 r2 σ Hr. apply (compare_exit_sim s1 s2); [|done].
    intros i σ'. cbn [fst]. by rewrite ptr_diff_add.
Qed.

(** C15: the pointer ms_ncompare, with its bound [ptr1 - str1 != num],
    computes exactly what the array ms_ncompare does, on every memory and
    every argument, faults included. *)
Theorem ms_ncompare_equiv `{CharSign} str1 str2 num m :
  Ptrs.ms_ncompare str1 str2 num m = Ars.ms_ncompare str1 str2 num m.
Proof. apply ncompare_sim. Qed.

(** * The pointer [ms_search] *)

(** [ms_ncompare(haystack_ptr, needle, needle_length)] at position [k]. *)
Lemma ncompare_at `{CharSign} m h hs n ns k :
  cstring m h hs -> cstring m n ns -> k <= length hs ->
  Ptrs.ms_ncompare (Some (h .+ Z.of_nat k)) (Some n) (Z.of_nat (length ns)) m
  = Ok (strncmp_spec (length ns) (drop k hs) ns, m).
Proof.
  intros Hh Hn Hk. rewrite ncompare_sim,
    (ms_ncompare_correct m (h .+ Z.of_nat k) n (drop k hs) ns); [|by apply cstring_drop|done|lia].
  by rewrite Nat2Z.id.
Qed.

(** One round of the loop at a position [k] inside the haystack: it returns
    [haystack_ptr] exactly when the needle starts there. *)
Lemma search_body_at `{CharSign} m h hs n ns k :
  cstring m h hs -> cstring m n ns -> k < length hs ->
  Ptrs.search_body (Some n) (Z.of_nat (length ns)) (h .+ Z.of_nat k) m
  = Ok (if decide (ns `prefix_of` drop k hs) then inr (Some (h .+ Z.of_nat k))
        else inl (h .+ Z.of_nat (S k)), m).
Proof.
  intros Hh Hn Hk. unfold Ptrs.search_body.
  eapply bind_Ok_then; [apply ncompare_at; done || lia|].
  assert (x00 ∉ drop k hs) as Hd.
  { intros Hin. apply (proj2 Hh). rewrite <- (take_drop k hs). apply elem_of_app. by right. }
  pose proof (strncmp_spec_prefix (drop k hs) ns Hd (proj2 Hn)) as Hp.
  case_decide as Hc; [by rewrite (proj2 Hp Hc)|].
  rewrite (proj2 (Z.eqb_neq _ _)) by tauto. rewrite addr_add_add.
  unfold ret. do 5 f_equal. lia.
Qed.

(** The two [ms_length] calls of the pointer [ms_search]. *)
Lemma ptrs_search_lengths `{CharSign} m h hs n ns (k : Z -> Z -> M mem ptr) :
  cstring m h hs -> cstring m n ns ->
  (nl <- Ptrs.ms_length (Some n) ;; hl <- Ptrs.ms_length (Some h) ;; k nl hl) m
  = k (Z.of_nat (length ns)) (Z.of_nat (length hs)) m.
Proof.
  intros Hh Hn.
  eapply bind_Ok_then; [rewrite ms_length_equiv; by apply ms_length_correct|].
  eapply bind_Ok_then; [rewrite ms_length_equiv; by apply ms_length_correct|]. done.
Qed.

(** The pointer [ms_search] computes [strstr] when the haystack or the
    needle is non-empty: [haystack_ptr] visits the positions in order, each
    with [search_body_at]. *)
Lemma ptrs_search_refines `{CharSign} m h hs n ns :
  cstring m h hs -> cstring m n ns -> (hs <> [] \/ ns <> []) ->
  Ptrs.ms_search (Some h) (Some n) m
  = Ok ((fun p => h .+ Z.of_nat p) <$> strstr_spec hs ns, m).
Proof.
  intros Hh Hn Hne. unfold Ptrs.ms_search. run_asserts.
  rewrite (ptrs_search_lengths m h hs n ns) by done.
  destruct (Z.ltb_spec (Z.of_nat (length hs)) (Z.of_nat (length ns))) as [Hlt|Hge].
  { rewrite strstr_spec_long by lia. done. }
  pose proof (cstring_fuel _ _ _ Hh).
  destruct (strstr_spec hs ns) as [p|] eqn:Hs; simpl.
  - pose proof (strstr_spec_lt _ _ _ Hs Hne) as Hpl.
    apply strstr_spec_Some in Hs as [Hp Hmin].
    eapply (bind_Ok_then _ _ _ (inr (Some (h .+ Z.of_nat p))) m); [|reflexivity].
    apply (loop_count_at _ (fun k => h .+ Z.of_nat k) (fun _ => m) p);
      [intros k Hk| |apply addr_add_0|done|lia].
    + eapply while_ret_step_cont; [by apply (cstring_nonnul_lt _ _ _ Hh); lia|].
      rewrite (search_body_at m h hs n ns) by (done || lia).
      rewrite decide_False; [done|]. apply Hmin. lia.
    + eapply while_ret_step_return; [by apply (cstring_nonnul_lt _ _ _ Hh)|].
      rewrite (search_body_at m h hs n ns) by (done || lia). by rewrite decide_True.
  - rewrite strstr_spec_None in Hs.
    eapply (bind_Ok_then _ _ _ (inl (h .+ Z.of_nat (length hs))) m); [|reflexivity].
    apply (loop_count_at _ (fun k => h .+ Z.of_nat k) (fun _ => m) (length hs));
      [intros k Hk| |apply addr_add_0|done|lia].
    + eapply while_ret_step_cont; [by apply (cstring_nonnul_lt _ _ _ Hh)|].
      rewrite (search_body_at m h hs n ns) by (done || lia).
      rewrite decide_False; [done|]. apply Hs. lia.
    + apply while_ret_step_false. by apply (cstring_nonnul_end _ _ _ Hh).
Qed.

(** C8: Outside the empty-haystack, empty-needle case, the pointer ms_search
    returns the first occurrence of the needle, as [strstr]. *)
Theorem ptrs_ms_search_correct `{CharSign} m h hs n ns :
  cstring m h hs -> cstring m n ns -> (hs <> [] \/ ns <> []) ->
  exists r, Ptrs.ms_search (Some h) (Some n) m = Ok (r, m) /\
  match r with
  | Some p => exists i, p = h .+ Z.of_nat i /\ ns `prefix_of` drop i hs /\
                        forall j, j < i -> ~ ns `prefix_of` drop j hs
  | None => forall j, j <= length hs -> ~ ns `prefix_of` drop j hs
  end.
Proof.
  intros Hh Hn Hne. pose proof (ptrs_search_refines m h hs n ns Hh Hn Hne) as Hrun.
  eexists. split; [exact Hrun|].
  destruct (strstr_spec hs ns) as [i|] eqn:E; simpl.
  - exists i. split; [done|]. by apply strstr_spec_Some.
  - by apply strstr_spec_None.
Qed.

(** C9: On an empty haystack and an empty needle the pointer ms_search returns
    NULL: its loop [while ( *haystack_ptr )] runs no round, while the array
    version (and [strstr]) return the haystack. *)
Theorem ptrs_ms_search_empty `{CharSign} m h n :
  cstring m h [] -> cstring m n [] ->
  Ptrs.ms_search (Some h) (Some n) m = Ok (None, m) /\
  Ars.ms_search (Some h) (Some n) m = Ok (Some h, m).
Proof.
  intros Hh Hn. pose proof (cstring_fuel _ _ _ Hh). split.
  - unfold Ptrs.ms_search. run_asserts.
    rewrite (ptrs_search_lengths m h [] n []) by done. simpl.
    eapply (bind_Ok_then _ _ _ (inl (h .+ Z.of_nat 0)) m); [|reflexivity].
    apply (loop_count_at _ (fun k => h .+ Z.of_nat k) (fun _ => m) 0);
      [lia| |apply addr_add_0|done|simpl in *; lia].
    apply while_ret_step_false. by apply (cstring_nonnul_end _ _ [] Hh).
  - unfold Ars.ms_search. run_asserts.
    eapply bind_Ok_then; [by apply (ms_length_correct _ _ [])|].
    eapply bind_Ok_then; [by apply (ms_length_correct _ _ [])|]. simpl.
    eapply (bind_Ok_then _ _ _ (inr (Some h)) m); [|reflexivity].
    apply (while_ret_index _ _ _ 0); [lia| |simpl in *; lia].
    eapply while_ret_step_return; [done|].
    pose proof (search_step_correct m h [] n [] 0 Hh Hn ltac:(simpl; lia)) as E.
    rewrite decide_True, addr_add_0 in E by apply prefix_nil. exact E.
Qed.

(** * The precondition faults *)

(** C19: a NULL argument to any function of either file is the precondition
    fault [AssertFail], raised by its [assert]s before any access. *)
Theorem null_args_fault `{CharSign} (p q : ptr) num σ :
  p = None \/ q = None ->
  Ars.ms_copy p q σ = Fault AssertFail /\ Ars.ms_ncopy p q num σ = Fault AssertFail /\
  Ars.ms_concat p q σ = Fault AssertFail /\ Ars.ms_nconcat p q num σ = Fault AssertFail /\
  Ars.ms_compare p q σ = Fault AssertFail /\ Ars.ms_ncompare p q num σ = Fault AssertFail /\
  Ars.ms_search p q σ = Fault AssertFail /\ Ars.ms_length None σ = Fault AssertFail /\
  Ptrs.ms_copy p q σ = Fault AssertFail /\ Ptrs.ms_ncopy p q num σ = Fault AssertFail /\
  Ptrs.ms_concat p q σ = Fault AssertFail /\ Ptrs.ms_nconcat p q num σ = Fault AssertFail /\
  Ptrs.ms_compare p q σ = Fault AssertFail /\ Ptrs.ms_ncompare p q num σ = Fault AssertFail /\
  Ptrs.ms_search p q σ = Fault AssertFail /\ Ptrs.ms_length None σ = Fault AssertFail.
Proof. intros [->| ->]; [|destruct p]; split_and!; reflexivity. Qed.
