(* ===== verification/Faults.v ===== *)
(** * Faults: the precondition check, and termination of every loop

    Spec section 7 recognises one error, the precondition fault on a NULL
    argument, raised before any access; everything else either completes
    or is undefined behaviour (an access outside its object, modelled as
    [OutOfBounds]).  [MystringPtrs] shows that a NULL argument raises
    [AssertFail] in both implementations (C19); this file proves that on
    non-NULL arguments a call returns or stops with [OutOfBounds]: in
    particular it never stops on the model's loop bound [OutOfFuel].

    Termination: every loop of both files scans one array.  Each round that
    continues has read or written the byte at a position that then moves
    one byte forward, inside an object whose size stores do not change; so
    the rounds are at most the size of that object, below the fuel
    [mem_size m + 1] a loop is given ([loop_scan_terminates]); [scans pos
    step] states this of the rounds [step].  The rounds of the two
    [ms_search] loops, each of which runs a whole inner comparison, are
    named [search_round] and [psearch_round] and shown to scan the haystack.
    The fuel-bounded loops of the model therefore compute what the C loops
    compute. *)

From stdpp Require Import base list gmap.
From Stdlib Require Import ZArith Lia Strings.Byte.
From S2P Require Import Prelude Memory CSpec MystringArs MystringPtrs.

Open Scope cs_scope.

(** The outcome of a call that returns, or stops on an out-of-bounds
    access (undefined behaviour in C): neither the precondition fault nor
    the model's loop bound. *)
Definition oob_only {A} (o : outcome A) : Prop := faults_in (fun e => e = OutOfBounds) o.

(** The continuing rounds of a loop each touch the byte at [pos s] and move
    [pos] one byte forward, without resizing objects. *)
Definition scans {St R} (pos : St -> addr) (step : St -> M mem (St + R)) : Prop :=
  forall s σ s' σ', step s σ = Ok (inl s', σ') ->
  pos s' = pos s .+ 1 /\ is_Some (mload σ (pos s)) /\ forall b, blen σ' b = blen σ b.

(** A loop that scans never runs out of fuel. *)
Lemma loop_scan_terminates {St R} (pos : St -> addr) (step : St -> M mem (St + R)) :
  (forall s σ, step s σ <> Fault OutOfFuel) -> scans pos step ->
  forall s σ, loop step s σ <> Fault OutOfFuel.
Proof.
  intros Hnf Hstep s σ. unfold loop.
  apply (loop_fuel_terminates _
    (fun s σ => Z.to_nat (blen σ (ablock (pos s)) - Z.max 0 (aofs (pos s))))); [done| |].
  - intros s0 σ0 s' σ' Hs. destruct (Hstep _ _ _ _ Hs) as (Hp & Hl%mload_is_Some & Hb).
    rewrite Hp, Hb. simpl. lia.
  - pose proof (blen_le_mem_size σ (ablock (pos s))). unfold fuel_of, mem_fuel. lia.
Qed.

(** Such a loop, with rounds that can only fault out of bounds, can only
    fault out of bounds. *)
Lemma loop_scan_safe {St R} (pos : St -> addr) (step : St -> M mem (St + R)) :
  (forall s σ, oob_only (step s σ)) -> scans pos step ->
  forall s σ, oob_only (loop step s σ).
Proof.
  intros Hf Hstep s σ e He.
  assert (Hnf : loop step s σ <> Fault OutOfFuel).
  { apply (loop_scan_terminates pos); [|done]. intros s0 σ0 E. by specialize (Hf _ _ _ E). }
  unfold loop in He, Hnf. pose proof He as He'.
  apply loop_fuel_fault_inv in He as [->|(s' & σ' & E)]; [done|]. by apply (Hf s' σ').
Qed.

(** Case analysis on every access of one round. *)
Ltac unfold_round :=
  unfold while_step, while_ret_step, bind, andM, nonnul_at, load, store, ret in *;
  cbv beta in *.

Ltac step_cases :=
  unfold_round;
  repeat (match goal with
          | |- context [match ?x with _ => _ end] => destruct x eqn:?
          | H : context [match ?x with _ => _ end] |- _ => destruct x eqn:?
          end; simplify_eq/=; unfold_round).

(** Close the two side conditions of [loop_scan_terminates] for a loop
    whose rounds only read and write memory. *)
Ltac scan_round :=
  first
    [ intros ?? ??; by step_cases
    | intros ???? ?; step_cases;
      split_and!;
      [ by autorewrite with cs_rw
      | by eauto with cs
      | intros ?; repeat (erewrite blen_mstore by eassumption); done ] ].

Ltac scan_loop pos := apply (loop_scan_safe pos); scan_round.

Ltac straight := intros ??; by step_cases.

Lemma ars_length_total a σ : oob_only (Ars.ms_length (Some a) σ).
Proof.
  unfold Ars.ms_length. run_asserts.
  unfold while. scan_loop (fun i : Z => a .+ i).
Qed.

Lemma ars_copy_total d a σ : oob_only (Ars.ms_copy (Some d) (Some a) σ).
Proof.
  unfold Ars.ms_copy. run_asserts.
  apply bind_faults_in; [unfold while; scan_loop (fun i : Z => a .+ i)|].
  intros i σ' _. straight.
Qed.

Lemma ars_ncopy_total d a num σ : oob_only (Ars.ms_ncopy (Some d) (Some a) num σ).
Proof.
  unfold Ars.ms_ncopy. run_asserts.
  apply bind_faults_in; [unfold while; scan_loop (fun i : Z => a .+ i)|].
  intros i σ' _. apply bind_faults_in; [unfold while; scan_loop (fun i : Z => d .+ i)|].
  intros. straight.
Qed.

Lemma ars_concat_total d a σ : oob_only (Ars.ms_concat (Some d) (Some a) σ).
Proof.
  unfold Ars.ms_concat. run_asserts.
  apply bind_faults_in; [apply ars_length_total|]. intros l σ1 _.
  apply bind_faults_in; [unfold while; scan_loop (fun i : Z => a .+ i)|].
  intros i σ' _. straight.
Qed.

Lemma ars_nconcat_total d a num σ : oob_only (Ars.ms_nconcat (Some d) (Some a) num σ).
Proof.
  unfold Ars.ms_nconcat. run_asserts.
  apply bind_faults_in; [apply ars_length_total|]. intros l σ1 _.
  apply bind_faults_in; [unfold while; scan_loop (fun i : Z => a .+ i)|].
  intros i σ' _. straight.
Qed.

Lemma ars_compare_total `{CharSign} a1 a2 σ : oob_only (Ars.ms_compare (Some a1) (Some a2) σ).
Proof.
  unfold Ars.ms_compare. run_asserts.
  apply bind_faults_in.
  - unfold while_ret, Ars.compare_cond, Ars.compare_body. scan_loop (fun i : Z => a1 .+ i).
  - intros [i|v] σ' _; [unfold Ars.char_diff_at|]; straight.
Qed.

Lemma ars_ncompare_total `{CharSign} a1 a2 num σ : oob_only (Ars.ms_ncompare (Some a1) (Some a2) num σ).
Proof.
  unfold Ars.ms_ncompare. run_asserts.
  apply bind_faults_in.
  - unfold while_ret, Ars.ncompare_cond, Ars.compare_cond, Ars.compare_body.
    scan_loop (fun i : Z => a1 .+ i).
  - intros [i|v] σ' _; [unfold Ars.char_diff_at|]; straight.
Qed.

(** [ms_length] counts from 0. *)
Lemma ars_length_nonneg p σ n σ' : Ars.ms_length p σ = Ok (n, σ') -> (0 <= n)%Z.
Proof.
  destruct p as [a|]; [|done]. unfold Ars.ms_length. run_asserts.
  intros H. eapply (while_invariant (fun i : Z => 0 <= i)%Z); [|done|exact H].
  intros i σ0 i' σ1 Hi [= <- _]. lia.
Qed.

(** [ms_length] only reads. *)
Lemma ars_length_readonly p σ n σ' : Ars.ms_length p σ = Ok (n, σ') -> σ' = σ.
Proof.
  destruct p as [a|]; [|done]. unfold Ars.ms_length. run_asserts.
  unfold while, loop. apply loop_fuel_readonly. intros; by step_cases.
Qed.

Lemma search_inner_total h n nl i σ : oob_only (Ars.search_inner h n nl i σ).
Proof.
  unfold Ars.search_inner. apply bind_faults_in; [|intros; straight].
  unfold while_ret. scan_loop (fun j : Z => n .+ j).
Qed.

(** The inner loop of [ms_search] only reads; with a non-empty needle its
    first round reads [haystack[i]], with an empty one it returns 0. *)
Lemma search_inner_readonly h n nl i σ j σ' :
  Ars.search_inner h n nl i σ = Ok (j, σ') ->
  σ' = σ /\ ((0 < nl)%Z -> is_Some (mload σ (h .+ i))) /\ ((nl <= 0)%Z -> j = 0%Z).
Proof.
  unfold Ars.search_inner, while_ret, loop, bind at 1. cbv beta.
  destruct (loop_fuel _ _ _ σ) as [[r σ1]|] eqn:E; [|done]. intros [= Hj <-].
  split; [revert E; apply loop_fuel_readonly; intros; by step_cases|].
  revert E. unfold fuel_of, mem_fuel. cbn [loop_fuel].
  split; intros Hnl; step_cases; intros; simplify_eq; try done;
    first [rewrite Z.ltb_ge in *; lia | rewrite Z.ltb_lt in *; lia
          | rewrite ?Z.add_0_l in *; by eexists].
Qed.

(** The outer loop of [ms_search]: [for (i = 0U; i <= haystack_length -
    needle_length; i++)], whose round runs the inner loop. *)
Definition search_round (h n : addr) (hl nl : Z) : Z -> M mem (Z + (Z + ptr)) :=
  while_ret_step (fun i => ret (i <=? size_sub hl nl)%Z) (Ars.search_step h n nl).

Lemma search_round_safe h n hl nl i σ : oob_only (search_round h n hl nl i σ).
Proof.
  intros e. unfold search_round, while_ret_step, Ars.search_step, bind, ret. cbv beta.
  destruct (_ <=? _)%Z; [|done].
  destruct (Ars.search_inner h n nl i σ) as [[j σ']|f] eqn:E.
  - by destruct (j =? nl)%Z.
  - intros [= <-]. by apply (search_inner_total h n nl i σ).
Qed.

(** With a needle length [nl >= 0] the outer loop scans the haystack. *)
Lemma search_round_scans h n hl nl :
  (0 <= nl)%Z -> scans (fun i : Z => h .+ i) (search_round h n hl nl).
Proof.
  intros Hnl i σ0 i' σ'. unfold search_round, while_ret_step, Ars.search_step, bind, ret. cbv beta.
  destruct (_ <=? _)%Z; [|done].
  destruct (Ars.search_inner h n nl i σ0) as [[j σ3]|] eqn:E; [|done].
  apply search_inner_readonly in E as (-> & Hr & H0).
  destruct (Z.eqb_spec j nl) as [->|Hj]; [done|]. intros [= <- <-].
  split_and!; [by rewrite addr_add_add|apply Hr|done].
  destruct (Z.lt_ge_cases 0 nl); [done|]. exfalso. apply Hj. rewrite H0; lia.
Qed.

(** [ms_search]: both loops scan, the outer one the haystack. *)
Lemma ars_search_total h n σ : oob_only (Ars.ms_search (Some h) (Some n) σ).
Proof.
  unfold Ars.ms_search. run_asserts.
  apply bind_faults_in; [apply ars_length_total|]. intros hl σ1 _.
  apply bind_faults_in; [apply ars_length_total|]. intros nl σ2 Hnl.
  apply ars_length_nonneg in Hnl. destruct (hl <? nl)%Z; [by intros ?|].
  apply bind_faults_in; [|intros [] ? _; by intros ?].
  apply (loop_scan_safe (fun i : Z => h .+ i) (search_round h n hl nl));
    [apply search_round_safe|by apply search_round_scans].
Qed.

(** ** The pointer implementation *)

Lemma ptrs_length_total a σ : oob_only (Ptrs.ms_length (Some a) σ).
Proof.
  unfold Ptrs.ms_length. run_asserts.
  apply bind_faults_in; [|intros; straight].
  unfold while. scan_loop (fun p : addr => p).
Qed.

Lemma ptrs_copy_total d a σ : oob_only (Ptrs.ms_copy (Some d) (Some a) σ).
Proof.
  unfold Ptrs.ms_copy. run_asserts.
  apply bind_faults_in; [|intros; straight].
  unfold while, Ptrs.copy_step. scan_loop (fun sd : addr * addr => sd.1).
Qed.

Lemma ptrs_ncopy_total d a num σ : oob_only (Ptrs.ms_ncopy (Some d) (Some a) num σ).
Proof.
  unfold Ptrs.ms_ncopy. run_asserts.
  apply bind_faults_in;
    [unfold while, Ptrs.copy_step; scan_loop (fun sd : addr * addr => sd.1)|].
  intros sd σ' _. apply bind_faults_in; [|intros; straight].
  unfold while. scan_loop (fun sd : addr * addr => sd.2).
Qed.

Lemma ptrs_concat_total d a σ : oob_only (Ptrs.ms_concat (Some d) (Some a) σ).
Proof.
  unfold Ptrs.ms_concat. run_asserts.
  apply bind_faults_in; [apply ptrs_length_total|]. intros l σ1 _.
  apply bind_faults_in; [|intros; straight].
  unfold while, Ptrs.copy_step. scan_loop (fun sd : addr * addr => sd.1).
Qed.

Lemma ptrs_nconcat_total d a num σ : oob_only (Ptrs.ms_nconcat (Some d) (Some a) num σ).
Proof.
  unfold Ptrs.ms_nconcat. run_asserts.
  apply bind_faults_in; [apply ptrs_length_total|]. intros l σ1 _.
  apply bind_faults_in; [|intros; straight].
  unfold while, Ptrs.copy_step. scan_loop (fun sd : addr * addr => sd.1).
Qed.

Lemma ptrs_compare_total `{CharSign} a1 a2 σ : oob_only (Ptrs.ms_compare (Some a1) (Some a2) σ).
Proof.
  unfold Ptrs.ms_compare. run_asserts.
  apply bind_faults_in.
  - unfold while_ret, Ptrs.compare_body. scan_loop (fun pp : addr * addr => pp.1).
  - intros [pp|v] σ' _; [unfold Ptrs.char_diff_at|]; straight.
Qed.

Lemma ptrs_ncompare_total `{CharSign} a1 a2 num σ : oob_only (Ptrs.ms_ncompare (Some a1) (Some a2) num σ).
Proof.
  unfold Ptrs.ms_ncompare. run_asserts.
  apply bind_faults_in.
  - unfold while_ret, Ptrs.compare_body. scan_loop (fun pp : addr * addr => pp.1).
  - intros [pp|v] σ' _; [unfold Ptrs.char_diff_at|]; straight.
Qed.

(** [ms_ncompare] only reads. *)
Lemma ptrs_ncompare_readonly `{CharSign} p q num σ v σ' :
  Ptrs.ms_ncompare p q num σ = Ok (v, σ') -> σ' = σ.
Proof.
  destruct p as [a1|]; [|done]. destruct q as [a2|]; [|done].
  unfold Ptrs.ms_ncompare. run_asserts. unfold while_ret, loop, bind at 1. cbv beta.
  destruct (loop_fuel _ _ _ σ) as [[r σ1]|] eqn:E; [|done].
  assert (σ1 = σ) as ->.
  { revert E. apply loop_fuel_readonly. intros. unfold Ptrs.compare_body in *. by step_cases. }
  clear E. intros Hr. destruct r as [pp|w]; [|by injection Hr]. unfold Ptrs.char_diff_at in *. by step_cases.
Qed.

(** The loop of the pointer [ms_search]: [while ( *haystack_ptr)] around
    [search_body]. *)
Definition psearch_round `{CharSign} (needle : ptr) (nl : Z) : addr -> M mem (addr + (addr + ptr)) :=
  while_ret_step (fun hp => nonnul_at hp) (Ptrs.search_body needle nl).

Lemma psearch_round_safe `{CharSign} n nl hp σ : oob_only (psearch_round (Some n) nl hp σ).
Proof.
  intros e. unfold psearch_round, while_ret_step, Ptrs.search_body, nonnul_at, load, bind, ret.
  cbv beta. destruct (mload σ hp); [|by intros [= <-]]. cbv beta. destruct (negb _); [|done].
  destruct (Ptrs.ms_ncompare _ _ _ σ) as [[v σ']|f] eqn:E.
  - by destruct (v =? 0)%Z.
  - intros [= <-]. by apply (ptrs_ncompare_total hp n nl σ).
Qed.

Lemma psearch_round_scans `{CharSign} needle nl :
  scans (fun hp : addr => hp) (psearch_round needle nl).
Proof.
  intros hp σ0 hp' σ'. unfold psearch_round, while_ret_step, Ptrs.search_body, nonnul_at, load, bind, ret.
  cbv beta. destruct (mload σ0 hp) eqn:Hl; [|done]. cbv beta. destruct (negb _); [|done].
  destruct (Ptrs.ms_ncompare _ _ _ σ0) as [[v σ3]|] eqn:E; [|done].
  apply ptrs_ncompare_readonly in E as ->.
  destruct (v =? 0)%Z; [done|]. intros [= <- <-]. split_and!; by eauto.
Qed.

Lemma ptrs_search_total `{CharSign} h n σ : oob_only (Ptrs.ms_search (Some h) (Some n) σ).
Proof.
  unfold Ptrs.ms_search. run_asserts.
  apply bind_faults_in; [apply ptrs_length_total|]. intros nl σ1 _.
  apply bind_faults_in; [apply ptrs_length_total|]. intros hl σ2 _.
  destruct (hl <? nl)%Z; [by intros ?|].
  apply bind_faults_in; [|intros [] ? _; by intros ?].
  apply (loop_scan_safe (fun hp : addr => hp) (psearch_round (Some n) nl));
    [apply psearch_round_safe|apply psearch_round_scans].
Qed.


(** * The error behaviour of the library *)

(** C17: on non-NULL arguments every function of [mystring_ars.c] returns
    or stops on an out-of-bounds access, whatever the memory: it never
    raises the precondition fault and never reaches the loop bound. *)
Theorem ars_oob_only `{CharSign} d a num σ :
  oob_only (Ars.ms_length (Some a) σ) /\
  oob_only (Ars.ms_copy (Some d) (Some a) σ) /\
  oob_only (Ars.ms_ncopy (Some d) (Some a) num σ) /\
  oob_only (Ars.ms_concat (Some d) (Some a) σ) /\
  oob_only (Ars.ms_nconcat (Some d) (Some a) num σ) /\
  oob_only (Ars.ms_compare (Some d) (Some a) σ) /\
  oob_only (Ars.ms_ncompare (Some d) (Some a) num σ) /\
  oob_only (Ars.ms_search (Some d) (Some a) σ).
Proof.
  split_and!; auto using ars_length_total, ars_copy_total, ars_ncopy_total,
    ars_concat_total, ars_nconcat_total, ars_compare_total, ars_ncompare_total,
    ars_search_total.
Qed.

(** C18: the same for [mystring_ptrs.c]. *)
Theorem ptrs_oob_only `{CharSign} d a num σ :
  oob_only (Ptrs.ms_length (Some a) σ) /\
  oob_only (Ptrs.ms_copy (Some d) (Some a) σ) /\
  oob_only (Ptrs.ms_ncopy (Some d) (Some a) num σ) /\
  oob_only (Ptrs.ms_concat (Some d) (Some a) σ) /\
  oob_only (Ptrs.ms_nconcat (Some d) (Some a) num σ) /\
  oob_only (Ptrs.ms_compare (Some d) (Some a) σ) /\
  oob_only (Ptrs.ms_ncompare (Some d) (Some a) num σ) /\
  oob_only (Ptrs.ms_search (Some d) (Some a) σ).
Proof.
  split_and!; auto using ptrs_length_total, ptrs_copy_total, ptrs_ncopy_total,
    ptrs_concat_total, ptrs_nconcat_total, ptrs_compare_total, ptrs_ncompare_total,
    ptrs_search_total.
Qed.
