(* ===== verification/Steps.v ===== *)
(** * Steps: the loop of [ms_length] as a transition system

    The model runs each C loop with [loop], a fuel-bounded interpreter.  A
    loop is also a transition system: its configurations are a loop state
    and a memory, its transitions ([round]) the rounds of the body that
    continue, and a configuration [stops] with the outcome of a round that
    leaves the loop or faults; both relations are deterministic.  On it the
    rounds of a loop can be counted: the loop of [ms_length], in both files,
    takes one round per character of its string and then stops (C34). *)

From stdpp Require Import base list relations gmap.
From Stdlib Require Import ZArith Lia Strings.Byte.
From S2P Require Import Prelude Memory CSpec MystringArs MystringPtrs Faults.

Open Scope cs_scope.

(** ** Rounds and stops *)

Section Rounds.
Context {Σ St R : Type} (body : St -> M Σ (St + R)).

(** A round of the loop that continues with a new state. *)
Inductive round : St * Σ -> St * Σ -> Prop :=
  | round_cont s σ s' σ' : body s σ = Ok (inl s', σ') -> round (s, σ) (s', σ').

(** A configuration whose round leaves the loop, or faults. *)
Inductive stops : St * Σ -> outcome (R * Σ) -> Prop :=
  | stops_exit s σ r σ' : body s σ = Ok (inr r, σ') -> stops (s, σ) (Ok (r, σ'))
  | stops_fault s σ e : body s σ = Fault e -> stops (s, σ) (Fault e).

Lemma round_det c c1 c2 : round c c1 -> round c c2 -> c1 = c2.
Proof. intros [] H2; inversion H2; congruence. Qed.

Lemma stops_det c o1 o2 : stops c o1 -> stops c o2 -> o1 = o2.
Proof. intros [] H2; inversion H2; congruence. Qed.

Lemma stops_no_round c o c' : stops c o -> round c c' -> False.
Proof. intros [] H2; inversion H2; congruence. Qed.

End Rounds.

(** ** The rounds of [ms_length]

    The loops of the two [ms_length]s, as transition systems: from a
    string of [n] characters, [n] rounds continue and the next one stops. *)

(** [while (str[str_length]) str_length++;] of [src/src/mystring_ars.c]. *)
Definition ars_length_round (a : addr) : Z -> M mem (Z + Z) :=
  while_step (fun i => nonnul_at (a .+ i)) (fun i => ret (i + 1)%Z).

(** [while ( *str_ptr) str_ptr++;] of [src/src/mystring_ptrs.c]. *)
Definition ptrs_length_round : addr -> M mem (addr + addr) :=
  while_step (fun p => nonnul_at p) (fun p => ret (p .+ 1)).

Section LengthRounds.
Context (m : mem) (a : addr) (s : list byte) (Hs : cstring m a s).

Lemma ars_length_rounds_upto k :
    k <= length s -> nsteps (round (ars_length_round a)) k (0%Z, m) (Z.of_nat k, m).
  Proof.
    induction k as [|k IH]; intros Hk; [constructor|].
    eapply nsteps_r; [apply IH; lia|]. constructor. rewrite Nat2Z.inj_succ.
    eapply while_step_true; [apply (cstring_nonnul_lt _ _ _ Hs); lia|done].
  Qed.

Lemma ptrs_length_rounds_upto k :
    k <= length s -> nsteps (round ptrs_length_round) k (a .+ 0, m) (a .+ Z.of_nat k, m).
  Proof.
    induction k as [|k IH]; intros Hk; [constructor|].
    eapply nsteps_r; [apply IH; lia|]. constructor. rewrite Nat2Z.inj_succ, <- Z.add_1_r, <- addr_add_add.
    eapply while_step_true; [apply (cstring_nonnul_lt _ _ _ Hs); lia|done].
  Qed.
End LengthRounds.

(** C34: The loop of [ms_length] runs exactly [strlen(str)] rounds that
    continue, then one that leaves it, in both files: on a string [s] at
    [str], the array loop goes from [str_length = 0] to [length s] and the
    pointer loop from [str_ptr = str] to [str + length s], one byte per
    round, and each then stops with that value; the two functions are
    these loops. *)
Theorem length_rounds m a s :
  cstring m a s ->
  Ars.ms_length (Some a) = loop (ars_length_round a) 0%Z /\
  nsteps (round (ars_length_round a)) (length s) (0%Z, m) (Z.of_nat (length s), m) /\
  stops (ars_length_round a) (Z.of_nat (length s), m) (Ok (Z.of_nat (length s), m)) /\
  Ptrs.ms_length (Some a) = (p <- loop ptrs_length_round a ;; ret (ptr_diff p a)) /\
  nsteps (round ptrs_length_round) (length s) (a, m) (a .+ Z.of_nat (length s), m) /\
  stops ptrs_length_round (a .+ Z.of_nat (length s), m) (Ok (a .+ Z.of_nat (length s), m)).
Proof.
  intros Hs. pose proof (ptrs_length_rounds_upto m a s Hs (length s) ltac:(lia)) as Hp.
  rewrite addr_add_0 in Hp.
  split_and!; [reflexivity|by apply (ars_length_rounds_upto m a s Hs)|constructor|reflexivity|done|constructor];
    apply while_step_false; apply (cstring_nonnul_end _ _ _ Hs).
Qed.
