(* ===== verification/Composition.v ===== *)
(** * Composition: how the functions of a file relate to one another

    [ms_concat(dest, src)] of both files measures [dest] with [ms_length]
    and then runs, from [dest + dest_length], the very loop of [ms_copy]
    and the same store of the terminator: on every memory, faults included,
    it computes what [ms_length(dest)] followed by
    [ms_copy(dest + dest_length, src)] computes ([copy_at_end], C30).

    The bounded functions reduce to the unbounded ones when the bound lies
    past the source: while [src] is a string outside [dest]'s object, the
    loops test [src[i]] as the unbounded loops do ([while_cond_sim] with
    the invariant [src_at]), so [ms_nconcat] with [num >= strlen(src)] is
    [ms_concat] (C31) and [ms_ncopy] with [num = strlen(src) + 1] is
    [ms_copy], the padding loop writing just the terminator (C32).  At the
    other end, a bound of 0 still reads the first byte of the source (C33). *)

From stdpp Require Import base list.
From Stdlib Require Import ZArith Lia Strings.Byte.
From S2P Require Import Prelude Memory MystringArs MystringPtrs Faults.

Open Scope cs_scope.

(** The composition, for one implementation's [ms_length] and [ms_copy]:
    [ms_copy(dest + ms_length(dest), src); return dest;]. *)
Definition copy_at_end (length : ptr -> M mem Z) (copy : ptr -> ptr -> M mem ptr)
    (d s : addr) : M mem ptr :=
  l <- length (Some d) ;;
  _ <- copy (Some (d .+ l)) (Some s) ;;
  ret (Some d).

Lemma ars_concat_copy_at_end d s :
  Ars.ms_concat (Some d) (Some s) ≡ copy_at_end Ars.ms_length Ars.ms_copy d s.
Proof.
  unfold Ars.ms_concat, copy_at_end, Ars.ms_copy. monad_simpl.
  setoid_rewrite addr_add_add. reflexivity.
Qed.

Lemma ptrs_concat_copy_at_end d s :
  Ptrs.ms_concat (Some d) (Some s) ≡ copy_at_end Ptrs.ms_length Ptrs.ms_copy d s.
Proof. unfold Ptrs.ms_concat, copy_at_end, Ptrs.ms_copy. monad_simpl. reflexivity. Qed.

(** ** The bounded copies with a bound past the source

    While [src] is a string of an object [dest] does not point into, the
    copy loops of [ms_ncopy] and [ms_nconcat] test [src[i]] exactly as those
    of [ms_copy] and [ms_concat] do, and their test [i != num] holds
    whenever [src[i]] is not null. *)

(** The state of a copy loop at index [i] of the source [str] at [s]. *)
Definition src_at (s : addr) (str : list byte) (i : Z) (σ : mem) : Prop :=
  cstring σ s str /\ (0 <= i <= Z.of_nat (length str))%Z.

Lemma nonnul_at_src s str i σ :
  src_at s str i σ -> nonnul_at (s .+ i) σ = Ok (negb (i =? Z.of_nat (length str))%Z, σ).
Proof.
  intros [Hs Hi]. replace i with (Z.of_nat (Z.to_nat i)) by lia.
  destruct (decide (Z.to_nat i = length str)) as [E|E].
  - rewrite E, Z.eqb_refl. by apply cstring_nonnul_end.
  - rewrite (cstring_nonnul_lt _ _ _ Hs) by lia. do 2 f_equal. symmetry.
    apply negb_true_iff, Z.eqb_neq. lia.
Qed.

Lemma bounded_cond_src s str num i σ :
  (Z.of_nat (length str) <= num)%Z -> src_at s str i σ ->
  (nonnul_at (s .+ i) &&& ret (negb (i =? num)%Z)) σ = nonnul_at (s .+ i) σ.
Proof.
  intros Hn Hi. unfold andM, bind. rewrite (nonnul_at_src _ _ _ _ Hi).
  destruct (Z.eqb_spec i (Z.of_nat (length str))); [done|].
  destruct Hi. simpl. replace (i =? num)%Z with false; [done|]. symmetry. apply Z.eqb_neq. lia.
Qed.

(** A round of a copy loop that stores into another object keeps the
    source and moves to the next index. *)
Lemma copy_round_src s str (q : Z -> addr) i σ σ1 i' σ' :
  (forall i, ablock (q i) <> ablock s) -> src_at s str i σ ->
  nonnul_at (s .+ i) σ = Ok (true, σ1) ->
  (c <- load (s .+ i) ;; store (q i) c ;; ret (i + 1)%Z) σ1 = Ok (i', σ') ->
  src_at s str i' σ'.
Proof.
  intros Hq Hi Hc. rewrite (nonnul_at_src _ _ _ _ Hi) in Hc.
  injection Hc as Hne <-. apply negb_true_iff, Z.eqb_neq in Hne. destruct Hi as [Hs Hi].
  unfold bind, load, store, ret. destruct (mload σ (s .+ i)); [|done].
  destruct (mstore σ (q i) b) eqn:E; [|done]. intros [= <- <-].
  split; [by eapply cstring_mstore_other|lia].
Qed.

(** A store that succeeds leaves the memory non-empty. *)
Lemma mstore_mem_size m a v m' : mstore m a v = Some m' -> 0 < mem_size m.
Proof.
  intros E. apply mstore_in_bounds, mload_is_Some in E.
  pose proof (blen_le_mem_size m (ablock a)). lia.
Qed.

(** The padding loop of [ms_ncopy] one byte before its bound: one store. *)
Lemma pad_last d n σ :
  while (fun i => ret (negb (i =? n + 1)%Z)) (fun i => store (d .+ i) x00 ;; ret (i + 1)%Z) n σ
  = (store (d .+ n) x00 ;; ret (n + 1)%Z) σ.
Proof.
  unfold while, loop, fuel_of, mem_fuel. cbn [loop_fuel]. unfold while_step, bind, ret, store.
  replace (n =? n + 1)%Z with false by (symmetry; apply Z.eqb_neq; lia). simpl.
  destruct (mstore σ (d .+ n) x00) as [σ2|] eqn:E; [|done].
  pose proof (mstore_mem_size _ _ _ _ E). destruct (mem_size σ); [lia|].
  simpl. by rewrite Z.eqb_refl.
Qed.

Lemma ars_nconcat_concat d s str num σ :
  cstring σ s str -> ablock d <> ablock s -> (Z.of_nat (length str) <= num)%Z ->
  Ars.ms_nconcat (Some d) (Some s) num σ = Ars.ms_concat (Some d) (Some s) σ.
Proof.
  intros Hs Hb Hn. unfold Ars.ms_nconcat, Ars.ms_concat. run_asserts.
  apply bind_congr_Ok. intros l σ1 ->%ars_length_readonly.
  apply bind_congr; [|done].
  apply (while_cond_sim (src_at s str)); [intros; by apply (bounded_cond_src s str)| |split; [done|lia]].
  intros. by eapply (copy_round_src s str (fun i => d .+ (l + i))); eauto.
Qed.

Lemma ars_ncopy_copy d s str σ :
  cstring σ s str -> ablock d <> ablock s ->
  Ars.ms_ncopy (Some d) (Some s) (Z.of_nat (length str) + 1) σ = Ars.ms_copy (Some d) (Some s) σ.
Proof.
  intros Hs Hb. unfold Ars.ms_ncopy, Ars.ms_copy. run_asserts.
  assert (Hround : forall i σ σ1 i' σ', src_at s str i σ -> nonnul_at (s .+ i) σ = Ok (true, σ1) ->
    (c <- load (s .+ i) ;; store (d .+ i) c ;; ret (i + 1)%Z) σ1 = Ok (i', σ') ->
    src_at s str i' σ').
  { intros. by eapply (copy_round_src s str (fun i => d .+ i)); eauto. }
  erewrite bind_congr;
    [|apply (while_cond_sim (src_at s str)); [intros; apply (bounded_cond_src s str); [lia|done]
                                              |exact Hround|split; [done|lia]]
     |intros; reflexivity].
  apply bind_congr_Ok. intros i σ1 E.
  edestruct (while_exit_inv (src_at s str) _ _ Hround 0%Z σ i σ1) as (σ0 & Hi & Hc);
    [split; [done|lia]|exact E|].
  rewrite (nonnul_at_src _ _ _ _ Hi) in Hc. injection Hc as Hc <-.
  apply negb_false_iff, Z.eqb_eq in Hc as ->.
  unfold bind at 1. rewrite pad_last. unfold bind.
  by destruct (store _ _ σ0) as [[]|].
Qed.

(** ** A bound of zero

    With [num = 0] the loops of the bounded functions still evaluate their
    first condition, whose first test reads memory: [ms_ncopy] and
    [ms_nconcat] read [src[0]], and [ms_ncompare] reads [str1[0]] and, when
    it is not null, [str2[0]], before [i != num] stops them.  The lemmas
    below give what each call then does, on every memory. *)

(** Run the rounds of loops that stop at once, splitting on the bytes read. *)
Ltac zero_rounds :=
  unfold while, while_ret, loop, fuel_of, mem_fuel; cbn [loop_fuel];
  unfold while_step, while_ret_step, andM, nonnul_at, bind, ret, load; cbv beta;
  rewrite ?addr_add_0;
  repeat (simpl; rewrite ?Z.add_0_r;
          match goal with
          | |- context [is_nul ?c] => destruct (is_nul c)
          | |- context [mload ?m ?x] => destruct (mload m x)
          end);
  simpl; rewrite ?Z.add_0_r; reflexivity.

Lemma ars_ncopy_zero d s :
  Ars.ms_ncopy (Some d) (Some s) 0 ≡ (_ <- load s ;; ret (Some d)).
Proof. intros σ. unfold Ars.ms_ncopy. run_asserts. zero_rounds. Qed.

Lemma ars_nconcat_zero d s :
  Ars.ms_nconcat (Some d) (Some s) 0 ≡
  (l <- Ars.ms_length (Some d) ;; _ <- load s ;; store (d .+ l) x00 ;; ret (Some d)).
Proof. intros σ. unfold Ars.ms_nconcat. run_asserts. apply bind_congr; [done|intros l σ1]. zero_rounds. Qed.

Lemma ars_ncompare_zero `{CharSign} a b :
  Ars.ms_ncompare (Some a) (Some b) 0 ≡
  (c <- load a ;; if is_nul c then ret 0%Z else (_ <- load b ;; ret 0%Z)).
Proof. intros σ. unfold Ars.ms_ncompare, Ars.ncompare_cond, Ars.compare_cond. run_asserts. zero_rounds. Qed.

(** ** The theorems *)

(** C30: In both files, [ms_concat(dest, src)] is [ms_length(dest)]
    followed by [ms_copy(dest + dest_length, src)], returning [dest]: the two
    compute the same outcome on every memory, out-of-bounds faults included
    (the equivalence [≡] of computations). *)
Theorem concat_is_copy_at_end d s :
  Ars.ms_concat (Some d) (Some s) ≡ copy_at_end Ars.ms_length Ars.ms_copy d s /\
  Ptrs.ms_concat (Some d) (Some s) ≡ copy_at_end Ptrs.ms_length Ptrs.ms_copy d s.
Proof. split; [apply ars_concat_copy_at_end|apply ptrs_concat_copy_at_end]. Qed.

(** C31: In both files, when [src] is a string of [n] characters in an
    object [dest] does not point into, [ms_nconcat(dest, src, num)] with
    [num >= n] computes what [ms_concat(dest, src)] computes, on every
    memory: the same result, the same writes, and the same fault when
    [dest] is too small. *)
Theorem nconcat_past_source d s str num σ :
  cstring σ s str -> ablock d <> ablock s -> (Z.of_nat (length str) <= num)%Z ->
  Ars.ms_nconcat (Some d) (Some s) num σ = Ars.ms_concat (Some d) (Some s) σ /\
  Ptrs.ms_nconcat (Some d) (Some s) num σ = Ptrs.ms_concat (Some d) (Some s) σ.
Proof.
  intros. rewrite nconcat_sim, concat_sim. split; by eapply ars_nconcat_concat.
Qed.

(** C32: In both files, when [src] is a string of [n] characters in an
    object [dest] does not point into, [ms_ncopy(dest, src, n + 1)]
    computes what [ms_copy(dest, src)] computes, on every memory: it copies
    the [n] characters and then pads exactly one null, the terminator
    [ms_copy] writes. *)
Theorem ncopy_past_source d s str σ :
  cstring σ s str -> ablock d <> ablock s ->
  Ars.ms_ncopy (Some d) (Some s) (Z.of_nat (length str) + 1) σ = Ars.ms_copy (Some d) (Some s) σ /\
  Ptrs.ms_ncopy (Some d) (Some s) (Z.of_nat (length str) + 1) σ = Ptrs.ms_copy (Some d) (Some s) σ.
Proof.
  intros. rewrite ncopy_sim, copy_sim. split; by eapply ars_ncopy_copy.
Qed.

(** C33: With a bound of 0, on every memory ([≡]) and in both files,
    [ms_ncopy(dest, src, 0)] reads [src[0]] and writes nothing,
    [ms_nconcat(dest, src, 0)] measures [dest], reads [src[0]] and stores a
    null at [dest[dest_length]], and [ms_ncompare(str1, str2, 0)] reads
    [str1[0]] and, if it is not null, [str2[0]], and returns 0: each call
    faults when the byte it reads is out of bounds, where [strncpy],
    [strncat] and [strncmp] with a count of 0 read nothing. *)
Theorem zero_bound_reads `{CharSign} d s a b :
  Ars.ms_ncopy (Some d) (Some s) 0 ≡ (_ <- load s ;; ret (Some d)) /\
  Ars.ms_nconcat (Some d) (Some s) 0 ≡
    (l <- Ars.ms_length (Some d) ;; _ <- load s ;; store (d .+ l) x00 ;; ret (Some d)) /\
  Ars.ms_ncompare (Some a) (Some b) 0 ≡
    (c <- load a ;; if is_nul c then ret 0%Z else (_ <- load b ;; ret 0%Z)) /\
  Ptrs.ms_ncopy (Some d) (Some s) 0 ≡ (_ <- load s ;; ret (Some d)) /\
  Ptrs.ms_nconcat (Some d) (Some s) 0 ≡
    (l <- Ptrs.ms_length (Some d) ;; _ <- load s ;; store (d .+ l) x00 ;; ret (Some d)) /\
  Ptrs.ms_ncompare (Some a) (Some b) 0 ≡
    (c <- load a ;; if is_nul c then ret 0%Z else (_ <- load b ;; ret 0%Z)).
Proof.
  split_and!; [apply ars_ncopy_zero|apply ars_nconcat_zero|apply ars_ncompare_zero|..];
    intros σ; [rewrite ncopy_sim|rewrite nconcat_sim|rewrite ncompare_sim].
  - apply ars_ncopy_zero.
  - rewrite (ars_nconcat_zero d s σ). apply bind_congr; [by rewrite ms_length_equiv|done].
  - apply ars_ncompare_zero.
Qed.
