(* ===== verification/Invariants.v ===== *)
(** * Invariants: what a call that returns has found

    A function of either file that returns tells something about the
    memory it ran on, whatever that memory was: [ms_length] returns [n]
    only after scanning a null-terminated string of [n] characters whose
    terminator lies inside its array (C26), and [ms_search] returns only when
    both of its arguments are strings, without writing, and then with the
    [strstr] result (C27).  These are the converses of the refinements of
    [MystringArs] and [MystringPtrs], which assume the strings: here they
    are found by the scans.  The length scan is proved with the loop rule
    of [Hoare]. *)

From stdpp Require Import base list gmap.
From Stdlib Require Import ZArith Lia Strings.Byte.
From S2P Require Import Prelude Memory Hoare CSpec MystringArs MystringPtrs Faults.

Open Scope cs_scope.

(** ** What a length scan has found *)

(** The string at [a] in [m] has [n] characters. *)
Definition strlen_at (m : mem) (a : addr) (n : Z) : Prop :=
  exists s, cstring m a s /\ n = Z.of_nat (length s).

Section LengthScan.
Context (σ0 : mem) (a : addr).

(** The bytes before index [i] have been found non-null, and nothing was written. *)
Definition scanned (i : Z) (σ : mem) : Prop :=
  σ = σ0 /\ (0 <= i)%Z /\
  forall k, k < Z.to_nat i -> exists c, mload σ0 (a .+ Z.of_nat k) = Some c /\ c <> x00.

Lemma scanned_step i σ c :
    scanned i σ -> mload σ (a .+ i) = Some c -> c <> x00 -> scanned (i + 1) σ.
  Proof.
    intros (-> & Hi & Hk) Hc Hc0. split_and!; [done|lia|]. intros k Hk'.
    destruct (decide (k = Z.to_nat i)) as [->|].
    - exists c. rewrite Z2Nat.id by lia. done.
    - apply Hk. lia.
  Qed.

Lemma ars_length_scan :
    {{ eq σ0 }} Ars.ms_length (Some a)
    {{ fun n σ => σ = σ0 /\ strlen_at σ0 a n }}.
  Proof.
    unfold Ars.ms_length. apply hoare_assert_Some.
    eapply hoare_consequence; [apply (hoare_while scanned
      (fun i σ => scanned i σ /\ exists c, mload σ (a .+ i) = Some c /\ c <> x00)
      (fun i σ => scanned i σ /\ mload σ (a .+ i) = Some x00))| |].
    - intros i. eapply hoare_consequence; [apply (hoare_nonnul_at (scanned i))|done|].
      intros [] σ [? (c & Hc & Hn)]; unfold is_nul in Hn; split; [done| |done|].
      + exists c. split; [done|]. by apply bool_decide_eq_false in Hn.
      + apply bool_decide_eq_true in Hn. by subst.
    - intros i. apply hoare_ret. intros σ [? (c & ? & ?)]. by eapply scanned_step.
    - intros σ <-. split_and!; [done|done|]. simpl. lia.
    - intros i σ [(-> & Hi & Hk) Hn]. split; [done|].
      destruct (cstring_of_scan σ0 a (Z.to_nat i) Hk) as (s & Hs & Hl);
        [by rewrite Z2Nat.id|].
      exists s. split; [done|lia].
  Qed.

End LengthScan.

(** [ms_length] returns [n] only on a string of [n] characters, in either file. *)
Lemma length_found p m n m' :
  Ars.ms_length (Some p) m = Ok (n, m') \/ Ptrs.ms_length (Some p) m = Ok (n, m') ->
  m' = m /\ exists s, cstring m p s /\ n = Z.of_nat (length s).
Proof.
  intros HE. assert (E : Ars.ms_length (Some p) m = Ok (n, m'))
    by (destruct HE as [|E]; [done|by rewrite <- ms_length_equiv]).
  exact (ars_length_scan m p m n m' eq_refl E).
Qed.

(** A call that returns ran each part of a [bind] to its end. *)
Lemma bind_Ok_inv {Σ A B} (m : M Σ A) (k : A -> M Σ B) σ x σ' :
  bind m k σ = Ok (x, σ') -> exists y σ1, m σ = Ok (y, σ1) /\ k y σ1 = Ok (x, σ').
Proof. unfold bind. destruct (m σ) as [[y σ1]|]; [eauto|done]. Qed.

(** [ms_search] measures both of its arguments: when it returns, both are strings. *)
Lemma search_found_strings `{CharSign} h n m r m' :
  Ars.ms_search (Some h) (Some n) m = Ok (r, m') \/ Ptrs.ms_search (Some h) (Some n) m = Ok (r, m') ->
  exists hs ns, cstring m h hs /\ cstring m n ns.
Proof.
  intros [E|E]; [unfold Ars.ms_search in E|unfold Ptrs.ms_search in E];
    rewrite !assert_nonnull_Some in E;
    apply bind_Ok_inv in E as (l1 & σ1 & E1 & E);
    apply bind_Ok_inv in E as (l2 & σ2 & E2 & _).
  - destruct (length_found h m l1 σ1) as (-> & hs & Hh & _); [by left|].
    destruct (length_found n m l2 σ2) as (-> & ns & Hn & _); [by left|]. by exists hs, ns.
  - destruct (length_found n m l1 σ1) as (-> & ns & Hn & _); [by right|].
    destruct (length_found h m l2 σ2) as (-> & hs & Hh & _); [by right|]. by exists hs, ns.
Qed.

(** ** The properties *)

(** C26: [ms_length] (either file) returns [n] only when [str] points to a
    null-terminated string of [n] characters, without writing; so [n] is
    non-negative and [str + n], the terminator, lies inside the array. *)
Theorem ms_length_scan m a n m' :
  Ars.ms_length (Some a) m = Ok (n, m') \/ Ptrs.ms_length (Some a) m = Ok (n, m') ->
  m' = m /\ strlen_at m a n /\ (0 <= aofs a)%Z /\ (aofs a + n < blen m (ablock a))%Z.
Proof.
  intros HE. destruct (length_found a m n m' HE) as (-> & s & Hs & ->).
  split_and!; [done|by exists s|apply (cstring_bounds _ _ _ Hs)..].
Qed.

(** C27: On any memory, [ms_search] (either file) returns only when both
    [haystack] and [needle] are strings, and then, without writing, with
    the result [strstr] gives: NULL when the needle does not occur, else
    [&haystack[i]] for the first [i] where it starts (the array version for
    a haystack shorter than [2^64], the pointer version unless both strings
    are empty). *)
Theorem search_returns_on_strings `{CharSign} h n m r m' :
  (Ars.ms_search (Some h) (Some n) m = Ok (r, m') ->
   exists hs ns, cstring m h hs /\ cstring m n ns /\
   ((Z.of_nat (length hs) < 2 ^ 64)%Z ->
    m' = m /\ r = (fun p => h .+ Z.of_nat p) <$> strstr_spec hs ns)) /\
  (Ptrs.ms_search (Some h) (Some n) m = Ok (r, m') ->
   exists hs ns, cstring m h hs /\ cstring m n ns /\
   (hs <> [] \/ ns <> [] -> m' = m /\ r = (fun p => h .+ Z.of_nat p) <$> strstr_spec hs ns)).
Proof.
  split; intros E; destruct (search_found_strings h n m r m') as (hs & ns & Hh & Hn); auto;
    exists hs, ns; split_and!; [done|done| |done|done|]; intros Hc.
  - rewrite (ms_search_refines m h hs n ns Hh Hn Hc) in E. by injection E as <- <-.
  - rewrite (ptrs_search_refines m h hs n ns Hh Hn Hc) in E. by injection E as <- <-.
Qed.
