(* ===== verification/Copies.v ===== *)
(** * Copies: the top-level sources [src/mystring_ars.c] and [src/mystring_ptrs.c]

    The repository carries each implementation twice: [src/src/] holds the
    copies with the long interface comments (modelled in [MystringArs] and
    [MystringPtrs]), and [src/] holds copies whose comments are shorter.
    Both copies of each file are translated here on their own, from their
    own lines, as the modules [ArsTop] and [PtrsTop]; the lemma at the
    end shows that every function of a top-level copy computes the same
    outcome as its [src/src/] counterpart on every memory and argument, so
    every theorem proved of [Ars] and [Ptrs] holds of the top-level files. *)

From stdpp Require Import base list.
From Stdlib Require Import ZArith Lia Strings.Byte.
From S2P Require Import Prelude Memory MystringArs MystringPtrs.

Open Scope cs_scope.

(** ** [src/mystring_ars.c] *)

Module ArsTop.

(** [size_t ms_length(char const str[])] *)
Definition ms_length (str : ptr) : M mem Z :=
  s <- assert_nonnull str ;;
  while (fun i => nonnul_at (s .+ i)) (fun i => ret (i + 1)%Z) 0%Z.

(** [char *ms_copy(char dest[], char const src[])] *)
Definition ms_copy (dest src : ptr) : M mem ptr :=
  d <- assert_nonnull dest ;;
  s <- assert_nonnull src ;;
  i <- while (fun i => nonnul_at (s .+ i))
             (fun i => c <- load (s .+ i) ;; store (d .+ i) c ;; ret (i + 1)%Z)
             0%Z ;;
  store (d .+ i) x00 ;;
  ret dest.

(** [char *ms_ncopy(char dest[], char const src[], size_t num)] *)
Definition ms_ncopy (dest src : ptr) (num : Z) : M mem ptr :=
  d <- assert_nonnull dest ;;
  s <- assert_nonnull src ;;
  i <- while (fun i => nonnul_at (s .+ i) &&& ret (negb (i =? num)%Z))
             (fun i => c <- load (s .+ i) ;; store (d .+ i) c ;; ret (i + 1)%Z)
             0%Z ;;
  _ <- while (fun i => ret (negb (i =? num)%Z))
             (fun i => store (d .+ i) x00 ;; ret (i + 1)%Z) i ;;
  ret dest.

(** [char *ms_concat(char dest[], char const src[])] *)
Definition ms_concat (dest src : ptr) : M mem ptr :=
  d <- assert_nonnull dest ;;
  s <- assert_nonnull src ;;
  dest_length <- ms_length dest ;;
  i <- while (fun i => nonnul_at (s .+ i))
             (fun i => c <- load (s .+ i) ;;
                       store (d .+ (dest_length + i)) c ;; ret (i + 1)%Z)
             0%Z ;;
  store (d .+ (dest_length + i)) x00 ;;
  ret dest.

(** [char *ms_nconcat(char dest[], char const src[], size_t num)] *)
Definition ms_nconcat (dest src : ptr) (num : Z) : M mem ptr :=
  d <- assert_nonnull dest ;;
  s <- assert_nonnull src ;;
  dest_length <- ms_length dest ;;
  i <- while (fun i => nonnul_at (s .+ i) &&& ret (negb (i =? num)%Z))
             (fun i => c <- load (s .+ i) ;;
                       store (d .+ (dest_length + i)) c ;; ret (i + 1)%Z)
             0%Z ;;
  store (d .+ (dest_length + i)) x00 ;;
  ret dest.

(** The loop body shared by [ms_compare] and [ms_ncompare]:
    [if (str1[i] != str2[i]) return str1[i] - str2[i]; i++;] *)
Definition compare_body `{CharSign} (s1 s2 : addr) (i : Z) : M mem (Z + Z) :=
  c1 <- load (s1 .+ i) ;;
  c2 <- load (s2 .+ i) ;;
  if decide (c1 = c2) then ret (inl (i + 1)%Z)
  else ret (inr (char_val c1 - char_val c2)%Z).

(** [return str1[i] - str2[i];] *)
Definition char_diff_at `{CharSign} (s1 s2 : addr) (i : Z) : M mem Z :=
  c1 <- load (s1 .+ i) ;;
  c2 <- load (s2 .+ i) ;;
  ret (char_val c1 - char_val c2)%Z.

(** The condition [str1[i] && str2[i]] of the [ms_compare] loop. *)
Definition compare_cond (s1 s2 : addr) (i : Z) : M mem bool :=
  nonnul_at (s1 .+ i) &&& nonnul_at (s2 .+ i).

(** The condition [str1[i] && str2[i] && i != num] of [ms_ncompare]. *)
Definition ncompare_cond (s1 s2 : addr) (num i : Z) : M mem bool :=
  compare_cond s1 s2 i &&& ret (negb (i =? num)%Z).

(** [int ms_compare(char const str1[], char const str2[])] *)
Definition ms_compare `{CharSign} (str1 str2 : ptr) : M mem Z :=
  s1 <- assert_nonnull str1 ;;
  s2 <- assert_nonnull str2 ;;
  r <- while_ret (compare_cond s1 s2) (compare_body s1 s2) 0%Z ;;
  match r with
  | inr v => ret v
  | inl i => char_diff_at s1 s2 i
  end.

(** [int ms_ncompare(char const str1[], char const str2[], size_t num)] *)
Definition ms_ncompare `{CharSign} (str1 str2 : ptr) (num : Z) : M mem Z :=
  s1 <- assert_nonnull str1 ;;
  s2 <- assert_nonnull str2 ;;
  r <- while_ret (ncompare_cond s1 s2 num) (compare_body s1 s2) 0%Z ;;
  match r with
  | inr v => ret v
  | inl i => if (i =? num)%Z then ret 0%Z else char_diff_at s1 s2 i
  end.

(** The inner loop of [ms_search]:
    [for (j = 0U; j < needle_length; j++) if (haystack[j+i] != needle[j]) break;]
    returning the final [j]. *)
Definition search_inner (h n : addr) (needle_length i : Z) : M mem Z :=
  rj <- while_ret (fun j => ret (j <? needle_length)%Z)
                  (fun j => c1 <- load (h .+ (j + i)) ;;
                            c2 <- load (n .+ j) ;;
                            if decide (c1 = c2) then ret (inl (j + 1)%Z)
                            else ret (inr j))
                  0%Z ;;
  ret (match rj with inl j => j | inr j => j end).

(** One round of the outer loop of [ms_search]:
    [for (j ...) ...; if (j == needle_length) return (char * ) &haystack[i];]
    and [i++] otherwise. *)
Definition search_step (h n : addr) (needle_length i : Z) : M mem (Z + ptr) :=
  j <- search_inner h n needle_length i ;;
  if (j =? needle_length)%Z then ret (inr (Some (h .+ i)))
  else ret (inl (i + 1)%Z).

(** [char *ms_search(char const haystack[], char const needle[])] *)
Definition ms_search (haystack needle : ptr) : M mem ptr :=
  h <- assert_nonnull haystack ;;
  n <- assert_nonnull needle ;;
  haystack_length <- ms_length haystack ;;
  needle_length <- ms_length needle ;;
  if (haystack_length <? needle_length)%Z then ret None else
  r <- while_ret (fun i => ret (i <=? size_sub haystack_length needle_length)%Z)
                 (search_step h n needle_length) 0%Z ;;
  match r with
  | inr p => ret p
  | inl _ => ret None
  end.

End ArsTop.

(** ** [src/mystring_ptrs.c] *)

Module PtrsTop.

(** [size_t ms_length(char const *str)] *)
Definition ms_length (str : ptr) : M mem Z :=
  s <- assert_nonnull str ;;
  str_ptr <- while (fun p => nonnul_at p) (fun p => ret (p .+ 1)) s ;;
  ret (ptr_diff str_ptr s).

(** [*dest_ptr++ = *src_ptr++;] *)
Definition copy_step (sd : addr * addr) : M mem (addr * addr) :=
  c <- load sd.1 ;; store sd.2 c ;; ret (sd.1 .+ 1, sd.2 .+ 1).

(** [char *ms_copy(char *dest, char const *src)] *)
Definition ms_copy (dest src : ptr) : M mem ptr :=
  d <- assert_nonnull dest ;;
  s <- assert_nonnull src ;;
  sd <- while (fun sd => nonnul_at sd.1) copy_step (s, d) ;;
  store sd.2 x00 ;;
  ret dest.

(** [char *ms_ncopy(char *dest, char const *src, size_t num)] *)
Definition ms_ncopy (dest src : ptr) (num : Z) : M mem ptr :=
  d <- assert_nonnull dest ;;
  s <- assert_nonnull src ;;
  sd <- while (fun sd => nonnul_at sd.1 &&& ret (negb (ptr_diff sd.1 s =? num)%Z))
              copy_step (s, d) ;;
  _ <- while (fun sd => ret (negb (ptr_diff sd.1 s =? num)%Z))
             (fun sd => store sd.2 x00 ;; ret (sd.1 .+ 1, sd.2 .+ 1)) sd ;;
  ret dest.

(** [char *ms_concat(char *dest, char const *src)] *)
Definition ms_concat (dest src : ptr) : M mem ptr :=
  d <- assert_nonnull dest ;;
  s <- assert_nonnull src ;;
  l <- ms_length dest ;;
  sd <- while (fun sd => nonnul_at sd.1) copy_step (s, d .+ l) ;;
  store sd.2 x00 ;;
  ret dest.

(** [char *ms_nconcat(char *dest, char const *src, size_t num)] *)
Definition ms_nconcat (dest src : ptr) (num : Z) : M mem ptr :=
  d <- assert_nonnull dest ;;
  s <- assert_nonnull src ;;
  l <- ms_length dest ;;
  sd <- while (fun sd => nonnul_at sd.1 &&& ret (negb (ptr_diff sd.1 s =? num)%Z))
              copy_step (s, d .+ l) ;;
  store sd.2 x00 ;;
  ret dest.

(** [if ( *ptr1 != *ptr2 ) return *ptr1 - *ptr2; ptr1++; ptr2++;] *)
Definition compare_body `{CharSign} (pp : addr * addr) : M mem (addr * addr + Z) :=
  c1 <- load pp.1 ;;
  c2 <- load pp.2 ;;
  if decide (c1 = c2) then ret (inl (pp.1 .+ 1, pp.2 .+ 1))
  else ret (inr (char_val c1 - char_val c2)%Z).

(** [return *ptr1 - *ptr2;] *)
Definition char_diff_at `{CharSign} (pp : addr * addr) : M mem Z :=
  c1 <- load pp.1 ;;
  c2 <- load pp.2 ;;
  ret (char_val c1 - char_val c2)%Z.

(** [int ms_compare(char const *str1, char const *str2)] *)
Definition ms_compare `{CharSign} (str1 str2 : ptr) : M mem Z :=
  s1 <- assert_nonnull str1 ;;
  s2 <- assert_nonnull str2 ;;
  r <- while_ret (fun pp => nonnul_at pp.1 &&& nonnul_at pp.2) compare_body (s1, s2) ;;
  match r with
  | inr v => ret v
  | inl pp => char_diff_at pp
  end.

(** [int ms_ncompare(char const *str1, char const *str2, size_t num)] *)
Definition ms_ncompare `{CharSign} (str1 str2 : ptr) (num : Z) : M mem Z :=
  s1 <- assert_nonnull str1 ;;
  s2 <- assert_nonnull str2 ;;
  r <- while_ret (fun pp => nonnul_at pp.1 &&& nonnul_at pp.2
                            &&& ret (negb (ptr_diff pp.1 s1 =? num)%Z))
                 compare_body (s1, s2) ;;
  match r with
  | inr v => ret v
  | inl pp => if (ptr_diff pp.1 s1 =? num)%Z then ret 0%Z else char_diff_at pp
  end.

(** The body of the [ms_search] loop:
    [if (!ms_ncompare(haystack_ptr, needle, needle_length)) return haystack_ptr;
     haystack_ptr++;] *)
Definition search_body `{CharSign} (needle : ptr) (needle_length : Z) (hp : addr)
    : M mem (addr + ptr) :=
  v <- ms_ncompare (Some hp) needle needle_length ;;
  if (v =? 0)%Z then ret (inr (Some hp)) else ret (inl (hp .+ 1)).

(** [char *ms_search(char const *haystack, char const *needle)] *)
Definition ms_search `{CharSign} (haystack needle : ptr) : M mem ptr :=
  h <- assert_nonnull haystack ;;
  _ <- assert_nonnull needle ;;
  needle_length <- ms_length needle ;;
  haystack_length <- ms_length haystack ;;
  if (haystack_length <? needle_length)%Z then ret None else
  r <- while_ret (fun hp => nonnul_at hp) (search_body needle needle_length) h ;;
  match r with
  | inr p => ret p
  | inl _ => ret None
  end.

End PtrsTop.

(** ** The copies agree *)

(** The two top-level files implement the same functions as the
    [src/src/] copies: each of the sixteen functions returns the same
    outcome (result, memory, or fault) on every memory and arguments.  The
    code is the same text, so this is checked by computation; it lets every
    theorem about [Ars] and [Ptrs] be read of the top-level files. *)
Lemma top_level_copies_agree `{CharSign} p q num m :
  ArsTop.ms_length p m = Ars.ms_length p m /\ ArsTop.ms_copy p q m = Ars.ms_copy p q m /\
  ArsTop.ms_ncopy p q num m = Ars.ms_ncopy p q num m /\
  ArsTop.ms_concat p q m = Ars.ms_concat p q m /\
  ArsTop.ms_nconcat p q num m = Ars.ms_nconcat p q num m /\
  ArsTop.ms_compare p q m = Ars.ms_compare p q m /\
  ArsTop.ms_ncompare p q num m = Ars.ms_ncompare p q num m /\
  ArsTop.ms_search p q m = Ars.ms_search p q m /\
  PtrsTop.ms_length p m = Ptrs.ms_length p m /\ PtrsTop.ms_copy p q m = Ptrs.ms_copy p q m /\
  PtrsTop.ms_ncopy p q num m = Ptrs.ms_ncopy p q num m /\
  PtrsTop.ms_concat p q m = Ptrs.ms_concat p q m /\
  PtrsTop.ms_nconcat p q num m = Ptrs.ms_nconcat p q num m /\
  PtrsTop.ms_compare p q m = Ptrs.ms_compare p q m /\
  PtrsTop.ms_ncompare p q num m = Ptrs.ms_ncompare p q num m /\
  PtrsTop.ms_search p q m = Ptrs.ms_search p q m.
Proof. split_and!; reflexivity. Qed.
