(* ===== verification/Roundtrips.v ===== *)
(** * Roundtrips: a string copied there and back

    After [ms_copy(dest, src)] has copied a string, copying it back with
    [ms_copy(src, dest)] rewrites every byte of [src] with the byte already
    there: the second call succeeds, returns [src], and the memory is the
    one the first call left.  The proof runs the array [ms_copy] of
    [src/src/mystring_ars.c] on both calls (with the loop lemmas of
    [MystringArs]) and uses that writing the bytes already present is the
    identity ([write_bytes_same]). *)

From stdpp Require Import base list.
From Stdlib Require Import ZArith Lia Strings.Byte.
From S2P Require Import Prelude Memory CSpec MystringArs.

Open Scope cs_scope.

(** The two calls in sequence: [ms_copy(dest, src); ms_copy(src, dest);]. *)
Definition copy_there_and_back (d a : addr) : M mem (ptr * ptr) :=
  x <- Ars.ms_copy (Some d) (Some a) ;;
  y <- Ars.ms_copy (Some a) (Some d) ;;
  ret (x, y).

Lemma disjoint_sym p n q k : disjoint p n q k -> disjoint q k p n.
Proof. unfold disjoint. intros [?|[?|?]]; [left; congruence|right; right; lia|right; left; lia]. Qed.

Lemma copy_back_run m d a s m1 :
  cstring m a s -> strcpy_spec m d s = Some m1 ->
  disjoint d (Z.of_nat (length s + 1)) a (Z.of_nat (length s + 1)) ->
  Ars.ms_copy (Some a) (Some d) m1 = Ok (Some a, m1).
Proof.
  intros Hs Hw Hd.
  assert (cstring m1 d s) as Hd' by (apply (cstring_write_bytes m); [done|apply Hs]).
  assert (cstring m1 a s) as [Ha' _]
    by (apply (cstring_frame m _ _ _ _ _ Hs Hw); by rewrite length_app).
  apply (ms_copy_refines _ _ _ s); [done| |by apply disjoint_sym].
  unfold strcpy_spec. apply write_bytes_same. rewrite length_app. exact Ha'.
Qed.

(** C28: Copying back is a round trip: when [ms_copy(dest, src)] copies
    the string [s] of [src] into a disjoint [dest], the call
    [ms_copy(src, dest)] that follows returns [src] and leaves the memory
    exactly as the first call left it, which is the memory [strcpy] leaves. *)
Theorem copy_back_roundtrip m d a s m1 :
  cstring m a s -> strcpy_spec m d s = Some m1 ->
  disjoint d (Z.of_nat (length s + 1)) a (Z.of_nat (length s + 1)) ->
  copy_there_and_back d a m = Ok ((Some d, Some a), m1).
Proof.
  intros Hs Hw Hd. unfold copy_there_and_back.
  eapply bind_Ok_then; [by apply (ms_copy_refines _ _ _ s)|].
  eapply bind_Ok_then; [by apply (copy_back_run m d a s)|]. done.
Qed.
