(* ===== verification/Scenarios.v ===== *)
(** * Scenarios: the concrete calls of [src/main.c] and of the spec

    The test driver [src/main.c] calls each function on fixed arrays
    ([char s1[] = "this"], [char s2[9] = "that"], ["Hello there"], ...).
    This file lays those arrays out in one memory and applies the general
    theorems of the development to them: each lemma below instantiates a
    theorem at the driver's inputs, discharging its hypotheses by
    computation. *)

From stdpp Require Import base list gmap.
From Stdlib Require Import ZArith Lia Strings.Byte.
From Stdlib Require Strings.String.
From S2P Require Import Prelude Memory CSpec MystringArs MystringPtrs Faults Steps Composition Invariants Roundtrips.

Open Scope cs_scope.
Import String.StringSyntax.
Local Open Scope string_scope.

(** The arrays of the driver, one block each. *)
Definition test_mem : mem :=
  list_to_map [
    (1%positive, c_literal "this");        (* char s1[] = "this"  *)
    (2%positive, c_array 9 "that");        (* char s2[9] = "that" *)
    (3%positive, c_literal "that");        (* char s3[] = "that"  *)
    (4%positive, c_literal "Hello there"); (* char s1[] = "Hello there" *)
    (5%positive, c_literal "there");       (* char s2[] = "there" *)
    (6%positive, c_literal "")             (* an empty string *)
  ].

Definition blk (b : positive) : addr := Addr b 0.
Definition bytes (s : String.string) : list byte := String.list_byte_of_string s.

(** [ms_length(s1)] with [s1 = "this"]. *)
Lemma ptrs_ms_length_correct_witness :
  Ptrs.ms_length (Some (blk 1)) test_mem = Ok (4%Z, test_mem).
Proof. apply (ptrs_ms_length_correct test_mem (blk 1) (bytes "this")). solve_cstring. Defined.

(** [ms_copy(s1, s3)]: "this" becomes "that"; then [ms_length(s1)] is 4
    and [ms_compare(s1, s3)] is 0. *)
Lemma ms_copy_correct_witness :
  Ars.ms_copy (Some (blk 1)) (Some (blk 3)) test_mem
    = Ok (Some (blk 1), <[1%positive := c_literal "that"]> test_mem) /\
  Ars.ms_length (Some (blk 1)) (<[1%positive := c_literal "that"]> test_mem)
    = Ok (4%Z, <[1%positive := c_literal "that"]> test_mem) /\
  @Ars.ms_compare x86_64_sysv (Some (blk 1)) (Some (blk 3))
    (<[1%positive := c_literal "that"]> test_mem)
    = Ok (0%Z, <[1%positive := c_literal "that"]> test_mem).
Proof.
  apply (@ms_copy_correct x86_64_sysv test_mem (blk 1) (blk 3) (bytes "that"));
    [solve_cstring|vm_compute; reflexivity|solve_disjoint].
Defined.

(** [ms_ncopy(s3, s1, 2)] with [s3 = "that"]: the first two bytes, and
    [s3[2]] is untouched. *)
Lemma ms_ncopy_correct_witness :
  Ars.ms_ncopy (Some (blk 3)) (Some (blk 1)) 2 test_mem
    = Ok (Some (blk 3), <[3%positive := c_literal "that"]> test_mem) /\
  mload (<[3%positive := c_literal "that"]> test_mem) (blk 3 .+ 2)
    = mload test_mem (blk 3 .+ 2).
Proof.
  apply (ms_ncopy_correct test_mem (blk 3) (blk 1) (bytes "this") 2);
    [solve_cstring|lia|vm_compute; reflexivity|solve_disjoint].
Defined.

(** [ms_concat(s2, s1)] with [char s2[9] = "that"]: "thatthis". *)
Lemma ms_concat_correct_witness :
  Ars.ms_concat (Some (blk 2)) (Some (blk 1)) test_mem
    = Ok (Some (blk 2), <[2%positive := c_array 9 "thatthis"]> test_mem) /\
  cstring (<[2%positive := c_array 9 "thatthis"]> test_mem) (blk 2)
    (bytes "that" ++ bytes "this").
Proof.
  apply (ms_concat_correct test_mem (blk 2) (bytes "that") (blk 1) (bytes "this"));
    [solve_cstring|solve_cstring|vm_compute; reflexivity|solve_disjoint].
Defined.

(** [ms_nconcat(s2, s1, 4)] with [char s2[9] = "that"]: "thatthis". *)
Lemma ms_nconcat_correct_witness :
  Ars.ms_nconcat (Some (blk 2)) (Some (blk 1)) 4 test_mem
    = Ok (Some (blk 2), <[2%positive := c_array 9 "thatthis"]> test_mem) /\
  cstring (<[2%positive := c_array 9 "thatthis"]> test_mem) (blk 2)
    (bytes "that" ++ take 4 (bytes "this")).
Proof.
  apply (ms_nconcat_correct test_mem (blk 2) (bytes "that") (blk 1) (bytes "this"));
    [solve_cstring|solve_cstring|lia|vm_compute; reflexivity|solve_disjoint].
Defined.

(** [ms_compare("this", "that")] is ['i' - 'a'] = 8, with either [char]. *)
Lemma ms_compare_correct_witness :
  @Ars.ms_compare x86_64_sysv (Some (blk 1)) (Some (blk 3)) test_mem = Ok (8%Z, test_mem) /\
  (8%Z = 0%Z <-> bytes "this" = bytes "that").
Proof.
  apply (@ms_compare_correct x86_64_sysv test_mem (blk 1) (blk 3) (bytes "this") (bytes "that"));
    solve_cstring.
Defined.

(** [ms_compare("that", "this")] is then -8, and [ms_compare(s1, s1)] 0. *)
Lemma ms_compare_antisym_witness :
  @Ars.ms_compare aarch64_aapcs (Some (blk 3)) (Some (blk 1)) test_mem = Ok ((-8)%Z, test_mem) /\
  @Ars.ms_compare aarch64_aapcs (Some (blk 1)) (Some (blk 1)) test_mem = Ok (0%Z, test_mem).
Proof.
  apply (@ms_compare_antisym aarch64_aapcs test_mem (blk 1) (blk 3) (bytes "this")
           (bytes "that") 8); [solve_cstring|solve_cstring|vm_compute; reflexivity].
Defined.

(** [ms_ncompare("this", "that", 3)] is 8 too: the difference is at 2. *)
Lemma ms_ncompare_prefixes_witness :
  @Ars.ms_ncompare aarch64_aapcs (Some (blk 1)) (Some (blk 3)) 3 test_mem
  = Ok (8%Z, test_mem).
Proof.
  apply (@ms_ncompare_prefixes aarch64_aapcs test_mem (blk 1) (blk 3) (bytes "this")
           (bytes "that")); [solve_cstring|solve_cstring|lia].
Defined.

(** [ms_ncompare("this", "that", 5)]: the bound is past both strings. *)
Lemma ms_ncompare_compare_witness :
  @Ars.ms_ncompare x86_64_sysv (Some (blk 1)) (Some (blk 3)) 5 test_mem
  = @Ars.ms_compare x86_64_sysv (Some (blk 1)) (Some (blk 3)) test_mem.
Proof.
  apply (@ms_ncompare_compare x86_64_sysv test_mem (blk 1) (blk 3) (bytes "this")
           (bytes "that") 5); [solve_cstring|solve_cstring|simpl; lia].
Defined.

(** [ms_search("Hello there", "there")] points at position 6. *)
Lemma ms_search_correct_witness :
  exists r, Ars.ms_search (Some (blk 4)) (Some (blk 5)) test_mem = Ok (r, test_mem) /\
  match r with
  | Some p => exists i, p = blk 4 .+ Z.of_nat i /\
                        bytes "there" `prefix_of` drop i (bytes "Hello there") /\
                        forall j, j < i -> ~ bytes "there" `prefix_of` drop j (bytes "Hello there")
  | None => forall j, j <= length (bytes "Hello there") ->
            ~ bytes "there" `prefix_of` drop j (bytes "Hello there")
  end.
Proof.
  apply (ms_search_correct test_mem (blk 4) (bytes "Hello there") (blk 5) (bytes "there"));
    [solve_cstring|solve_cstring|vm_compute; reflexivity].
Defined.

(** The pointer ms_search on the same call. *)
Lemma ptrs_ms_search_correct_witness :
  exists r, @Ptrs.ms_search x86_64_sysv (Some (blk 4)) (Some (blk 5)) test_mem = Ok (r, test_mem) /\
  match r with
  | Some p => exists i, p = blk 4 .+ Z.of_nat i /\
                        bytes "there" `prefix_of` drop i (bytes "Hello there") /\
                        forall j, j < i -> ~ bytes "there" `prefix_of` drop j (bytes "Hello there")
  | None => forall j, j <= length (bytes "Hello there") ->
            ~ bytes "there" `prefix_of` drop j (bytes "Hello there")
  end.
Proof.
  apply (@ptrs_ms_search_correct x86_64_sysv test_mem (blk 4) (bytes "Hello there")
           (blk 5) (bytes "there"));
    [solve_cstring|solve_cstring|left; discriminate].
Defined.

(** [ms_search("", "")]: NULL from the pointer version, the haystack from
    the array version. *)
Lemma ptrs_ms_search_empty_witness :
  @Ptrs.ms_search x86_64_sysv (Some (blk 6)) (Some (blk 6)) test_mem = Ok (None, test_mem) /\
  Ars.ms_search (Some (blk 6)) (Some (blk 6)) test_mem = Ok (Some (blk 6), test_mem).
Proof.
  apply (@ptrs_ms_search_empty x86_64_sysv test_mem (blk 6) (blk 6)); solve_cstring.
Defined.

(** Arrays outside the driver, for the boundary behaviours: a string whose
    byte is [0x80], the string "a", [char src[2] = {'a', 'b'}] with no
    terminator, "that", and [char s[6] = "ab"]. *)
Definition edge_mem : mem :=
  list_to_map [
    (1%positive, [x80; x00]);
    (2%positive, c_literal "a");
    (3%positive, bytes "ab");
    (4%positive, c_literal "that");
    (5%positive, c_array 6 "ab")
  ].

(** [ms_compare("\x80", "a")] is [-128 - 97] with a signed [char], where
    [strcmp] gives [128 - 97]. *)
Lemma ms_compare_signed_char_witness :
  (exists v, @Ars.ms_compare x86_64_sysv (Some (blk 1)) (Some (blk 2)) edge_mem
             = Ok (v, edge_mem) /\ (v < 0)%Z) /\
  (0 < strcmp_iso [x80] (bytes "a"))%Z.
Proof.
  apply (ms_compare_signed_char edge_mem (blk 1) (blk 2) [x80] (bytes "a") x80 x61);
    [solve_cstring|solve_cstring|reflexivity|reflexivity|vm_compute; discriminate|
     vm_compute; reflexivity].
Defined.

(** [ms_ncopy(dest, src, 2)] with the unterminated [src = {'a', 'b'}]. *)
Lemma ms_ncopy_reads_src_num_witness :
  strncpy_spec edge_mem (blk 4) (bytes "ab") 2
    = Some (<[4%positive := c_literal "abat"]> edge_mem) /\
  Ars.ms_ncopy (Some (blk 4)) (Some (blk 3)) 2 edge_mem = Fault OutOfBounds.
Proof.
  apply (ms_ncopy_reads_src_num edge_mem (blk 4) (blk 3) (bytes "ab"));
    [vm_compute; reflexivity|apply (bool_decide_unpack _); vm_compute; exact I|
     vm_compute; reflexivity|vm_compute; reflexivity|solve_disjoint].
Defined.

(** [ms_copy(s1, NULL)] and the other calls with a NULL second argument. *)
Lemma null_args_fault_witness :
  (Some (blk 1) = None \/ (None : ptr) = None) /\
  Ars.ms_copy (Some (blk 1)) None test_mem = Fault AssertFail /\
  Ars.ms_ncopy (Some (blk 1)) None 2 test_mem = Fault AssertFail /\
  Ars.ms_concat (Some (blk 1)) None test_mem = Fault AssertFail /\
  Ars.ms_nconcat (Some (blk 1)) None 2 test_mem = Fault AssertFail /\
  @Ars.ms_compare x86_64_sysv (Some (blk 1)) None test_mem = Fault AssertFail /\
  @Ars.ms_ncompare x86_64_sysv (Some (blk 1)) None 2 test_mem = Fault AssertFail /\
  Ars.ms_search (Some (blk 1)) None test_mem = Fault AssertFail /\
  Ars.ms_length None test_mem = Fault AssertFail /\
  Ptrs.ms_copy (Some (blk 1)) None test_mem = Fault AssertFail /\
  Ptrs.ms_ncopy (Some (blk 1)) None 2 test_mem = Fault AssertFail /\
  Ptrs.ms_concat (Some (blk 1)) None test_mem = Fault AssertFail /\
  Ptrs.ms_nconcat (Some (blk 1)) None 2 test_mem = Fault AssertFail /\
  @Ptrs.ms_compare x86_64_sysv (Some (blk 1)) None test_mem = Fault AssertFail /\
  @Ptrs.ms_ncompare x86_64_sysv (Some (blk 1)) None 2 test_mem = Fault AssertFail /\
  @Ptrs.ms_search x86_64_sysv (Some (blk 1)) None test_mem = Fault AssertFail /\
  Ptrs.ms_length None test_mem = Fault AssertFail.
Proof.
  split; [right; reflexivity|].
  apply (@null_args_fault x86_64_sysv (Some (blk 1)) None 2 test_mem). right; reflexivity.
Defined.

(** The spec's scenario for [ms_ncompare("this", "that", 3)] places the
    difference at position 1; the first two positions agree ("th"), so the
    difference [i - a] is at position 2. *)
Example ncompare_scenario_position :
  @Ars.ms_ncompare x86_64_sysv (Some (blk 1)) (Some (blk 3)) 2 test_mem = Ok (0%Z, test_mem) /\
  @Ars.ms_ncompare x86_64_sysv (Some (blk 1)) (Some (blk 3)) 3 test_mem = Ok (8%Z, test_mem).
Proof. split; vm_compute; reflexivity. Qed.

(** [ms_concat(s, s)] with [char s[6] = "ab"]: "ab" becomes "ababab" and
    the seventh byte is written out of bounds. *)
Lemma ms_concat_self_witness :
  Ars.ms_concat (Some (blk 5)) (Some (blk 5)) edge_mem = Fault OutOfBounds.
Proof. apply (ms_concat_self edge_mem (blk 5) (bytes "ab")); [solve_cstring|discriminate]. Defined.

(** [ms_length(s1)] with [s1 = "this"]: the scan found "this", and the
    terminator [s1[4]] is inside the array. *)
Lemma ms_length_scan_witness :
  test_mem = test_mem /\ strlen_at test_mem (blk 1) 4 /\
  (0 <= aofs (blk 1))%Z /\ (aofs (blk 1) + 4 < blen test_mem (ablock (blk 1)))%Z.
Proof.
  apply (ms_length_scan test_mem (blk 1) 4 test_mem). right. vm_compute. reflexivity.
Defined.

(** [ms_search("Hello there", "there")] returns [&haystack[6]]: both
    arguments are strings, and 6 is where [strstr] finds "there". *)
Lemma search_returns_on_strings_witness :
  exists hs ns, cstring test_mem (blk 4) hs /\ cstring test_mem (blk 5) ns /\
  ((Z.of_nat (length hs) < 2 ^ 64)%Z ->
   test_mem = test_mem /\ Some (blk 4 .+ 6) = (fun p => blk 4 .+ Z.of_nat p) <$> strstr_spec hs ns).
Proof.
  apply (proj1 (@search_returns_on_strings x86_64_sysv (blk 4) (blk 5) test_mem
                  (Some (blk 4 .+ 6)) test_mem)).
  vm_compute. reflexivity.
Defined.

(** [ms_copy(s1, s3); ms_copy(s3, s1);]: "that" there and back. *)
Lemma copy_back_roundtrip_witness :
  copy_there_and_back (blk 1) (blk 3) test_mem
    = Ok ((Some (blk 1), Some (blk 3)), <[1%positive := c_literal "that"]> test_mem).
Proof.
  apply (copy_back_roundtrip test_mem (blk 1) (blk 3) (bytes "that"));
    [solve_cstring|vm_compute; reflexivity|solve_disjoint].
Defined.

(** [ms_nconcat(s2, s1, 10)] with [char s2[9] = "that"] and [s1 = "this"]:
    the bound is past the source, so it is [ms_concat(s2, s1)]. *)
Lemma nconcat_past_source_witness :
  Ars.ms_nconcat (Some (blk 2)) (Some (blk 1)) 10 test_mem
    = Ars.ms_concat (Some (blk 2)) (Some (blk 1)) test_mem /\
  Ptrs.ms_nconcat (Some (blk 2)) (Some (blk 1)) 10 test_mem
    = Ptrs.ms_concat (Some (blk 2)) (Some (blk 1)) test_mem.
Proof.
  apply (nconcat_past_source (blk 2) (blk 1) (bytes "this"));
    [solve_cstring|discriminate|simpl; lia].
Defined.

(** [ms_ncopy(s2, s1, 5)] with [s1 = "this"]: [ms_copy(s2, s1)]. *)
Lemma ncopy_past_source_witness :
  Ars.ms_ncopy (Some (blk 2)) (Some (blk 1)) 5 test_mem
    = Ars.ms_copy (Some (blk 2)) (Some (blk 1)) test_mem /\
  Ptrs.ms_ncopy (Some (blk 2)) (Some (blk 1)) 5 test_mem
    = Ptrs.ms_copy (Some (blk 2)) (Some (blk 1)) test_mem.
Proof.
  apply (ncopy_past_source (blk 2) (blk 1) (bytes "this")); [solve_cstring|discriminate].
Defined.

(** [ms_length(s1)] with [s1 = "this"]: the array loop takes four rounds
    from [i = 0] to [i = 4], the pointer loop stops at [s1 + 4]. *)
Lemma length_rounds_witness :
  nsteps (round (ars_length_round (blk 1))) 4 (0%Z, test_mem) (4%Z, test_mem) /\
  stops ptrs_length_round (blk 1 .+ 4, test_mem) (Ok (blk 1 .+ 4, test_mem)).
Proof.
  destruct (length_rounds test_mem (blk 1) (bytes "this")) as (_ & H1 & _ & _ & _ & H2);
    [solve_cstring|]. split; [exact H1|exact H2].
Defined.
