(* ===== verification/Driver.v ===== *)
(** * Driver: the header [src/mystring.h] and the test driver [src/main.c]

    [mystring.h] declares the eight functions; both implementation files
    define them, and [main.c] may be linked with either.  The header is the
    record [mystring] of the eight operations, with one instance per file.
    [main.c] is a client of that record: each [test_ms_*] function declares
    its arrays, calls the library function and its [<string.h>] counterpart,
    and prints both results when they differ.  The [<string.h>] functions
    are not code of the repository; they are modelled from the C standard
    on the strings they read ([CSpec]).  What the driver's run shows of an
    implementation is the subject of [Interface] (C24, C29). *)

From stdpp Require Import base list gmap.
From Stdlib Require Import ZArith Lia Strings.Byte.
From Stdlib Require Strings.String.
From S2P Require Import Prelude Memory CSpec MystringArs MystringPtrs.

Open Scope cs_scope.
Import String.StringSyntax.
Local Open Scope string_scope.

(** ** The header [mystring.h] *)

Record mystring := Mystring {
  ms_length : ptr -> M mem Z;
  ms_copy : ptr -> ptr -> M mem ptr;
  ms_ncopy : ptr -> ptr -> Z -> M mem ptr;
  ms_concat : ptr -> ptr -> M mem ptr;
  ms_nconcat : ptr -> ptr -> Z -> M mem ptr;
  ms_compare : ptr -> ptr -> M mem Z;
  ms_ncompare : ptr -> ptr -> Z -> M mem Z;
  ms_search : ptr -> ptr -> M mem ptr
}.

(** [mystring_ars.c] and [mystring_ptrs.c] as implementations of the
    header, for a given signedness of [char]. *)
Definition mystring_ars `{CharSign} : mystring :=
  Mystring Ars.ms_length Ars.ms_copy Ars.ms_ncopy Ars.ms_concat Ars.ms_nconcat
    Ars.ms_compare Ars.ms_ncompare Ars.ms_search.

Definition mystring_ptrs `{CharSign} : mystring :=
  Mystring Ptrs.ms_length Ptrs.ms_copy Ptrs.ms_ncopy Ptrs.ms_concat Ptrs.ms_nconcat
    Ptrs.ms_compare Ptrs.ms_ncompare Ptrs.ms_search.

(** ** The C library functions the driver calls *)

(** The string at [a]: its bytes up to the terminator. *)
Definition read_cstring (a : addr) : M mem (list byte) :=
  r <- while (fun st => nonnul_at (a .+ st.1))
             (fun st => c <- load (a .+ st.1) ;; ret (st.1 + 1, st.2 ++ [c])%Z)
             (0%Z, []) ;;
  ret r.2.

(** Storing [bs] at [a[0..]]. *)
Definition write_m (a : addr) (bs : list byte) : M mem unit := fun m =>
  match write_bytes m a bs with Some m' => Ok (tt, m') | None => Fault OutOfBounds end.

Definition strlen_c (s : ptr) : M mem Z :=
  a <- assert_nonnull s ;; bs <- read_cstring a ;; ret (Z.of_nat (length bs)).

Definition strcpy_c (dest src : ptr) : M mem ptr :=
  d <- assert_nonnull dest ;; a <- assert_nonnull src ;;
  bs <- read_cstring a ;; write_m d (bs ++ [x00]) ;; ret dest.

Definition strncpy_c (dest src : ptr) (n : Z) : M mem ptr :=
  d <- assert_nonnull dest ;; a <- assert_nonnull src ;;
  bs <- read_cstring a ;;
  write_m d (take (Z.to_nat n) bs ++ replicate (Z.to_nat n - length bs) x00) ;; ret dest.

Definition strcat_c (dest src : ptr) : M mem ptr :=
  d <- assert_nonnull dest ;; a <- assert_nonnull src ;;
  ds <- read_cstring d ;; bs <- read_cstring a ;;
  write_m (d .+ Z.of_nat (length ds)) (bs ++ [x00]) ;; ret dest.

Definition strncat_c (dest src : ptr) (n : Z) : M mem ptr :=
  d <- assert_nonnull dest ;; a <- assert_nonnull src ;;
  ds <- read_cstring d ;; bs <- read_cstring a ;;
  write_m (d .+ Z.of_nat (length ds)) (take (Z.to_nat n) bs ++ [x00]) ;; ret dest.

(** [strcmp] and [strncmp] compare as [unsigned char]. *)
Definition strcmp_c (s1 s2 : ptr) : M mem Z :=
  a1 <- assert_nonnull s1 ;; a2 <- assert_nonnull s2 ;;
  x <- read_cstring a1 ;; y <- read_cstring a2 ;; ret (strcmp_iso x y).

Definition strncmp_c (s1 s2 : ptr) (n : Z) : M mem Z :=
  a1 <- assert_nonnull s1 ;; a2 <- assert_nonnull s2 ;;
  x <- read_cstring a1 ;; y <- read_cstring a2 ;;
  ret (@strncmp_spec false (Z.to_nat n) x y).

Definition strstr_c (haystack needle : ptr) : M mem ptr :=
  h <- assert_nonnull haystack ;; n <- assert_nonnull needle ;;
  x <- read_cstring h ;; y <- read_cstring n ;;
  ret ((fun p => h .+ Z.of_nat p) <$> strstr_spec x y).

(** ** The driver [main.c] *)

(** A local array [char s[] = ...]: a fresh object holding its bytes. *)
Definition next_block (m : mem) : positive :=
  Pos.succ (foldr Pos.max 1%positive (fst <$> map_to_list m)).

Definition alloc (bs : list byte) : M mem addr := fun m =>
  let b := next_block m in Ok (Addr b 0, <[b := bs]> m).

(** What the driver prints: [printf("%s %s\n", a, b)] and
    [printf("%d %d\n", a, b)]. *)
Inductive line :=
  | PrintStrs (a b : list byte)
  | PrintInts (a b : Z).

Definition print_strs (p q : ptr) : M mem (list line) :=
  a <- assert_nonnull p ;; b <- assert_nonnull q ;;
  x <- read_cstring a ;; y <- read_cstring b ;; ret [PrintStrs x y].

(** [if (strcmp(a, b)) printf("%s %s\n", a, b);] *)
Definition check_strs (a b : ptr) : M mem (list line) :=
  c <- strcmp_c a b ;; if (c =? 0)%Z then ret [] else print_strs a b.

(** [if (a != b) printf("%d %d\n", a, b);] *)
Definition check_ints (a b : Z) : M mem (list line) :=
  if (a =? b)%Z then ret [] else ret [PrintInts a b].

Section Tests.
Variable L : mystring.

Definition test_ms_copy : M mem (list line) :=
  s1 <- alloc (c_literal "this") ;; s2 <- alloc (c_literal "this") ;;
  s3 <- alloc (c_literal "that") ;;
  a <- ms_copy L (Some s1) (Some s3) ;;
  b <- strcpy_c (Some s2) (Some s3) ;;
  check_strs a b.

Definition test_ms_length : M mem (list line) :=
  s1 <- alloc (c_literal "this") ;;
  s1_len1 <- ms_length L (Some s1) ;;
  s1_len2 <- strlen_c (Some s1) ;;
  check_ints s1_len1 s1_len2.

Definition test_ms_compare : M mem (list line) :=
  s1 <- alloc (c_literal "this") ;; s2 <- alloc (c_literal "that") ;;
  a <- ms_compare L (Some s1) (Some s2) ;;
  b <- strcmp_c (Some s1) (Some s2) ;;
  check_ints a b.

Definition test_ms_concat : M mem (list line) :=
  s1 <- alloc (c_literal "this") ;; s2 <- alloc (c_array 9 "that") ;;
  s3 <- alloc (c_array 9 "that") ;;
  a <- ms_concat L (Some s2) (Some s1) ;;
  b <- strcat_c (Some s3) (Some s1) ;;
  check_strs a b.

Definition test_ms_search : M mem (list line) :=
  s1 <- alloc (c_literal "Hello there") ;; s2 <- alloc (c_literal "there") ;;
  a <- ms_search L (Some s1) (Some s2) ;;
  b <- strstr_c (Some s1) (Some s2) ;;
  check_strs a b.

Definition test_ms_ncopy : M mem (list line) :=
  s1 <- alloc (c_literal "this") ;; s2 <- alloc (c_literal "that") ;;
  s3 <- alloc (c_literal "that") ;;
  a <- ms_ncopy L (Some s2) (Some s1) 2 ;;
  b <- strncpy_c (Some s3) (Some s1) 2 ;;
  check_strs a b.

Definition test_ms_ncompare : M mem (list line) :=
  s1 <- alloc (c_literal "this") ;; s2 <- alloc (c_literal "that") ;;
  a <- ms_ncompare L (Some s1) (Some s2) 3 ;;
  b <- strncmp_c (Some s1) (Some s2) 3 ;;
  check_ints a b.

Definition test_ms_nconcat : M mem (list line) :=
  s1 <- alloc (c_literal "this") ;; s2 <- alloc (c_array 9 "that") ;;
  s3 <- alloc (c_array 9 "that") ;;
  a <- ms_nconcat L (Some s2) (Some s1) 4 ;;
  b <- strncat_c (Some s3) (Some s1) 4 ;;
  check_strs a b.

(** [int main()]: the eight tests in order; the lines printed and the exit
    status. *)
Definition main : M mem (list line * Z) :=
  o1 <- test_ms_copy ;; o2 <- test_ms_length ;; o3 <- test_ms_compare ;;
  o4 <- test_ms_concat ;; o5 <- test_ms_search ;; o6 <- test_ms_ncopy ;;
  o7 <- test_ms_ncompare ;; o8 <- test_ms_nconcat ;;
  ret (o1 ++ o2 ++ o3 ++ o4 ++ o5 ++ o6 ++ o7 ++ o8, 0%Z).
End Tests.
