(* ===== verification/Interface.v ===== *)
(** * Interface: the contract of [src/mystring.h], and [main.c] against it

    [mystring.h] is the one place where the components meet: both
    implementation files provide its eight functions, and [main.c] calls
    them through it.  The class [MystringSpec L] states what the header's
    comments promise of an implementation [L]: each function computes its
    [<string.h>] counterpart ([CSpec]) on terminated arguments, disjoint
    where the C standard requires it, without touching anything else; the
    comparisons promise only the sign of their result ("an integer < 0 if
    str1 < str2"), and [ms_search] leaves out an empty haystack with an
    empty needle, where the pointer version differs (C9).  Both files meet
    the contract ([mystring_ars_spec], [mystring_ptrs_spec]).

    [main.c] is not a test of that contract.  Against the contract alone,
    its string and length tests all pass, and the comparison tests can only
    print two values of the same sign; a conforming implementation whose
    comparisons return [-1], [0] or [1] makes it print twice (C29), because
    it tests [a != b] on the exact values.  Conversely, an implementation
    whose [ms_copy] forgets the terminator breaks the contract and still
    passes every test (C24): the test strings have equal lengths. *)

From stdpp Require Import base list gmap.
From Stdlib Require Import ZArith Lia Strings.Byte.
From Stdlib Require Strings.String.
From S2P Require Import Prelude Memory CSpec MystringArs MystringPtrs Driver.

Open Scope cs_scope.
Import String.StringSyntax.
Local Open Scope string_scope.

(** ** The contract of the header *)

Class MystringSpec `{CharSign} (L : mystring) : Prop := {
  length_spec m a s :
    cstring m a s -> ms_length L (Some a) m = Ok (Z.of_nat (length s), m);
  copy_spec m d a s m' :
    cstring m a s -> strcpy_spec m d s = Some m' ->
    disjoint d (Z.of_nat (length s + 1)) a (Z.of_nat (length s + 1)) ->
    ms_copy L (Some d) (Some a) m = Ok (Some d, m');
  ncopy_spec m d a s num m' :
    cstring m a s -> (0 <= num)%Z -> strncpy_spec m d s (Z.to_nat num) = Some m' ->
    disjoint d num a (Z.of_nat (length s + 1)) ->
    ms_ncopy L (Some d) (Some a) num m = Ok (Some d, m');
  concat_spec m d ds a s m' :
    cstring m d ds -> cstring m a s -> strcat_spec m d ds s = Some m' ->
    disjoint (d .+ Z.of_nat (length ds)) (Z.of_nat (length s + 1))
             a (Z.of_nat (length s + 1)) ->
    ms_concat L (Some d) (Some a) m = Ok (Some d, m');
  nconcat_spec m d ds a s num m' :
    cstring m d ds -> cstring m a s -> (0 <= num)%Z ->
    strncat_spec m d ds s (Z.to_nat num) = Some m' ->
    disjoint (d .+ Z.of_nat (length ds)) (Z.of_nat (length s + 1))
             a (Z.of_nat (length s + 1)) ->
    ms_nconcat L (Some d) (Some a) num m = Ok (Some d, m');
  compare_spec m a b s t :
    cstring m a s -> cstring m b t ->
    exists v, ms_compare L (Some a) (Some b) m = Ok (v, m) /\ Z.sgn v = Z.sgn (strcmp_spec s t);
  ncompare_spec m a b s t num :
    cstring m a s -> cstring m b t -> (0 <= num)%Z ->
    exists v, ms_ncompare L (Some a) (Some b) num m = Ok (v, m) /\
              Z.sgn v = Z.sgn (strncmp_spec (Z.to_nat num) s t);
  search_spec m h hs n ns :
    cstring m h hs -> cstring m n ns -> (Z.of_nat (length hs) < 2 ^ 64)%Z ->
    (hs <> [] \/ ns <> []) ->
    ms_search L (Some h) (Some n) m
    = Ok ((fun p => h .+ Z.of_nat p) <$> strstr_spec hs ns, m)
}.

(** ** The two implementations meet it *)

(** Select the implementation's function from the header record. *)
Ltac header_ops :=
  cbv beta iota delta [mystring_ars mystring_ptrs ms_length ms_copy ms_ncopy ms_concat
    ms_nconcat ms_compare ms_ncompare ms_search].

#[export] Instance mystring_ars_spec `{CharSign} : MystringSpec mystring_ars.
Proof.
  split; header_ops.
  - apply ms_length_correct.
  - apply ms_copy_refines.
  - apply ms_ncopy_refines.
  - apply ms_concat_refines.
  - apply ms_nconcat_refines.
  - intros. eexists. split; [by apply ms_compare_refines|done].
  - intros. eexists. split; [by apply ms_ncompare_correct|done].
  - intros. by apply ms_search_refines.
Qed.

#[export] Instance mystring_ptrs_spec `{CharSign} : MystringSpec mystring_ptrs.
Proof.
  split; header_ops; intros; [rewrite ms_length_equiv|rewrite copy_sim|rewrite ncopy_sim
    |rewrite concat_sim|rewrite nconcat_sim| | |].
  - by apply ms_length_correct.
  - eapply ms_copy_refines; eassumption.
  - eapply ms_ncopy_refines; eassumption.
  - eapply ms_concat_refines; eassumption.
  - eapply ms_nconcat_refines; eassumption.
  - eexists. rewrite compare_sim. split; [by apply ms_compare_refines|done].
  - eexists. rewrite ncompare_sim. split; [by apply ms_ncompare_correct|done].
  - by apply ptrs_search_refines.
Qed.

(** ** Two other implementations of the header *)

(** The array file with comparisons that return only the sign of the
    difference, [-1], [0] or [1]: what the header's comments allow. *)
Definition mystring_sign `{CharSign} : mystring :=
  Mystring Ars.ms_length Ars.ms_copy Ars.ms_ncopy Ars.ms_concat Ars.ms_nconcat
    (fun p q => v <- Ars.ms_compare p q ;; ret (Z.sgn v))
    (fun p q num => v <- Ars.ms_ncompare p q num ;; ret (Z.sgn v))
    Ars.ms_search.

#[export] Instance mystring_sign_spec `{CharSign} : MystringSpec mystring_sign.
Proof.
  split; header_ops; cbv beta iota delta [mystring_sign ms_length ms_copy ms_ncopy ms_concat
    ms_nconcat ms_compare ms_ncompare ms_search].
  - apply ms_length_correct.
  - apply ms_copy_refines.
  - apply ms_ncopy_refines.
  - apply ms_concat_refines.
  - apply ms_nconcat_refines.
  - intros. eexists. split; [by rewrite (bind_Ok _ _ _ _ _ (ms_compare_refines _ _ _ s t H0 H1))|].
    by rewrite Z.sgn_sgn.
  - intros. eexists. split; [by rewrite (bind_Ok _ _ _ _ _ (ms_ncompare_correct _ _ _ s t H0 H1 num H2))|].
    by rewrite Z.sgn_sgn.
  - intros. by apply ms_search_refines.
Qed.





(** ** Running the driver against the contract *)

(** The string the C library finds at [a]: [read_cstring] run on [σ]. *)
Ltac string_at a σ :=
  let r := eval vm_compute in (read_cstring a σ) in
  match r with Ok (?s, _) => s end.

Ltac close_side := first [solve_cstring | solve_disjoint | lia | vm_compute; reflexivity
                         | left; discriminate].

(** What [main] may print against the contract: the two comparison tests
    can print two integers of the same sign, nothing else is printed, and
    [main] returns 0. *)
Definition same_sign_lines (o : outcome ((list line * Z) * mem)) : Prop :=
  match o with
  | Ok ((out, r), _) => r = 0%Z /\ Forall (fun l => exists a b, l = PrintInts a b /\ Z.sgn a = Z.sgn b) out
  | Fault _ => False
  end.

Section Drive.
Context `{CharSign} (L : mystring) (HL : MystringSpec L).

Lemma bind_Ok_post {A B} (P : outcome (B * mem) -> Prop) (m : M mem A) (k : A -> M mem B) σ x σ' :
    m σ = Ok (x, σ') -> P (k x σ') -> P (bind m k σ).
  Proof. intros E HP. unfold bind. by rewrite E. Qed.
End Drive.

(** One call of the header's functions, by its contract: the strings are
    read off the concrete memory and the new memory computed by [CSpec];
    a comparison returns an unknown value of the right sign. *)
Ltac contract_step :=
  lazymatch goal with HL : MystringSpec ?L |- ?P (bind ?call ?k ?σ) =>
  match call with
  | ms_length L (Some ?a) =>
      let s := string_at a σ in
      apply (bind_Ok_post P _ k σ (Z.of_nat (length s)) σ); [apply (@length_spec _ L HL σ a s); close_side|]
  | ms_copy L (Some ?d) (Some ?a) =>
      let s := string_at a σ in
      let m' := eval vm_compute in (strcpy_spec σ d s) in
      match m' with Some ?m' =>
        apply (bind_Ok_post P _ k σ (Some d) m'); [apply (@copy_spec _ L HL σ d a s m'); close_side|] end
  | ms_ncopy L (Some ?d) (Some ?a) ?num =>
      let s := string_at a σ in
      let m' := eval vm_compute in (strncpy_spec σ d s (Z.to_nat num)) in
      match m' with Some ?m' =>
        apply (bind_Ok_post P _ k σ (Some d) m'); [apply (@ncopy_spec _ L HL σ d a s num m'); close_side|] end
  | ms_concat L (Some ?d) (Some ?a) =>
      let ds := string_at d σ in let s := string_at a σ in
      let m' := eval vm_compute in (strcat_spec σ d ds s) in
      match m' with Some ?m' =>
        apply (bind_Ok_post P _ k σ (Some d) m'); [apply (@concat_spec _ L HL σ d ds a s m'); close_side|] end
  | ms_nconcat L (Some ?d) (Some ?a) ?num =>
      let ds := string_at d σ in let s := string_at a σ in
      let m' := eval vm_compute in (strncat_spec σ d ds s (Z.to_nat num)) in
      match m' with Some ?m' =>
        apply (bind_Ok_post P _ k σ (Some d) m'); [apply (@nconcat_spec _ L HL σ d ds a s num m'); close_side|] end
  | ms_compare L (Some ?a) (Some ?b) =>
      let s := string_at a σ in let t := string_at b σ in
      let v := fresh "v" in let Hv := fresh "Hv" in let Hs := fresh "Hsgn" in
      destruct (@compare_spec _ L HL σ a b s t) as (v & Hv & Hs); [close_side|close_side|];
      apply (bind_Ok_post P _ k σ v σ Hv)
  | ms_ncompare L (Some ?a) (Some ?b) ?num =>
      let s := string_at a σ in let t := string_at b σ in
      let v := fresh "v" in let Hv := fresh "Hv" in let Hs := fresh "Hsgn" in
      destruct (@ncompare_spec _ L HL σ a b s t num) as (v & Hv & Hs); [close_side|close_side|close_side|];
      apply (bind_Ok_post P _ k σ v σ Hv)
  | ms_search L (Some ?h) (Some ?n) =>
      let hs := string_at h σ in let ns := string_at n σ in
      apply (bind_Ok_post P _ k σ ((fun p => h .+ Z.of_nat p) <$> strstr_spec hs ns) σ);
        [apply (@search_spec _ L HL σ h hs n ns); close_side|]
  end end.

(** [if (a != b) printf(...)] ([check_ints]) on a value known only by its
    sign: both branches. *)
Ltac check_step :=
  match goal with |- ?P (bind (if ?c then _ else _) ?k ?σ) => destruct c end.

(** One step of code that does not go through the header: computed. *)
Ltac code_step :=
  match goal with
  | |- ?P (bind ?m ?k ?σ) =>
      let r := eval vm_compute in (m σ) in
      match r with Ok (?x, ?σ') => apply (bind_Ok_post P m k σ x σ'); [vm_compute; reflexivity|] end
  end.

Ltac drive :=
  repeat (cbv beta; repeat rewrite bind_assoc; first [contract_step | check_step | code_step]).

(** ** What [main] shows of an implementation *)

(** C29: [main.c] is stricter than the header.  Against the contract of
    [mystring.h] alone, for either signedness of [char], every
    implementation makes [main] return 0 and print at most lines of two
    integers of the same sign: the string and length tests always agree
    with [<string.h>], only the comparison tests can differ, and only in
    magnitude.  And they do differ for a conforming implementation: with
    comparisons that return [-1], [0] or [1], [main] prints [1 8] for
    [ms_compare("this", "that")] and again for [ms_ncompare] with bound 3. *)
Theorem main_against_header (cs : CharSign) :
  (forall L, MystringSpec L -> same_sign_lines (main L ∅)) /\
  MystringSpec mystring_sign /\
  exists m, main mystring_sign ∅ = Ok (([PrintInts 1 8; PrintInts 1 8], 0%Z), m).
Proof.
  split_and!; [|exact mystring_sign_spec|destruct cs; eexists; vm_compute; reflexivity].
  destruct cs; intros L HL;
    unfold main, test_ms_copy, test_ms_length, test_ms_compare, test_ms_concat,
      test_ms_search, test_ms_ncopy, test_ms_ncompare, test_ms_nconcat, check_ints;
    drive; cbn [same_sign_lines ret app]; (split; [done|]);
    repeat (apply List.Forall_cons;
            [eexists _, _; split; [reflexivity|rewrite ?Hsgn, ?Hsgn0; vm_compute; reflexivity]|]);
    apply List.Forall_nil.
Qed.

